(** * Bridges between single-copy segments of an assembly graph

    A shallow embedding of [lib/bridge.py]: the three bridge classes, the
    three builders and the scoring helpers, followed by the properties of
    the bridge specification stated against them.

    Conventions of the embedding.
    - The module is Python 2 code ([itervalues], [round] to the nearest
      integer with halves away from zero), with true division and the
      [print] function imported from [__future__]; printing is not
      modelled.
    - A Python [float] is idealised as an exact rational ([Q]); comparisons
      are the boolean ones of [QArith].  The one irrational operation of the
      module, [x ** 0.5], is taken in [R] ([sqrt]), so the quality of a loop
      unrolling bridge is a real number.  The rounding, underflow and
      overflow of doubles are outside the model: where a property would
      depend on them it is stated about which inputs raise, or takes the
      number the code has computed as an input (as the loop count
      estimate), or bounds its inputs (as the graph overlap).
    - A Python [int] is a [Z]; a signed segment number is a non-zero [Z].
    - An exception ([ZeroDivisionError], [KeyError], [IndexError]) is [None]
      in the [option] monad.
    - A [dict] is a [gmap], a [set] is a [gset]; iterating over one visits
      its elements in the order of [map_to_list] / [elements], one fixed
      order that need not be the order of the interpreter.
    - The classes of the repository that live outside this module
      (graph, segment, read, alignment) are records whose fields are the
      attributes and methods this module calls. *)

From Stdlib Require Import ZArith QArith Qround Qminmax Qabs Qreals Reals Lra Lia Psatz.
From Stdlib Require Import List String Ascii DecimalString DecimalZ DecimalPos.
From stdpp Require Import base option list gmap strings sorting.

Local Open Scope Z_scope.

(** ** Python arithmetic *)

Module Py.

Definition Qlt_bool (a b : Q) : bool := negb (Qle_bool b a).

(** [a / b] on floats (true division): raises on a zero divisor. *)
Definition div (a b : Q) : option Q :=
  if Qeq_bool b 0 then None else Some (a / b)%Q.

(** [int(x)]: truncation towards zero. *)
Definition int (x : Q) : Z :=
  if Qlt_bool x 0 then Qceiling x else Qfloor x.

(** [round(x)] of Python 2: nearest integer, halves away from zero. *)
Definition round (x : Q) : Z :=
  if Qlt_bool x 0 then Qceiling (x - (1 # 2)) else Qfloor (x + (1 # 2)).

(** [x % 1] on floats: the result has the sign of the divisor. *)
Definition mod1 (x : Q) : Q := (x - inject_Z (Qfloor x))%Q.

(** [l[-1]] and [l[0]]: raise [IndexError] on the empty list. *)
Definition first {A} (l : list A) : option A := head l.
Definition last {A} (l : list A) : option A := List.last (map Some l) None.

(** [s[i:j]] on a string, with Python's treatment of indices out of
    range (negative indices count from the end, then are clamped). *)
Definition clamp (n i : Z) : Z :=
  if i <? 0 then Z.max (i + n) 0 else Z.min i n.

Definition slice (s : string) (i j : Z) : string :=
  let n := Z.of_nat (String.length s) in
  let a := clamp n i in
  let b := clamp n j in
  if a <? b then substring (Z.to_nat a) (Z.to_nat (b - a)) s else EmptyString.

(** [sorted(l, key=..., reverse=True)]: stable, largest key first. *)
Fixpoint insert_desc {A} (key : A -> Q) (x : A) (l : list A) : list A :=
  match l with
  | [] => [x]
  | y :: l' =>
      if Qle_bool (key y) (key x) then x :: y :: l' else y :: insert_desc key x l'
  end.

Definition sorted_desc {A} (key : A -> Q) (l : list A) : list A :=
  fold_right (insert_desc key) [] l.

(** [sorted(l, key=...)] with an integer key: stable, smallest key first. *)
Fixpoint insert_asc {A} (key : A -> Z) (x : A) (l : list A) : list A :=
  match l with
  | [] => [x]
  | y :: l' =>
      if key x <=? key y then x :: y :: l' else y :: insert_asc key x l'
  end.

Definition sorted_asc {A} (key : A -> Z) (l : list A) : list A :=
  fold_right (insert_asc key) [] l.

End Py.

(** ** The collaborators of the module

    The segment and graph classes are defined elsewhere in the repository;
    the fields below are exactly what [bridge.py] reads from them. *)

Module Segment.
Record t := {
  number : Z;
  depth : Q;
  get_length : Z;
  get_length_no_overlap : Z -> Z
}.
End Segment.

Module Graph.
Record t := {
  segments : gmap Z Segment.t;
  overlap : Z;
  paths : gmap string (list Z);
  get_path_sequence : list Z -> string;
  get_connected_segments : Z -> list Z;
  find_all_simple_loops : list (Z * Z * Z * Z)
}.
End Graph.

(** [d.itervalues()] *)
Definition itervalues {K V} `{Countable K} (d : gmap K V) : list V :=
  (map_to_list d).*2.

(** A [for] loop whose body may raise: the state is threaded through the
    iterations and the first exception aborts the loop. *)
Fixpoint for_each {A S} (body : S -> A -> option S) (l : list A) (s : S) : option S :=
  match l with
  | [] => Some s
  | x :: l' => s' ← body s x; for_each body l' s'
  end.

(** ** Scoring helpers *)

(** [get_num_agreement(num_1, num_2)] *)
Definition get_num_agreement (num_1 num_2 : Q) : option Q :=
  if Qeq_bool num_1 0 && Qeq_bool num_2 0 then Some 1%Q
  else
    let '(num_1, num_2) :=
      if Py.Qlt_bool num_1 0 && Py.Qlt_bool num_2 0
      then ((- num_1)%Q, (- num_2)%Q) else (num_1, num_2) in
    if Py.Qlt_bool (num_1 * num_2) 0 then Some 0%Q
    else Py.div (Qmin num_1 num_2) (Qmax num_1 num_2).

(** [weighted_average(num_1, num_2, weight_1, weight_2)] *)
Definition weighted_average (num_1 num_2 weight_1 weight_2 : Q) : option Q :=
  let weight_sum := (weight_1 + weight_2)%Q in
  r_1 ← Py.div weight_1 weight_sum;
  r_2 ← Py.div weight_2 weight_sum;
  Some (num_1 * r_1 + num_2 * r_2)%Q.

(** [get_mean_depth(seg_1, seg_2, graph)] *)
Definition get_mean_depth (seg_1 seg_2 : Segment.t) (graph : Graph.t) : option Q :=
  weighted_average (Segment.depth seg_1) (Segment.depth seg_2)
    (inject_Z (Segment.get_length_no_overlap seg_1 (Graph.overlap graph)))
    (inject_Z (Segment.get_length_no_overlap seg_2 (Graph.overlap graph))).

(** [path_is_self_contained(path, start, end, graph)] *)
Definition path_is_self_contained (path : list Z) (start end_ : Z) (graph : Graph.t) : bool :=
  let all_numbers_in_path : gset Z :=
    {[ Z.abs start ]} ∪ {[ Z.abs end_ ]} ∪ list_to_set (map Z.abs path) in
  forallb (fun segment =>
    forallb (fun connected_segment => bool_decide (connected_segment ∈ all_numbers_in_path))
            (Graph.get_connected_segments graph segment)) path.

(** ** The bridge classes *)

(** [l.pop()]: the list without its last element, and that element. *)
Definition pop {A} (l : list A) : option (list A * A) :=
  x ← Py.last l; Some (removelast l, x).

Module SpadesContigBridge.

Record t := {
  start_segment : Z;
  end_segment : Z;
  graph_path : list Z;
  bridge_sequence : string;
  depth : Q;
  quality : Q
}.

(** The body of the loop over [graph_path_pos_nums]. *)
Definition scale_by_segment (graph : Graph.t) (graph_path_pos_nums : list Z)
    (depth quality : Q) (path_segment : Z) : option Q :=
  seg ← Graph.segments graph !! path_segment;
  let actual_depth := Segment.depth seg in
  let expected_depth :=
    (inject_Z (Z.of_nat (count_occ Z.eq_dec graph_path_pos_nums path_segment)) * depth)%Q in
  agreement ← get_num_agreement actual_depth expected_depth;
  Some (quality * agreement)%Q.

(** [SpadesContigBridge.__init__(self, graph, spades_contig_path)] *)
Definition init (graph : Graph.t) (spades_contig_path : list Z) : option t :=
  match spades_contig_path with
  | [] => None
  | start_segment :: rest =>
      '(graph_path, end_segment) ← pop rest;
      let bridge_sequence := Graph.get_path_sequence graph graph_path in
      start_seg ← Graph.segments graph !! Z.abs start_segment;
      end_seg ← Graph.segments graph !! Z.abs end_segment;
      depth_agreement ←
        get_num_agreement (Segment.depth start_seg) (Segment.depth end_seg);
      let quality := (20 * (depth_agreement * depth_agreement))%Q in
      depth ← get_mean_depth start_seg end_seg graph;
      quality ←
        (if path_is_self_contained graph_path start_segment end_segment graph then
           let graph_path_pos_nums :=
             elements (list_to_set (C := gset Z) (map Z.abs graph_path)) in
           for_each (scale_by_segment graph graph_path_pos_nums depth)
                    graph_path_pos_nums quality
         else Some quality);
      Some {| start_segment := start_segment; end_segment := end_segment;
              graph_path := graph_path; bridge_sequence := bridge_sequence;
              depth := depth; quality := quality |}
  end.

End SpadesContigBridge.

Module LongReadBridge.

Record t := {
  start_segment : option Z;
  end_segment : option Z;
  read_names : list string;
  read_sequences : list string;
  read_qualities : list string;
  read_lengths : list Z;
  start_partial_read_names : list string;
  start_partial_sequences : list string;
  start_partial_qualities : list string;
  end_partial_read_names : list string;
  end_partial_sequences : list string;
  end_partial_qualities : list string;
  consensus_sequence : string;
  consensus_length : Q;
  graph_path : list Z;
  bridge_sequence : string;
  depth : Q;
  quality : Q
}.

(** [LongReadBridge.__init__(self, spades_contig_path=None, graph=None)] *)
Definition init (spades_contig_path : option (list Z)) (graph : option Graph.t) : t :=
  {| start_segment := None; end_segment := None;
     read_names := []; read_sequences := []; read_qualities := []; read_lengths := [];
     start_partial_read_names := []; start_partial_sequences := [];
     start_partial_qualities := [];
     end_partial_read_names := []; end_partial_sequences := [];
     end_partial_qualities := [];
     consensus_sequence := EmptyString; consensus_length := 0%Q;
     graph_path := []; bridge_sequence := EmptyString;
     depth := 0%Q; quality := 1%Q |}.

End LongReadBridge.

Module LoopUnrollingBridge.

Record t := {
  start_segment : Z;
  end_segment : Z;
  graph_path : list Z;
  bridge_sequence : string;
  depth : Q;
  quality : R
}.

(** The mean loop count, weighted by the middle and repeat segment
    lengths. *)
Definition mean_loop_count (graph : Graph.t) (depth : Q) (middle_seg repeat_seg : Segment.t)
    : option Q :=
  loop_count_by_middle ← Py.div (Segment.depth middle_seg) depth;
  loop_count_by_repeat ← Py.div (Segment.depth repeat_seg - depth) depth;
  weighted_average loop_count_by_middle loop_count_by_repeat
    (inject_Z (Segment.get_length_no_overlap middle_seg (Graph.overlap graph)))
    (inject_Z (Segment.get_length_no_overlap repeat_seg (Graph.overlap graph))).

(** The [if mean_loop_count < 1.0: ... else: ...] block: the loop count
    and the closeness of the estimate to a whole number. *)
Definition loop_count_and_closeness (mean_loop_count : Q) : Z * Q :=
  if Py.Qlt_bool mean_loop_count 1 then (1, mean_loop_count)
  else
    let loop_count := Py.round mean_loop_count in
    let fractional_part := Py.mod1 mean_loop_count in
    let distance_from_whole_num := Qmin fractional_part (1 - fractional_part) in
    (loop_count, (1 - 2 * distance_from_whole_num)%Q).

(** The path [[repeat]] extended [loop_count] times by [[middle, repeat]]. *)
Definition unrolled_path (middle repeat_ : Z) (loop_count : Z) : list Z :=
  Nat.iter (Z.to_nat loop_count) (fun graph_path => graph_path ++ [middle; repeat_])
           [repeat_].

(** [LoopUnrollingBridge.__init__(self, graph, start, end, middle, repeat)] *)
Definition init (graph : Graph.t) (start end_ middle repeat_ : Z) : option t :=
  start_seg ← Graph.segments graph !! Z.abs start;
  end_seg ← Graph.segments graph !! Z.abs end_;
  middle_seg ← Graph.segments graph !! Z.abs middle;
  repeat_seg ← Graph.segments graph !! Z.abs repeat_;
  depth_agreement ←
    get_num_agreement (Segment.depth start_seg) (Segment.depth end_seg);
  let quality := (10 * (depth_agreement * depth_agreement))%Q in
  depth ← get_mean_depth start_seg end_seg graph;
  mean_loop_count ← mean_loop_count graph depth middle_seg repeat_seg;
  let '(loop_count, closeness_to_whole_num) :=
    loop_count_and_closeness mean_loop_count in
  let quality := (quality * closeness_to_whole_num)%Q in
  inverse_count ← Py.div 1 (inject_Z loop_count);
  let loop_count_penalty := sqrt (Q2R inverse_count) in
  let quality := (Q2R quality * loop_count_penalty)%R in
  let graph_path := unrolled_path middle repeat_ loop_count in
  Some {| start_segment := start; end_segment := end_;
          graph_path := graph_path;
          bridge_sequence := Graph.get_path_sequence graph graph_path;
          depth := depth; quality := quality |}.

End LoopUnrollingBridge.

(** ** Building bridges from the SPAdes contig paths *)

(** [[-x for x in reversed(path)]] *)
Definition reverse_complement_path (path : list Z) : list Z :=
  map Z.opp (rev path).

(** The inner loop of [find_contig_bridges]: the elements after the start,
    up to and including the first one whose number is single-copy; [None]
    when the path ends first (the [else] branch of the [for]). *)
Fixpoint scan_to_single_copy (single_copy_numbers : list Z) (rest : list Z)
    : option (list Z) :=
  match rest with
  | [] => None
  | x :: rest' =>
      if bool_decide (x ∈ single_copy_numbers) || bool_decide (- x ∈ single_copy_numbers)
      then Some [x]
      else cons x <$> scan_to_single_copy single_copy_numbers rest'
  end.

(** [find_contig_bridges(segment_num, path, single_copy_numbers)]; the
    indices of the source are visited by recursion on the path. *)
Fixpoint find_contig_bridges (segment_num : Z) (path : list Z)
    (single_copy_numbers : list Z) : list (list Z) :=
  match path with
  | [] => []
  | x :: rest =>
      (if Z.abs x =? segment_num then
         match scan_to_single_copy single_copy_numbers rest with
         | Some bridge_tail => [x :: bridge_tail]
         | None => []
         end
       else [])
      ++ find_contig_bridges segment_num rest single_copy_numbers
  end.

(** The body of [for contig_bridge in contig_bridges].  The source keeps
    the comma-joined decimal rendering of each path in [bridge_path_set]
    and parses the set back into paths; the rendering is one-to-one, so the
    set is kept as a set of paths. *)
Definition add_contig_bridge (bridge_path_set : gset (list Z)) (contig_bridge : list Z)
    : option (gset (list Z)) :=
  let flipped_contig_bridge := reverse_complement_path contig_bridge in
  if bool_decide (contig_bridge ∉ bridge_path_set)
     && bool_decide (flipped_contig_bridge ∉ bridge_path_set)
  then
    first ← Py.first contig_bridge;
    last ← Py.last contig_bridge;
    if (first <? 0) && (last <? 0)
    then Some ({[ flipped_contig_bridge ]} ∪ bridge_path_set)
    else Some ({[ contig_bridge ]} ∪ bridge_path_set)
  else Some bridge_path_set.

(** The two nested loops that fill [bridge_path_set]. *)
Definition collect_bridge_paths (graph : Graph.t) (single_copy_segments : list Segment.t)
    : option (gset (list Z)) :=
  let single_copy_numbers := map Segment.number single_copy_segments in
  for_each (fun bridge_path_set segment =>
    for_each (fun bridge_path_set path =>
      let flipped_path := reverse_complement_path path in
      let contig_bridges :=
        find_contig_bridges (Segment.number segment) path single_copy_numbers
        ++ find_contig_bridges (Segment.number segment) flipped_path single_copy_numbers in
      for_each add_contig_bridge contig_bridges bridge_path_set)
      (itervalues (Graph.paths graph)) bridge_path_set)
    single_copy_segments ∅.

(** The order of Python on lists of integers. *)
Fixpoint list_le (a b : list Z) : bool :=
  match a, b with
  | [], _ => true
  | _ :: _, [] => false
  | x :: a', y :: b' => (x <? y) || ((x =? y) && list_le a' b')
  end.

#[local] Instance list_le_dec (a b : list Z) : Decision (list_le a b = true) := _.

(** [sorted(...)] on paths *)
Definition sorted_paths (l : list (list Z)) : list (list Z) :=
  merge_sort (fun a b => list_le a b = true) l.

(** [if k not in d: d[k] = []] *)
Definition ensure_key {K V} `{Countable K} (k : K) (d : gmap K (list V)) : gmap K (list V) :=
  match d !! k with
  | Some _ => d
  | None => <[k := []]> d
  end.

(** [d[k].append(x)] *)
Definition append_at {K V} `{Countable K} (k : K) (x : V) (d : gmap K (list V))
    : option (gmap K (list V)) :=
  l ← d !! k; Some (<[k := l ++ [x]]> d).

(** The body of [for path in bridge_path_list]. *)
Definition index_bridge_path (dicts : gmap Z (list (list Z)) * gmap Z (list (list Z)))
    (path : list Z) : option (gmap Z (list (list Z)) * gmap Z (list (list Z))) :=
  let '(bridge_paths_by_start, bridge_paths_by_end) := dicts in
  start ← Py.first path;
  end_ ← Py.last path;
  let bridge_paths_by_start := ensure_key start bridge_paths_by_start in
  let bridge_paths_by_end := ensure_key end_ bridge_paths_by_end in
  let bridge_paths_by_start := ensure_key (- end_) bridge_paths_by_start in
  let bridge_paths_by_end := ensure_key (- start) bridge_paths_by_end in
  bridge_paths_by_start ← append_at start path bridge_paths_by_start;
  bridge_paths_by_end ← append_at end_ path bridge_paths_by_end;
  bridge_paths_by_start ← append_at (- end_) path bridge_paths_by_start;
  bridge_paths_by_end ← append_at (- start) path bridge_paths_by_end;
  Some (bridge_paths_by_start, bridge_paths_by_end).

(** The groups of a dictionary that hold more than one path. *)
Definition conflicts_of (d : gmap Z (list (list Z))) : list (list Z) :=
  concat (List.filter (fun grouped_paths => (1 <? length grouped_paths)%nat) (itervalues d)).

(** Keeping the first occurrence of every path. *)
Definition no_dups (l : list (list Z)) : list (list Z) :=
  fold_left (fun acc path => if bool_decide (path ∈ acc) then acc else acc ++ [path]) l [].

(** From [bridge_path_list] to [conflicting_paths] (without duplicates). *)
Definition conflicting_paths (bridge_path_list : list (list Z)) : option (list (list Z)) :=
  '(bridge_paths_by_start, bridge_paths_by_end) ←
    for_each index_bridge_path bridge_path_list (∅, ∅);
  Some (no_dups (conflicts_of bridge_paths_by_start ++ conflicts_of bridge_paths_by_end)).

(** From [bridge_path_list] to [final_bridge_paths]. *)
Definition final_bridge_paths (bridge_path_list : list (list Z)) : option (list (list Z)) :=
  conflicting ← conflicting_paths bridge_path_list;
  Some (List.filter (fun x => bool_decide (x ∉ conflicting)) bridge_path_list).

(** [create_spades_contig_bridges(graph, single_copy_segments, verbosity)];
    the messages printed under [verbosity] are not modelled. *)
Definition create_spades_contig_bridges (graph : Graph.t)
    (single_copy_segments : list Segment.t) (verbosity : Z)
    : option (list SpadesContigBridge.t) :=
  bridge_path_set ← collect_bridge_paths graph single_copy_segments;
  let bridge_path_list := sorted_paths (elements bridge_path_set) in
  final ← final_bridge_paths bridge_path_list;
  mapM (SpadesContigBridge.init graph) final.

(** ** Building bridges by unrolling simple loops *)

(** The loop over [graph.paths] for one simple loop.  [joined] is only
    assigned inside that loop: it starts out with whatever the previous
    simple loop left in it ([None] when nothing did). *)
Fixpoint corroborate (start end_ middle : Z) (paths : list (list Z)) (joined : option bool)
    : option bool :=
  match paths with
  | [] => joined
  | path :: paths' =>
      let flipped_path := reverse_complement_path path in
      if (bool_decide (start ∈ path) && bool_decide (middle ∈ path))
         || (bool_decide (end_ ∈ path) && bool_decide (middle ∈ path))
         || (bool_decide (start ∈ flipped_path) && bool_decide (middle ∈ flipped_path))
         || (bool_decide (end_ ∈ flipped_path) && bool_decide (middle ∈ flipped_path))
      then Some true
      else corroborate start end_ middle paths' (Some false)
  end.

(** [create_loop_unrolling_bridges(graph, single_copy_segments, verbosity)];
    reading [joined] before any assignment raises [NameError]. *)
Definition create_loop_unrolling_bridges (graph : Graph.t)
    (single_copy_segments : list Segment.t) (verbosity : Z)
    : option (list LoopUnrollingBridge.t) :=
  snd <$>
  for_each (fun '(joined, bridges) '(start, end_, middle, repeat_) =>
    joined ← corroborate start end_ middle (itervalues (Graph.paths graph)) joined;
    if negb joined then Some (Some joined, bridges)
    else
      bridge ← LoopUnrollingBridge.init graph start end_ middle repeat_;
      Some (Some joined, bridges ++ [bridge]))
    (Graph.find_all_simple_loops graph) (None, []).

(** ** Collecting bridging evidence from long reads

    The read and alignment classes are defined elsewhere in the
    repository; their fields are the attributes and the (argument-free)
    methods read here. *)

Module Alignment.
Record t := {
  ref : Segment.t;
  raw_score : Q;
  scaled_score : Q;
  read_start_positive_strand : Z;
  read_end_positive_strand : Z;
  ref_start_pos : Z;
  ref_end_gap : Z;
  get_aligned_ref_length : Z;
  get_signed_ref_num : Z;
  get_start_overlapping_read_seq : string;
  get_end_overlapping_read_seq : string
}.
End Alignment.

Module Read.
Record t := {
  name : string;
  sequence : string;
  alignments : list Alignment.t
}.
End Read.

(** The bridges of any class, as passed in [existing_bridges]. *)
Inductive Bridge :=
| ContigBridge (b : SpadesContigBridge.t)
| ReadBridge (b : LongReadBridge.t)
| LoopBridge (b : LoopUnrollingBridge.t).

(** [flip_segment_order(seg_num_1, seg_num_2)] *)
Definition flip_segment_order (seg_num_1 seg_num_2 : Z) : (Z * Z) * bool :=
  let flip :=
    if (seg_num_1 >? 0) && (seg_num_2 >? 0) then false
    else if (seg_num_1 <? 0) && (seg_num_2 <? 0) then true
    else if seg_num_1 <? 0 then Z.abs seg_num_1 >? Z.abs seg_num_2
    else Z.abs seg_num_2 >? Z.abs seg_num_1 in
  if flip then ((- seg_num_2, - seg_num_1), true)
  else ((seg_num_1, seg_num_2), false).

(** The first loop of [get_single_copy_alignments]: the alignments to
    single-copy references that reach the score threshold, by reference. *)
Definition group_alignment (single_copy_num_set : gset Z) (min_scaled_score : Q)
    (sc_alignments : gmap Z (list Alignment.t)) (alignment : Alignment.t)
    : option (gmap Z (list Alignment.t)) :=
  let ref_num := Segment.number (Alignment.ref alignment) in
  if bool_decide (ref_num ∉ single_copy_num_set) then Some sc_alignments
  else if Py.Qlt_bool (Alignment.scaled_score alignment) min_scaled_score
  then Some sc_alignments
  else append_at ref_num alignment (ensure_key ref_num sc_alignments).

(** The body of the second loop: the alignments kept for one reference. *)
Definition select_alignments (allowed_overlap : Q) (final_alignments : list Alignment.t)
    (alignments : list Alignment.t) : option (list Alignment.t) :=
  let alignments := Py.sorted_desc Alignment.scaled_score alignments in
  best_alignment ← alignments !! 0%nat;
  let final_alignments := final_alignments ++ [best_alignment] in
  if (1 <? length alignments)%nat then
    second_best_alignment ← alignments !! 1%nat;
    let combined_len :=
      Alignment.get_aligned_ref_length best_alignment
      + Alignment.get_aligned_ref_length second_best_alignment in
    if Qle_bool (inject_Z combined_len)
         (inject_Z (Segment.get_length (Alignment.ref best_alignment)) + allowed_overlap)
    then
      if ((Alignment.ref_start_pos best_alignment >? 0)
          && (Alignment.ref_end_gap second_best_alignment >? 0))
         || ((Alignment.ref_end_gap best_alignment >? 0)
             && (Alignment.ref_start_pos second_best_alignment >? 0))
      then Some (final_alignments ++ [second_best_alignment])
      else Some final_alignments
    else Some final_alignments
  else Some final_alignments.

(** [get_single_copy_alignments(read, single_copy_num_set, allowed_overlap,
    min_scaled_score)] *)
Definition get_single_copy_alignments (read : Read.t) (single_copy_num_set : gset Z)
    (allowed_overlap : Q) (min_scaled_score : Q) : option (list Alignment.t) :=
  sc_alignments ←
    for_each (group_alignment single_copy_num_set min_scaled_score)
             (Read.alignments read) ∅;
  for_each (select_alignments allowed_overlap) (itervalues sc_alignments) [].

(** [allowed_overlap = round(int(1.1 * graph.overlap))] *)
Definition allowed_overlap (graph : Graph.t) : Q :=
  inject_Z (Py.round (inject_Z (Py.int ((11 # 10) * inject_Z (Graph.overlap graph))))).

(** What a read contributes between two alignments: the read bases, or the
    (zero or negative) distance when the alignments overlap. *)
Abbreviation bridge_seq_t := (string + Z)%type.

(** The type of [spanning_read_seqs]. *)
Abbreviation spanning_t := (gmap (Z * Z) (list (bridge_seq_t * Alignment.t * Alignment.t))).

Section LongReads.

(** [misc.reverse_complement], defined elsewhere in the repository. *)
Variable reverse_complement : string -> string.

(** The body of [for i in range(len(available_alignments) - 1)]. *)
Definition add_pair (read : Read.t) (st : spanning_t * gset (Z * Z))
    (pair : Alignment.t * Alignment.t) : option (spanning_t * gset (Z * Z)) :=
  let '(spanning_read_seqs, already_added) := st in
  let '(alignment_1, alignment_2) := pair in
  let '(seg_nums, flipped) :=
    flip_segment_order (Alignment.get_signed_ref_num alignment_1)
                       (Alignment.get_signed_ref_num alignment_2) in
  if bool_decide (seg_nums ∉ already_added) then
    let bridge_start := Alignment.read_end_positive_strand alignment_1 in
    let bridge_end := Alignment.read_start_positive_strand alignment_2 in
    let bridge_seq : bridge_seq_t :=
      if bridge_end >? bridge_start then
        let bridge_seq := Py.slice (Read.sequence read) bridge_start bridge_end in
        inl (if flipped then reverse_complement bridge_seq else bridge_seq)
      else inr (bridge_end - bridge_start) in
    spanning_read_seqs ←
      append_at seg_nums (bridge_seq, alignment_1, alignment_2)
                (ensure_key seg_nums spanning_read_seqs);
    Some (spanning_read_seqs, {[ seg_nums ]} ∪ already_added)
  else Some st.

(** The pairs [(l[i], l[i+1])] for [i] in [range(len(l) - 1)]. *)
Definition adjacent_pairs {A} (l : list A) : list (A * A) :=
  zip l (tail l).

(** The body of [for alignment in sorted_alignments]; the state also
    carries [available_alignments] and the loop variable [alignment]. *)
Definition add_alignment (read : Read.t)
    (st : spanning_t * gset (Z * Z) * list Alignment.t * option Alignment.t)
    (alignment : Alignment.t)
    : option (spanning_t * gset (Z * Z) * list Alignment.t * option Alignment.t) :=
  let '(spanning_read_seqs, already_added, available_alignments, _) := st in
  let available_alignments := available_alignments ++ [alignment] in
  let available_alignments :=
    Py.sorted_asc Alignment.read_start_positive_strand available_alignments in
  '(spanning_read_seqs, already_added) ←
    for_each (add_pair read) (adjacent_pairs available_alignments)
             (spanning_read_seqs, already_added);
  Some (spanning_read_seqs, already_added, available_alignments, Some alignment).

(** The body of [for read_name in read_names].  When the loop over
    [sorted_alignments] starts, [alignment] still holds the last element of
    [alignments], left there by the loop that prints them. *)
Definition process_read (read_dict : gmap string Read.t) (single_copy_seg_num_set : gset Z)
    (allowed_overlap : Q) (min_scaled_score : Q)
    (st : spanning_t * gmap Z (list string)) (read_name : string)
    : option (spanning_t * gmap Z (list string)) :=
  let '(spanning_read_seqs, overlapping_read_seqs) := st in
  read ← read_dict !! read_name;
  alignments ←
    get_single_copy_alignments read single_copy_seg_num_set allowed_overlap
                               min_scaled_score;
  if bool_decide (alignments = []) then Some st
  else
    let already_added : gset (Z * Z) := ∅ in
    let sorted_alignments := Py.sorted_desc Alignment.raw_score alignments in
    '(spanning_read_seqs, already_added, available_alignments, alignment) ←
      for_each (add_alignment read) sorted_alignments
               (spanning_read_seqs, already_added, [], Py.last alignments);
    first_alignment ← Py.first available_alignments;
    let start_overlap := Alignment.get_start_overlapping_read_seq first_alignment in
    overlapping_read_seqs ←
      (if bool_decide (start_overlap ≠ EmptyString) then
         alignment ← alignment;
         let seg_num := - Alignment.get_signed_ref_num alignment in
         let seq := reverse_complement start_overlap in
         append_at seg_num seq (ensure_key seg_num overlapping_read_seqs)
       else Some overlapping_read_seqs);
    last_alignment ← Py.last available_alignments;
    let end_overlap := Alignment.get_end_overlapping_read_seq last_alignment in
    overlapping_read_seqs ←
      (if bool_decide (end_overlap ≠ EmptyString) then
         alignment ← alignment;
         let seg_num := Alignment.get_signed_ref_num alignment in
         append_at seg_num end_overlap (ensure_key seg_num overlapping_read_seqs)
       else Some overlapping_read_seqs);
    Some (spanning_read_seqs, overlapping_read_seqs).

(** The dictionaries [spanning_read_seqs] and [overlapping_read_seqs]
    when the loop over the reads is over. *)
Definition collect_read_seqs (graph : Graph.t) (read_dict : gmap string Read.t)
    (read_names : list string) (single_copy_segments : list Segment.t)
    (min_scaled_score : Q) : option (spanning_t * gmap Z (list string)) :=
  let single_copy_seg_num_set : gset Z :=
    fold_left (fun s seg => {[ Segment.number seg ]} ∪ s) single_copy_segments ∅ in
  for_each (process_read read_dict single_copy_seg_num_set (allowed_overlap graph)
                         min_scaled_score)
           read_names (∅, ∅).

(** [create_long_read_bridges(graph, read_dict, read_names,
    single_copy_segments, verbosity, existing_bridges, min_scaled_score)];
    the diagnostic output is not modelled. *)
Definition create_long_read_bridges (graph : Graph.t) (read_dict : gmap string Read.t)
    (read_names : list string) (single_copy_segments : list Segment.t)
    (verbosity : Z) (existing_bridges : list Bridge) (min_scaled_score : Q)
    : option (list LongReadBridge.t) :=
  _ ← collect_read_seqs graph read_dict read_names single_copy_segments
                        min_scaled_score;
  Some [].

End LongReads.
(** [available_alignments] after the alignments of [l] have been added. *)
Definition available_after (available : list Alignment.t) (l : list Alignment.t)
    : list Alignment.t :=
  fold_left (fun available alignment =>
               Py.sorted_asc Alignment.read_start_positive_strand (available ++ [alignment]))
            l available.

(** A path whose first and last elements are both negative. *)
Definition both_negative (path : list Z) : Prop :=
  exists first last,
    Py.first path = Some first /\ Py.last path = Some last /\ first < 0 /\ last < 0.

(** The invariant of [bridge_path_set]: no path is stored together with
    its reverse complement, and no stored path has two negative ends. *)
Definition canonical_set (bridge_path_set : gset (list Z)) : Prop :=
  (forall p, p ∈ bridge_path_set -> reverse_complement_path p ∈ bridge_path_set ->
             p = reverse_complement_path p) /\
  (forall p, p ∈ bridge_path_set -> ~ both_negative p).

(** ** The specification's reading of a conflict

    The keys under which a bridge path is filed: its start and minus its
    end in [bridge_paths_by_start], its end and minus its start in
    [bridge_paths_by_end]. *)
Definition start_keys (path : list Z) : list Z :=
  match Py.first path, Py.last path with
  | Some start, Some end_ => [start; - end_]
  | _, _ => []
  end.

Definition end_keys (path : list Z) : list Z :=
  match Py.first path, Py.last path with
  | Some start, Some end_ => [end_; - start]
  | _, _ => []
  end.

(** Two paths that are filed under a common key of one of the two
    dictionaries. *)
Definition share_key (p q : list Z) : Prop :=
  (exists k, k ∈ start_keys p /\ k ∈ start_keys q)
  \/ (exists k, k ∈ end_keys p /\ k ∈ end_keys q).

(** A path that shares a key with a distinct path of the list. *)
Definition conflicts_with_another (bridge_path_list : list (list Z)) (p : list Z) : Prop :=
  exists q, q ∈ bridge_path_list /\ q <> p /\ share_key p q.

(** A path that starts on the reverse complement of its end, as
    [3, 5, -3]: its two keys in either dictionary are the same key. *)
Definition ends_on_own_start (p : list Z) : Prop :=
  exists start end_, Py.first p = Some start /\ Py.last p = Some end_ /\ start = - end_.

(** What one path adds to the group of key [k]. *)
Definition entries_at (keys : list Z -> list Z) (k : Z) (path : list Z) : list (list Z) :=
  flat_map (fun k' => if decide (k' = k) then [path] else []) (keys path).

(** The group of [k] in a dictionary, empty when [k] is not a key. *)
Definition group_of {V} (d : gmap Z (list V)) (k : Z) : list V :=
  default [] (d !! k).

(** ** Outcomes of the depth scaling loop *)

(** The factor by which the loop of the contig bridge constructor
    multiplies the quality for one path segment. *)
Definition segment_agreement (graph : Graph.t) (graph_path_pos_nums : list Z)
    (depth : Q) (path_segment : Z) : option Q :=
  seg ← Graph.segments graph !! path_segment;
  get_num_agreement (Segment.depth seg)
    (inject_Z (Z.of_nat (count_occ Z.eq_dec graph_path_pos_nums path_segment)) * depth)%Q.

(** Two runs that both raise, or that return equal numbers. *)
Definition same_outcome (a b : option Q) : Prop :=
  match a, b with
  | Some x, Some y => (x == y)%Q
  | None, None => True
  | _, _ => False
  end.

(** ** The alignments kept for one reference *)

(** An alignment that enters the group of reference [k]: its reference is
    [k], a single-copy segment, and its scaled score reaches the
    threshold. *)
Definition qualifies (single_copy_num_set : gset Z) (min_scaled_score : Q) (k : Z)
    (alignment : Alignment.t) : bool :=
  bool_decide (Segment.number (Alignment.ref alignment) = k)
  && bool_decide (k ∈ single_copy_num_set)
  && negb (Py.Qlt_bool (Alignment.scaled_score alignment) min_scaled_score).

(** The two conditions under which the second best alignment is kept. *)
Definition keeps_second (allowed_overlap : Q) (best second : Alignment.t) : bool :=
  Qle_bool
    (inject_Z (Alignment.get_aligned_ref_length best
               + Alignment.get_aligned_ref_length second))
    (inject_Z (Segment.get_length (Alignment.ref best)) + allowed_overlap)
  && (((Alignment.ref_start_pos best >? 0) && (Alignment.ref_end_gap second >? 0))
      || ((Alignment.ref_end_gap best >? 0) && (Alignment.ref_start_pos second >? 0))).

(** The alignments kept out of a group: the best one, and the second
    best one under the two conditions. *)
Definition selection (allowed_overlap : Q) (group : list Alignment.t) : list Alignment.t :=
  match Py.sorted_desc Alignment.scaled_score group with
  | [] => []
  | [best] => [best]
  | best :: second :: _ =>
      if keeps_second allowed_overlap best second then [best; second] else [best]
  end.

(** ** Simple loops supported by a contig path *)

(** A contig path, or its reverse complement, that holds the middle of the
    loop together with its start or its end. *)
Definition joins (start end_ middle : Z) (path : list Z) : Prop :=
  let flipped_path := reverse_complement_path path in
  (start ∈ path /\ middle ∈ path) \/ (end_ ∈ path /\ middle ∈ path)
  \/ (start ∈ flipped_path /\ middle ∈ flipped_path)
  \/ (end_ ∈ flipped_path /\ middle ∈ flipped_path).

Definition corroborated (graph : Graph.t) (start end_ middle : Z) : Prop :=
  exists path, path ∈ itervalues (Graph.paths graph) /\ joins start end_ middle path.

(** ** Anchors of a contig path *)

(** A signed segment number whose segment is single-copy, in either
    orientation. *)
Definition is_anchor (single_copy_numbers : list Z) (x : Z) : Prop :=
  x ∈ single_copy_numbers \/ - x ∈ single_copy_numbers.

(** All the candidates the contig bridge builder meets, in the order in
    which its loops meet them. *)
Definition contig_bridge_candidates (graph : Graph.t) (single_copy_segments : list Segment.t)
    : list (list Z) :=
  let single_copy_numbers := map Segment.number single_copy_segments in
  flat_map (fun segment =>
    flat_map (fun path =>
      find_contig_bridges (Segment.number segment) path single_copy_numbers
      ++ find_contig_bridges (Segment.number segment) (reverse_complement_path path)
           single_copy_numbers)
      (itervalues (Graph.paths graph)))
    single_copy_segments.

(** Whether a contig path supports a loop can be computed. *)
#[local] Instance joins_dec (start end_ middle : Z) (path : list Z) :
  Decision (joins start end_ middle path) := ltac:(unfold joins; apply _).

#[local] Instance corroborated_dec (graph : Graph.t) (start end_ middle : Z) :
  Decision (corroborated graph start end_ middle) :=
  list_exist_dec _ _ (joins_dec start end_ middle).

(** The simple loops of the graph that a contig path supports, in the
    order in which the graph reports them. *)
Definition supported_loops (graph : Graph.t) : list (Z * Z * Z * Z) :=
  filter (fun loop => corroborated graph loop.1.1.1 loop.1.1.2 loop.1.2)
         (Graph.find_all_simple_loops graph).

(** A simple loop in a graph without any contig path. *)
Definition pathless_loop_graph : Graph.t :=
  {| Graph.segments :=
       <[1 := {| Segment.number := 1; Segment.depth := 10; Segment.get_length := 100;
                 Segment.get_length_no_overlap := fun overlap => 100 - overlap |}]>
         (<[2 := {| Segment.number := 2; Segment.depth := 10; Segment.get_length := 100;
                    Segment.get_length_no_overlap := fun overlap => 100 - overlap |}]> ∅);
     Graph.overlap := 0;
     Graph.paths := ∅;
     Graph.get_path_sequence := fun _ => EmptyString;
     Graph.get_connected_segments := fun _ => [];
     Graph.find_all_simple_loops := [(1, 2, 1, 2)] |}.

(** ** Spanning read sequences *)

(** The key of [spanning_read_seqs] under which the pair of two
    alignments is filed. *)
Definition pair_key (alignment_1 alignment_2 : Alignment.t) : Z * Z :=
  fst (flip_segment_order (Alignment.get_signed_ref_num alignment_1)
                          (Alignment.get_signed_ref_num alignment_2)).

(** The entries of a key of [spanning_read_seqs], none when it is not a
    key. *)
Definition spanning_entries (spanning_read_seqs : spanning_t) (k : Z * Z)
    : list (bridge_seq_t * Alignment.t * Alignment.t) :=
  default [] (spanning_read_seqs !! k).

(** The bridging sequence of two alignments of a read.  When there is a
    gap between them on the read it is the bases of the read in the gap,
    reverse complemented when the pair of segments was flipped into its
    standard order; otherwise it is the distance between them, zero or
    negative. *)
Definition fits_gap (reverse_complement : string -> string) (read : Read.t)
    (alignment_1 alignment_2 : Alignment.t) (bridge_seq : bridge_seq_t) : Prop :=
  let bridge_start := Alignment.read_end_positive_strand alignment_1 in
  let bridge_end := Alignment.read_start_positive_strand alignment_2 in
  let flipped :=
    snd (flip_segment_order (Alignment.get_signed_ref_num alignment_1)
                            (Alignment.get_signed_ref_num alignment_2)) in
  match bridge_seq with
  | inl bases =>
      bridge_start < bridge_end /\
      bases = (if flipped
               then reverse_complement (Py.slice (Read.sequence read) bridge_start bridge_end)
               else Py.slice (Read.sequence read) bridge_start bridge_end)
  | inr distance => distance = bridge_end - bridge_start /\ distance <= 0
  end.

(** What one read has added to [spanning_read_seqs]: one entry under
    each key of [already_added], made of two of its alignments, and
    nothing under the other keys. *)
Definition one_entry_per_pair (reverse_complement : string -> string) (read : Read.t)
    (alignments : list Alignment.t)
    (before after : spanning_t) (already_added : gset (Z * Z)) : Prop :=
  forall k, exists new,
    spanning_entries after k = spanning_entries before k ++ new /\
    (k ∉ already_added -> new = []) /\
    (k ∈ already_added ->
       exists bridge_seq alignment_1 alignment_2,
         new = [(bridge_seq, alignment_1, alignment_2)] /\
         alignment_1 ∈ alignments /\ alignment_2 ∈ alignments /\
         k = pair_key alignment_1 alignment_2 /\
         fits_gap reverse_complement read alignment_1 alignment_2 bridge_seq).

(** ** Bridge paths as strings

    While they are collected, the bridge paths are kept in
    [bridge_path_set] as strings, the decimal numbers of the path joined
    by commas, and are parsed back into lists of numbers afterwards. *)

Module Str.

(** [str(x)] on an integer. *)
Definition str (x : Z) : string := NilZero.string_of_int (Z.to_int x).

(** [int(s)] on the strings it is given here: a decimal numeral with an
    optional minus sign, as [str] writes it; the empty string and a lone
    sign raise [ValueError].  The other spellings Python reads (blanks
    around the numeral, a plus sign), which [str] never writes, are not
    modelled and count as a failure. *)
Definition int (s : string) : option Z := Z.of_int <$> NilZero.int_of_string s.

(** [sep.join(l)] *)
Fixpoint join (sep : string) (l : list string) : string :=
  match l with
  | [] => EmptyString
  | s :: l' =>
      match l' with
      | [] => s
      | _ :: _ => String.append s (String.append sep (join sep l'))
      end
  end.

(** [s.split(sep)] for a separator of one character. *)
Fixpoint split (sep : ascii) (s : string) : list string :=
  match s with
  | EmptyString => [EmptyString]
  | String c s' =>
      if Ascii.eqb c sep then EmptyString :: split sep s'
      else
        match split sep s' with
        | [] => [String c EmptyString]
        | word :: words => String c word :: words
        end
  end.

End Str.

(** [','.join([str(x) for x in contig_bridge])] *)
Definition render_path (path : list Z) : string :=
  Str.join "," (map Str.str path).

(** [[int(y) for y in x.split(',')]] *)
Definition parse_path (x : string) : option (list Z) :=
  mapM Str.int (Str.split "," x).

(** The body of [for contig_bridge in contig_bridges], on the strings of
    the source. *)
Definition add_contig_bridge_str (bridge_path_set : gset string) (contig_bridge : list Z)
    : option (gset string) :=
  let flipped_contig_bridge := reverse_complement_path contig_bridge in
  let contig_bridge_str := render_path contig_bridge in
  let flipped_contig_bridge_str := render_path flipped_contig_bridge in
  if bool_decide (contig_bridge_str ∉ bridge_path_set)
     && bool_decide (flipped_contig_bridge_str ∉ bridge_path_set)
  then
    first ← Py.first contig_bridge;
    last ← Py.last contig_bridge;
    if (first <? 0) && (last <? 0)
    then Some ({[ flipped_contig_bridge_str ]} ∪ bridge_path_set)
    else Some ({[ contig_bridge_str ]} ∪ bridge_path_set)
  else Some bridge_path_set.

(** The two nested loops that fill [bridge_path_set], on strings. *)
Definition collect_bridge_paths_str (graph : Graph.t) (single_copy_segments : list Segment.t)
    : option (gset string) :=
  let single_copy_numbers := map Segment.number single_copy_segments in
  for_each (fun bridge_path_set segment =>
    for_each (fun bridge_path_set path =>
      let flipped_path := reverse_complement_path path in
      let contig_bridges :=
        find_contig_bridges (Segment.number segment) path single_copy_numbers
        ++ find_contig_bridges (Segment.number segment) flipped_path single_copy_numbers in
      for_each add_contig_bridge_str contig_bridges bridge_path_set)
      (itervalues (Graph.paths graph)) bridge_path_set)
    single_copy_segments ∅.

(** [bridge_path_list = sorted(list([[int(y) for y in x.split(',')]
    for x in bridge_path_set]))] *)
Definition bridge_path_list_str (bridge_path_set : gset string) : option (list (list Z)) :=
  paths ← mapM parse_path (elements bridge_path_set);
  Some (sorted_paths paths).

(** ** The specification's reading of the depth scaling

    In the words of the specification the expected depth of a path segment
    is the number of times it occurs in the internal path times the bridge
    depth; this is the loop body of [SpadesContigBridge.init] with the
    occurrences counted in the path itself. *)
Definition scale_by_occurrences (graph : Graph.t) (graph_path : list Z)
    (depth quality : Q) (path_segment : Z) : option Q :=
  seg ← Graph.segments graph !! path_segment;
  let actual_depth := Segment.depth seg in
  let expected_depth :=
    (inject_Z (Z.of_nat (count_occ Z.eq_dec (map Z.abs graph_path) path_segment))
     * depth)%Q in
  agreement ← get_num_agreement actual_depth expected_depth;
  Some (quality * agreement)%Q.

(** ** Example inputs *)

(** A segment whose sequence has [length] bases. *)
Definition example_segment (number : Z) (depth : Q) (length : Z) : Segment.t :=
  {| Segment.number := number; Segment.depth := depth;
     Segment.get_length := length;
     Segment.get_length_no_overlap := fun overlap => length - overlap |}.

(** Segments 1 and 2 at depth 10 joined through segment 4, which the contig
    path crosses twice and whose depth is 20. *)
Definition twice_graph : Graph.t :=
  {| Graph.segments :=
       <[1 := example_segment 1 10 100]>
         (<[2 := example_segment 2 10 100]> (<[4 := example_segment 4 20 50]> ∅));
     Graph.overlap := 0;
     Graph.paths := <["NODE_1"%string := [1; 4; 4; 2]]> ∅;
     Graph.get_path_sequence := fun _ => EmptyString;
     Graph.get_connected_segments := fun s => if Z.abs s =? 4 then [1; 2; 4] else [];
     Graph.find_all_simple_loops := [] |}.

(** An alignment of a read to [ref] on the given strand ([1] or [-1]),
    leaving [ref_start_pos] bases of the reference before it and
    [ref_end_gap] after it. *)
Definition example_alignment (ref : Segment.t) (strand : Z) (raw_score scaled_score : Q)
    (read_start read_end ref_start_pos ref_end_gap : Z)
    (start_overlap end_overlap : string) : Alignment.t :=
  {| Alignment.ref := ref;
     Alignment.raw_score := raw_score;
     Alignment.scaled_score := scaled_score;
     Alignment.read_start_positive_strand := read_start;
     Alignment.read_end_positive_strand := read_end;
     Alignment.ref_start_pos := ref_start_pos;
     Alignment.ref_end_gap := ref_end_gap;
     Alignment.get_aligned_ref_length :=
       Segment.get_length ref - ref_start_pos - ref_end_gap;
     Alignment.get_signed_ref_num := strand * Segment.number ref;
     Alignment.get_start_overlapping_read_seq := start_overlap;
     Alignment.get_end_overlapping_read_seq := end_overlap |}.

(** The reverse complement of a nucleotide string, to stand for
    [misc.reverse_complement] in the examples. *)
Definition complement_base (c : ascii) : ascii :=
  if Ascii.eqb c "A" then "T"%char
  else if Ascii.eqb c "T" then "A"%char
  else if Ascii.eqb c "C" then "G"%char
  else if Ascii.eqb c "G" then "C"%char
  else c.

Definition example_reverse_complement (s : string) : string :=
  string_of_list_ascii (map complement_base (rev (list_ascii_of_string s))).

(** Three single-copy segments and no overlap between segments. *)
Definition three_segments : list Segment.t :=
  [example_segment 1 10 100; example_segment 2 10 100; example_segment 3 10 100].

Definition three_segment_graph (overlap : Z) : Graph.t :=
  {| Graph.segments :=
       <[1 := example_segment 1 10 100]>
         (<[2 := example_segment 2 10 100]> (<[3 := example_segment 3 10 100]> ∅));
     Graph.overlap := overlap;
     Graph.paths := ∅;
     Graph.get_path_sequence := fun _ => EmptyString;
     Graph.get_connected_segments := fun _ => [];
     Graph.find_all_simple_loops := [] |}.

(** A read that crosses segments 1, 2 and 3 in this order, sticks out by
    two bases on either side, and aligns worst to the segment in the
    middle. *)
Definition spanning_read : Read.t :=
  {| Read.name := "read_1";
     Read.sequence := "AACCCCGGACGTCATTTTTT";
     Read.alignments :=
       [ example_alignment (example_segment 1 10 100) 1 90 95 2 6 96 0 "AA" "";
         example_alignment (example_segment 2 10 100) 1 10 95 8 12 0 0 "" "";
         example_alignment (example_segment 3 10 100) 1 80 95 14 18 0 96 "" "TT" ] |}.

Definition spanning_read_dict : gmap string Read.t :=
  <["read_1"%string := spanning_read]> ∅.

(** A read with two alignments to segment 1 (100 bases): the better one
    covers its last 60 bases, the other one its first 48. *)
Definition wrapping_best : Alignment.t :=
  example_alignment (example_segment 1 10 100) 1 60 95 0 60 40 0 "" "".

Definition wrapping_second : Alignment.t :=
  example_alignment (example_segment 1 10 100) 1 48 90 70 118 0 52 "" "".

Definition wrapping_read : Read.t :=
  {| Read.name := "read_2";
     Read.sequence := EmptyString;
     Read.alignments := [wrapping_second; wrapping_best] |}.

(** A simple loop between segments 1 and 2 through the middle segment 4
    and the repeat segment 5, with the given depths of 4 and 5. *)
Definition loop_graph (middle_depth repeat_depth : Q) : Graph.t :=
  {| Graph.segments :=
       <[1 := example_segment 1 10 100]>
         (<[2 := example_segment 2 10 100]>
            (<[4 := example_segment 4 middle_depth 100]>
               (<[5 := example_segment 5 repeat_depth 100]> ∅)));
     Graph.overlap := 0;
     Graph.paths := <["NODE_1"%string := [1; 5; 4; 5; 2]]> ∅;
     Graph.get_path_sequence := fun _ => EmptyString;
     Graph.get_connected_segments := fun _ => [];
     Graph.find_all_simple_loops := [(1, 2, 4, 5)] |}.

(** Two single-copy segments 1 and 2 joined through segment 4 by one
    contig path. *)
Definition simple_graph : Graph.t :=
  {| Graph.segments :=
       <[1 := example_segment 1 10 100]>
         (<[2 := example_segment 2 10 100]> (<[4 := example_segment 4 10 50]> ∅));
     Graph.overlap := 0;
     Graph.paths := <["NODE_1"%string := [1; 4; 2]]> ∅;
     Graph.get_path_sequence := fun _ => EmptyString;
     Graph.get_connected_segments := fun s => if Z.abs s =? 4 then [1; 2] else [];
     Graph.find_all_simple_loops := [] |}.

(** A contig path that leaves the single-copy segment 3 and comes back to
    it on the other strand. *)
Definition hairpin_graph : Graph.t :=
  {| Graph.segments :=
       <[3 := example_segment 3 10 100]> (<[5 := example_segment 5 10 50]> ∅);
     Graph.overlap := 0;
     Graph.paths := <["NODE_1"%string := [3; 5; -3]]> ∅;
     Graph.get_path_sequence := fun _ => EmptyString;
     Graph.get_connected_segments := fun s => if Z.abs s =? 5 then [3] else [];
     Graph.find_all_simple_loops := [] |}.

(** Two contig paths, each joining two single-copy segments through a
    segment of its own. *)
Definition two_bridge_graph : Graph.t :=
  {| Graph.segments :=
       <[1 := example_segment 1 10 100]>
         (<[2 := example_segment 2 10 100]>
            (<[3 := example_segment 3 10 100]>
               (<[4 := example_segment 4 10 100]>
                  (<[5 := example_segment 5 10 50]>
                     (<[6 := example_segment 6 10 50]> ∅)))));
     Graph.overlap := 0;
     Graph.paths := <["NODE_1"%string := [1; 5; 2]]> (<["NODE_2"%string := [3; 6; 4]]> ∅);
     Graph.get_path_sequence := fun _ => EmptyString;
     Graph.get_connected_segments :=
       fun s => if Z.abs s =? 5 then [1; 2] else if Z.abs s =? 6 then [3; 4] else [];
     Graph.find_all_simple_loops := [] |}.

Definition two_bridge_segments : list Segment.t :=
  [example_segment 1 10 100; example_segment 2 10 100;
   example_segment 3 10 100; example_segment 4 10 100].

(** * Properties *)

Section ScoringFacts.
Local Open Scope Q_scope.

Lemma Qlt_bool_iff (a b : Q) : Py.Qlt_bool a b = true <-> a < b.
Proof.
  unfold Py.Qlt_bool. rewrite negb_true_iff, <- not_true_iff_false, Qle_bool_iff.
  split; [apply Qnot_le_lt | apply Qlt_not_le].
Qed.

Lemma Qlt_bool_false (a b : Q) : Py.Qlt_bool a b = false <-> b <= a.
Proof.
  unfold Py.Qlt_bool. rewrite negb_false_iff. apply Qle_bool_iff.
Qed.

Lemma div_Some (a b v : Q) : Py.div a b = Some v -> ~ b == 0 /\ v = a / b.
Proof.
  unfold Py.div. destruct (Qeq_bool b 0) eqn:E; [discriminate |].
  intros [= <-]. split; [| reflexivity].
  intros Hb. apply Qeq_bool_iff in Hb. congruence.
Qed.

Lemma div_is_Some (a b : Q) : ~ b == 0 -> Py.div a b = Some (a / b).
Proof.
  intros Hb. unfold Py.div. destruct (Qeq_bool b 0) eqn:E; [| reflexivity].
  apply Qeq_bool_iff in E. contradiction.
Qed.

Lemma div_None (a b : Q) : Py.div a b = None <-> b == 0.
Proof.
  unfold Py.div. destruct (Qeq_bool b 0) eqn:E.
  - apply Qeq_bool_iff in E. tauto.
  - split; [discriminate |]. intros Hb. apply Qeq_bool_iff in Hb. congruence.
Qed.

(** A quotient of two numbers in the right order lies between 0 and 1. *)
Lemma ratio_bounds (a b : Q) : 0 <= a -> a <= b -> 0 < b -> 0 <= a / b /\ a / b <= 1.
Proof.
  intros Ha Hab Hb. split.
  - apply Qle_shift_div_l; [assumption | lra].
  - apply Qle_shift_div_r; [assumption | lra].
Qed.

Lemma min_max_cases (a b : Q) :
  (a <= b /\ Qmin a b == a /\ Qmax a b == b) \/ (b <= a /\ Qmin a b == b /\ Qmax a b == a).
Proof.
  destruct (Qlt_le_dec b a) as [H | H].
  - right. split; [lra |]. split; [apply Q.min_r | apply Q.max_l]; lra.
  - left. split; [lra |]. split; [apply Q.min_l | apply Q.max_r]; lra.
Qed.

End ScoringFacts.
Section AgreementFacts.
Local Open Scope Q_scope.

(** The last two lines of [get_num_agreement], on its normalised arguments. *)
Lemma agreement_tail_range (a b v : Q) :
  ~ (a < 0 /\ b < 0) ->
  (if Py.Qlt_bool (a * b) 0 then Some 0 else Py.div (Qmin a b) (Qmax a b)) = Some v ->
  0 <= v /\ v <= 1.
Proof.
  intros Hneg. destruct (Py.Qlt_bool (a * b) 0) eqn:Hprod.
  - intros [= <-]. lra.
  - apply Qlt_bool_false in Hprod. intros Hdiv.
    apply div_Some in Hdiv as [Hmax ->].
    destruct (min_max_cases a b) as [(Hab & Hmin & Hmx) | (Hab & Hmin & Hmx)];
      rewrite Hmin, Hmx; rewrite Hmx in Hmax.
    + assert (0 < b) by (destruct (Qlt_le_dec 0 b); [assumption | exfalso; nra]).
      apply ratio_bounds; [nra | assumption | assumption].
    + assert (0 < a) by (destruct (Qlt_le_dec 0 a); [assumption | exfalso; nra]).
      apply ratio_bounds; [nra | assumption | assumption].
Qed.

Lemma get_num_agreement_range (num_1 num_2 v : Q) :
  get_num_agreement num_1 num_2 = Some v -> 0 <= v /\ v <= 1.
Proof.
  unfold get_num_agreement.
  destruct (Qeq_bool num_1 0 && Qeq_bool num_2 0); [intros [= <-]; lra |].
  destruct (Py.Qlt_bool num_1 0 && Py.Qlt_bool num_2 0) eqn:Hneg.
  - apply andb_true_iff in Hneg as [H1 H2].
    apply Qlt_bool_iff in H1, H2.
    apply agreement_tail_range. lra.
  - apply agreement_tail_range. intros [H1 H2].
    apply Qlt_bool_iff in H1, H2. rewrite H1, H2 in Hneg. discriminate.
Qed.

(** The function raises exactly when one argument is zero and the other
    negative. *)
Lemma get_num_agreement_None (num_1 num_2 : Q) :
  get_num_agreement num_1 num_2 = None <->
  (num_1 == 0 /\ num_2 < 0) \/ (num_1 < 0 /\ num_2 == 0).
Proof.
  unfold get_num_agreement.
  destruct (Qeq_bool num_1 0 && Qeq_bool num_2 0) eqn:Hz.
  - apply andb_true_iff in Hz as [H1 H2]. apply Qeq_bool_iff in H1, H2.
    split; [discriminate | lra].
  - assert (Hnz : ~ (num_1 == 0 /\ num_2 == 0)).
    { intros [H1 H2]. apply Qeq_bool_iff in H1, H2. rewrite H1, H2 in Hz. discriminate. }
    destruct (Py.Qlt_bool num_1 0 && Py.Qlt_bool num_2 0) eqn:Hneg.
    + apply andb_true_iff in Hneg as [H1 H2]. apply Qlt_bool_iff in H1, H2.
      destruct (Py.Qlt_bool (- num_1 * - num_2) 0) eqn:Hprod.
      * apply Qlt_bool_iff in Hprod. exfalso. nra.
      * rewrite div_None.
        destruct (min_max_cases (- num_1) (- num_2)) as [(_ & _ & ->) | (_ & _ & ->)];
          split; lra.
    + assert (Hnn : ~ (num_1 < 0 /\ num_2 < 0)).
      { intros [H1 H2]. apply Qlt_bool_iff in H1, H2. rewrite H1, H2 in Hneg. discriminate. }
      destruct (Py.Qlt_bool (num_1 * num_2) 0) eqn:Hprod.
      * apply Qlt_bool_iff in Hprod. split; [discriminate | nra].
      * apply Qlt_bool_false in Hprod. rewrite div_None.
        destruct (min_max_cases num_1 num_2) as [(Hab & _ & ->) | (Hab & _ & ->)].
        -- split; [intros Hb | intros [[H1 H2] | [H1 H2]]; lra].
           destruct (Qlt_le_dec num_1 0); [right; lra | exfalso; apply Hnz; lra].
        -- split; [intros Ha | intros [[H1 H2] | [H1 H2]]; lra].
           destruct (Qlt_le_dec num_2 0); [left; lra | exfalso; apply Hnz; lra].
Qed.

Lemma get_num_agreement_pos (num_1 num_2 : Q) :
  0 <= num_1 -> 0 < num_2 -> exists v, get_num_agreement num_1 num_2 = Some v.
Proof.
  intros H1 H2. destruct (get_num_agreement num_1 num_2) eqn:E; [eauto |].
  apply get_num_agreement_None in E. lra.
Qed.

End AgreementFacts.

(** C4.  [get_num_agreement] is meant to be total with values in [0, 1]
    and to return 0.0 when one input is negative and the other zero; on
    such a pair the guard [num_1 * num_2 < 0.0] does not fire and the
    division by [max(num_1, num_2) = 0.0] raises. *)
Theorem get_num_agreement_negative_zero_raises :
  get_num_agreement (-1) 0 = None /\ get_num_agreement 0 (-1) = None.
Proof. split; reflexivity. Qed.

(** ** Canonical order of a pair of segments *)

(** C8.  On non-zero signed segment numbers [flip_segment_order] does not
    flip two positive numbers, flips two negative ones, and with exactly
    one negative number flips exactly when its magnitude is the larger
    one; [flip_segment_order 5 (-6)] is [((6, -5), True)]; and a pair and
    its reverse complement [(-b, -a)] get the same canonical pair. *)
Theorem flip_segment_order_canonical (a b : Z) :
  a <> 0 -> b <> 0 ->
  (0 < a -> 0 < b -> flip_segment_order a b = ((a, b), false)) /\
  (a < 0 -> b < 0 -> flip_segment_order a b = ((- b, - a), true)) /\
  (a < 0 -> 0 < b ->
     flip_segment_order a b =
     if Z.abs a >? Z.abs b then ((- b, - a), true) else ((a, b), false)) /\
  (0 < a -> b < 0 ->
     flip_segment_order a b =
     if Z.abs b >? Z.abs a then ((- b, - a), true) else ((a, b), false)) /\
  flip_segment_order 5 (-6) = ((6, -5), true) /\
  fst (flip_segment_order a b) = fst (flip_segment_order (- b) (- a)).
Proof.
  intros Ha Hb. unfold flip_segment_order.
  repeat split; try (intros; reflexivity).
  - intros H1 H2.
    destruct (a >? 0) eqn:E1, (b >? 0) eqn:E2; try reflexivity; lia.
  - intros H1 H2.
    destruct (a >? 0) eqn:E1, (b >? 0) eqn:E2, (a <? 0) eqn:E3, (b <? 0) eqn:E4;
      try reflexivity; lia.
  - intros H1 H2.
    destruct (a >? 0) eqn:E1, (b >? 0) eqn:E2, (a <? 0) eqn:E3, (b <? 0) eqn:E4;
      try reflexivity; lia.
  - intros H1 H2.
    destruct (a >? 0) eqn:E1, (b >? 0) eqn:E2, (a <? 0) eqn:E3, (b <? 0) eqn:E4;
      try reflexivity; lia.
  - destruct (a >? 0) eqn:E1, (b >? 0) eqn:E2, (a <? 0) eqn:E3, (b <? 0) eqn:E4,
      (- b >? 0) eqn:E5, (- a >? 0) eqn:E6, (- b <? 0) eqn:E7, (- a <? 0) eqn:E8;
      try lia; cbn [andb];
      try (destruct (Z.abs a >? Z.abs b) eqn:E9);
      try (destruct (Z.abs b >? Z.abs a) eqn:E10);
      try (destruct (Z.abs (- a) >? Z.abs (- b)) eqn:E11);
      try (destruct (Z.abs (- b) >? Z.abs (- a)) eqn:E12);
      cbn [fst]; rewrite ?Z.opp_involutive; try reflexivity; try lia;
      f_equal; lia.
Qed.

Lemma flip_segment_order_canonical_witness :
  fst (flip_segment_order 5 (-6)) = fst (flip_segment_order 6 (-5)).
Proof.
  apply (flip_segment_order_canonical 5 (-6)); lia.
Defined.

(** ** Depth consistency of a contig bridge *)

(** Every number of [graph_path_pos_nums] occurs in it once: the list is
    made from a set. *)
Lemma count_in_pos_nums (graph_path : list Z) (x : Z) :
  x ∈ elements (list_to_set (C := gset Z) (map Z.abs graph_path)) ->
  count_occ Z.eq_dec (elements (list_to_set (C := gset Z) (map Z.abs graph_path))) x = 1%nat.
Proof.
  intros Hx. apply NoDup_count_occ'.
  - apply NoDup_ListNoDup, NoDup_elements.
  - apply list_elem_of_In, Hx.
Qed.

(** The expected depth computed by the constructor is the bridge depth
    itself, however often the segment occurs in the path. *)
Lemma scale_by_segment_once (graph : Graph.t) (graph_path : list Z)
    (depth quality : Q) (x : Z) :
  let graph_path_pos_nums := elements (list_to_set (C := gset Z) (map Z.abs graph_path)) in
  x ∈ graph_path_pos_nums ->
  SpadesContigBridge.scale_by_segment graph graph_path_pos_nums depth quality x =
  (seg ← Graph.segments graph !! x;
   agreement ← get_num_agreement (Segment.depth seg) (1 * depth);
   Some (quality * agreement)%Q).
Proof.
  intros nums Hx. unfold SpadesContigBridge.scale_by_segment.
  subst nums. rewrite count_in_pos_nums by assumption. reflexivity.
Qed.

(** C1.  The quality of a self-contained contig bridge should be scaled,
    for each distinct segment of its path, by the agreement between the
    segment's depth and (occurrences in the path) x (bridge depth).  The
    constructor counts the occurrences in the de-duplicated list, which is
    always one: on the path 1, 4, 4, 2 with segment 4 at twice the bridge
    depth the quality drops to 10, where the count in the path keeps it
    at 20. *)
Theorem contig_bridge_counts_occurrences_once :
  exists b,
    SpadesContigBridge.init twice_graph [1; 4; 4; 2] = Some b /\
    SpadesContigBridge.graph_path b = [4; 4] /\
    path_is_self_contained [4; 4] 1 2 twice_graph = true /\
    (SpadesContigBridge.depth b == 10)%Q /\
    (SpadesContigBridge.quality b == 10)%Q /\
    exists q, for_each (scale_by_occurrences twice_graph [4; 4] (SpadesContigBridge.depth b))
                       [4] 20%Q = Some q /\ (q == 20)%Q.
Proof.
  eexists. split; [vm_compute; reflexivity |].
  repeat split; try reflexivity.
  eexists. split; [vm_compute; reflexivity | reflexivity].
Qed.

(** ** Loops that cannot raise *)

Lemma for_each_invariant {A S} (P : S -> Prop) (body : S -> A -> option S) (l : list A) :
  (forall s x, P s -> x ∈ l -> exists s', body s x = Some s' /\ P s') ->
  forall s, P s -> exists s', for_each body l s = Some s' /\ P s'.
Proof.
  induction l as [| x l IH]; intros Hbody s Hs; cbn [for_each].
  - eauto.
  - destruct (Hbody s x Hs) as (s1 & -> & Hs1); [left |]. cbn.
    apply IH; [| assumption].
    intros s2 y Hs2 Hy. apply Hbody; [assumption | by right].
Qed.

Lemma for_each_app {A S} (body : S -> A -> option S) (l1 l2 : list A) (s : S) :
  for_each body (l1 ++ l2) s = (s' ← for_each body l1 s; for_each body l2 s').
Proof.
  revert s. induction l1 as [| x l1 IH]; intros s; cbn [for_each app]; [reflexivity |].
  destruct (body s x); cbn; [apply IH | reflexivity].
Qed.

Lemma append_at_ensure_key {K V} `{Countable K} (k : K) (x : V) (d : gmap K (list V)) :
  append_at k x (ensure_key k d) = Some (<[k := default [] (d !! k) ++ [x]]> d).
Proof.
  unfold append_at, ensure_key. destruct (d !! k) as [l |] eqn:E.
  - rewrite E. reflexivity.
  - rewrite lookup_insert_eq. cbn. by rewrite insert_insert_eq.
Qed.

Lemma length_insert_desc {A} (key : A -> Q) (x : A) (l : list A) :
  length (Py.insert_desc key x l) = S (length l).
Proof.
  induction l as [| y l IH]; cbn; [reflexivity |].
  destruct (Qle_bool (key y) (key x)); cbn; [reflexivity | by rewrite IH].
Qed.

Lemma length_sorted_desc {A} (key : A -> Q) (l : list A) :
  length (Py.sorted_desc key l) = length l.
Proof.
  induction l as [| x l IH]; cbn; [reflexivity |].
  fold (Py.sorted_desc key l). by rewrite length_insert_desc, IH.
Qed.

Lemma length_insert_asc {A} (key : A -> Z) (x : A) (l : list A) :
  length (Py.insert_asc key x l) = S (length l).
Proof.
  induction l as [| y l IH]; cbn; [reflexivity |].
  destruct (key x <=? key y); cbn; [reflexivity | by rewrite IH].
Qed.

Lemma length_sorted_asc {A} (key : A -> Z) (l : list A) :
  length (Py.sorted_asc key l) = length l.
Proof.
  induction l as [| x l IH]; cbn; [reflexivity |].
  fold (Py.sorted_asc key l). by rewrite length_insert_asc, IH.
Qed.

Lemma first_is_Some {A} (l : list A) : l <> [] -> is_Some (Py.first l).
Proof. destruct l; [congruence | intros _; by eexists]. Qed.

Lemma last_is_Some {A} (l : list A) : l <> [] -> is_Some (Py.last l).
Proof.
  unfold Py.last. induction l as [| x [| y l] IH]; [congruence | by eexists |].
  intros _. apply IH. congruence.
Qed.

Lemma last_snoc {A} (l : list A) (x : A) : Py.last (l ++ [x]) = Some x.
Proof.
  unfold Py.last. rewrite map_app. cbn. apply last_last.
Qed.

(** *** Selecting the alignments of a read *)

Lemma group_alignment_nonempty (single_copy_num_set : gset Z) (min_scaled_score : Q)
    (sc_alignments : gmap Z (list Alignment.t)) (alignment : Alignment.t) :
  map_Forall (fun _ l => l <> []) sc_alignments ->
  exists sc', group_alignment single_copy_num_set min_scaled_score sc_alignments alignment
              = Some sc'
              /\ map_Forall (fun _ l => l <> []) sc'.
Proof.
  intros Hne. unfold group_alignment.
  destruct (bool_decide _); [eauto |].
  destruct (Py.Qlt_bool _ _); [eauto |].
  rewrite append_at_ensure_key. eexists. split; [reflexivity |].
  apply map_Forall_insert_2; [| assumption].
  destruct (default [] _); discriminate.
Qed.

Lemma select_alignments_is_Some (allowed : Q) (final_alignments alignments : list Alignment.t) :
  alignments <> [] -> is_Some (select_alignments allowed final_alignments alignments).
Proof.
  intros Hne. unfold select_alignments.
  pose proof (length_sorted_desc Alignment.scaled_score alignments) as Hlen.
  destruct (Py.sorted_desc Alignment.scaled_score alignments) as [| best [| second rest]];
    cbn in *.
  - destruct alignments; [congruence | discriminate].
  - by eexists.
  - repeat match goal with |- context [if ?c then _ else _] => destruct c end; by eexists.
Qed.

Lemma get_single_copy_alignments_is_Some (read : Read.t) (single_copy_num_set : gset Z)
    (allowed : Q) (min_scaled_score : Q) :
  is_Some (get_single_copy_alignments read single_copy_num_set allowed min_scaled_score).
Proof.
  unfold get_single_copy_alignments.
  destruct (for_each_invariant (fun sc => map_Forall (fun _ l => l <> []) sc)
              (group_alignment single_copy_num_set min_scaled_score)
              (Read.alignments read)) with (s := (∅ : gmap Z (list Alignment.t)))
    as (sc & -> & Hsc).
  - intros s x Hs _. by apply group_alignment_nonempty.
  - apply map_Forall_empty.
  - cbn.
    destruct (for_each_invariant (fun _ => True) (select_alignments allowed)
                (itervalues sc)) with (s := @nil Alignment.t) as (fin & -> & _);
      [| exact I | by eexists].
    intros s x _ Hx.
    destruct (select_alignments_is_Some allowed s x) as [s' Hs']; [| eauto].
    unfold itervalues in Hx. apply list_elem_of_fmap in Hx as ([k l] & -> & Hkl).
    apply elem_of_map_to_list in Hkl. by apply (Hsc k).
Qed.

(** *** The loop over the alignments of one read *)

Section LongReadFacts.
Variable reverse_complement : string -> string.

Lemma add_pair_is_Some (read : Read.t) (st : spanning_t * gset (Z * Z))
    (pair : Alignment.t * Alignment.t) :
  is_Some (add_pair reverse_complement read st pair).
Proof.
  unfold add_pair. destruct st as [sp added], pair as [a1 a2].
  destruct (flip_segment_order _ _) as [seg_nums flipped].
  destruct (bool_decide _); [| by eexists].
  rewrite append_at_ensure_key. by eexists.
Qed.

Lemma length_available_after (available l : list Alignment.t) :
  length (available_after available l) = (length available + length l)%nat.
Proof.
  revert available. induction l as [| x l IH]; intros available; cbn.
  - lia.
  - unfold available_after in IH. rewrite IH, length_sorted_asc, length_app. cbn. lia.
Qed.

Lemma add_alignment_eq (read : Read.t) (sp : spanning_t) (added : gset (Z * Z))
    (available : list Alignment.t) (alignment : option Alignment.t) (x : Alignment.t) :
  add_alignment reverse_complement read (sp, added, available, alignment) x =
  let available' :=
    Py.sorted_asc Alignment.read_start_positive_strand (available ++ [x]) in
  '(sp', added') ←
    for_each (add_pair reverse_complement read) (adjacent_pairs available') (sp, added);
  Some (sp', added', available', Some x).
Proof. reflexivity. Qed.

(** The loop cannot raise; it leaves in [alignment] the last element of the
    list it ran over, that is the alignment with the lowest raw score. *)
Lemma for_each_add_alignment (read : Read.t) (l : list Alignment.t)
    (sp : spanning_t) (added : gset (Z * Z)) (available : list Alignment.t)
    (alignment : option Alignment.t) :
  exists sp' added',
    for_each (add_alignment reverse_complement read) l (sp, added, available, alignment)
    = Some (sp', added', available_after available l,
            if bool_decide (l = []) then alignment else Py.last l).
Proof.
  revert sp added available alignment.
  induction l as [| x l IH]; intros sp added available alignment; cbn [for_each].
  - eauto.
  - rewrite add_alignment_eq. cbv zeta.
    destruct (for_each_invariant (fun _ => True) (add_pair reverse_complement read)
                (adjacent_pairs (Py.sorted_asc Alignment.read_start_positive_strand
                                               (available ++ [x]))))
      with (s := (sp, added)) as ([sp1 added1] & -> & _); [| exact I |].
    { intros s p _ _. destruct (add_pair_is_Some read s p) as [s' ->]. eauto. }
    cbn. destruct (IH sp1 added1
                     (Py.sorted_asc Alignment.read_start_positive_strand (available ++ [x]))
                     (Some x)) as (sp' & added' & ->).
    exists sp', added'. do 2 f_equal.
    destruct l as [| y l]; [reflexivity |].
    rewrite !bool_decide_eq_false_2 by discriminate. reflexivity.
Qed.

Lemma process_read_is_Some (read_dict : gmap string Read.t) (single_copy : gset Z)
    (allowed min_scaled_score : Q) (st : spanning_t * gmap Z (list string))
    (read_name : string) :
  is_Some (read_dict !! read_name) ->
  is_Some (process_read reverse_complement read_dict single_copy allowed min_scaled_score
                        st read_name).
Proof.
  intros [read Hread]. unfold process_read. destruct st as [sp ov]. rewrite Hread. cbn.
  destruct (get_single_copy_alignments_is_Some read single_copy allowed min_scaled_score)
    as [alignments ->]. cbn.
  destruct (bool_decide (alignments = [])) eqn:Hempty; [by eexists |].
  apply bool_decide_eq_false in Hempty.
  set (sorted_alignments := Py.sorted_desc Alignment.raw_score alignments).
  assert (Hsorted : sorted_alignments <> []).
  { intros E. apply (f_equal length) in E. subst sorted_alignments.
    rewrite length_sorted_desc in E. destruct alignments; [congruence | discriminate]. }
  destruct (for_each_add_alignment read sorted_alignments sp ∅ [] (Py.last alignments))
    as (sp' & added' & ->). cbn.
  rewrite bool_decide_eq_false_2 by assumption.
  assert (Havail : available_after [] sorted_alignments <> []).
  { intros E. apply (f_equal length) in E. rewrite length_available_after in E.
    destruct sorted_alignments; [congruence | discriminate]. }
  destruct (first_is_Some _ Havail) as [first_alignment ->].
  destruct (last_is_Some _ Havail) as [last_alignment ->].
  destruct (last_is_Some _ Hsorted) as [alignment ->]. cbn.
  destruct (bool_decide (Alignment.get_start_overlapping_read_seq first_alignment ≠ _));
    cbn; rewrite ?append_at_ensure_key; cbn;
    (destruct (bool_decide (Alignment.get_end_overlapping_read_seq last_alignment ≠ _));
     cbn; rewrite ?append_at_ensure_key; cbn; by eexists).
Qed.

End LongReadFacts.

(** C10.  [create_long_read_bridges] builds no long read bridge: whenever
    it returns, the list it returns is empty, and it does return whenever
    every read name is a key of the read dictionary.  This is so even when
    spanning read sequences have been collected, as for the three pairs of
    segments of the example read. *)
Theorem create_long_read_bridges_empty (reverse_complement : string -> string)
    (graph : Graph.t) (read_dict : gmap string Read.t) (read_names : list string)
    (single_copy_segments : list Segment.t) (verbosity : Z)
    (existing_bridges : list Bridge) (min_scaled_score : Q) :
  (forall bridges,
      create_long_read_bridges reverse_complement graph read_dict read_names
        single_copy_segments verbosity existing_bridges min_scaled_score = Some bridges ->
      bridges = []) /\
  ((forall read_name, read_name ∈ read_names -> is_Some (read_dict !! read_name)) ->
   create_long_read_bridges reverse_complement graph read_dict read_names
     single_copy_segments verbosity existing_bridges min_scaled_score = Some []) /\
  (exists spanning overlapping,
      collect_read_seqs reverse_complement (three_segment_graph 0) spanning_read_dict
        ["read_1"%string] three_segments 50%Q = Some (spanning, overlapping) /\
      size spanning = 3%nat /\
      create_long_read_bridges reverse_complement (three_segment_graph 0)
        spanning_read_dict ["read_1"%string] three_segments verbosity existing_bridges
        50%Q = Some []).
Proof.
  unfold create_long_read_bridges, collect_read_seqs. split; [| split].
  3: { eexists _, _. split; [vm_compute; reflexivity |].
       split; vm_compute; reflexivity. }
  - intros bridges. destruct (for_each _ _ _); cbn; congruence.
  - intros Hnames.
    match goal with |- context [for_each ?body ?l ?s0] =>
      destruct (fun Hbody => for_each_invariant (fun _ => True) body l Hbody s0 I)
        as (st & -> & _)
    end; [| reflexivity].
    intros s x _ Hx.
    destruct (process_read_is_Some reverse_complement read_dict
                (fold_left (fun s seg => {[Segment.number seg]} ∪ s) single_copy_segments ∅)
                (allowed_overlap graph) min_scaled_score s x (Hnames x Hx)) as [s' ->].
    eauto.
Qed.

Lemma create_long_read_bridges_empty_witness :
  (forall read_name, read_name ∈ ["read_1"%string] ->
                     is_Some (spanning_read_dict !! read_name)) /\
  create_long_read_bridges example_reverse_complement (three_segment_graph 0)
    spanning_read_dict ["read_1"%string] three_segments 0 [] 50%Q = Some [].
Proof.
  assert (H : forall read_name, read_name ∈ ["read_1"%string] ->
                                is_Some (spanning_read_dict !! read_name)).
  { intros read_name Hin. apply list_elem_of_singleton in Hin as ->.
    exists spanning_read. reflexivity. }
  split; [exact H |].
  apply (proj1 (proj2 (create_long_read_bridges_empty example_reverse_complement
                         (three_segment_graph 0) spanning_read_dict ["read_1"%string]
                         three_segments 0 [] 50%Q))), H.
Defined.

(** The claim as the specification has it, an empty list for every input,
    fails on a read name that is not a key of the read dictionary:
    [read_dict[read_name]] raises [KeyError] and nothing is returned, here
    after the first read has been processed. *)
Lemma create_long_read_bridges_unknown_read :
  spanning_read_dict !! "read_2"%string = None /\
  create_long_read_bridges example_reverse_complement (three_segment_graph 0)
    spanning_read_dict ["read_1"%string; "read_2"%string] three_segments 0 [] 50%Q = None.
Proof. split; vm_compute; reflexivity. Qed.

(** ** Overlap sequences of a read *)

(** C9.  The bases of a read before its first alignment should be filed
    under minus the signed reference of that FIRST alignment, and the bases
    after its last alignment under the signed reference of that LAST
    alignment.  The collector takes both keys from the loop variable
    [alignment], which holds the alignment of lowest raw score: on a read
    crossing segments 1, 2, 3 with its weakest alignment on 2 the two
    sequences are filed under -2 and 2, and nothing under -1 and 3. *)
Theorem overlap_keys_come_from_weakest_alignment (reverse_complement : string -> string) :
  exists spanning overlapping,
    collect_read_seqs reverse_complement (three_segment_graph 0) spanning_read_dict
      ["read_1"%string] three_segments 50%Q = Some (spanning, overlapping) /\
    overlapping !! (-2) = Some [reverse_complement "AA"%string] /\
    overlapping !! 2 = Some ["TT"%string] /\
    overlapping !! (-1) = None /\
    overlapping !! 3 = None.
Proof.
  eexists _, _. split; [vm_compute; reflexivity |].
  repeat split; vm_compute; reflexivity.
Qed.

(** ** Alignments kept for a read *)

(** C7.  A second alignment to a reference should be kept when the two
    aligned lengths add up to at most the segment length plus
    [round(1.1 * graph.overlap)].  The collector computes
    [round(int(1.1 * graph.overlap))], which truncates before rounding:
    with an overlap of 7 it allows 7 bases where rounding 7.7 gives 8, and
    a second alignment that exceeds the segment length by exactly 8 is
    dropped. *)
Theorem allowed_overlap_is_truncated :
  (allowed_overlap (three_segment_graph 7) == 7)%Q /\
  Py.round ((11 # 10) * 7) = 8 /\
  Alignment.get_aligned_ref_length wrapping_best
  + Alignment.get_aligned_ref_length wrapping_second = 100 + 8 /\
  get_single_copy_alignments wrapping_read {[ 1 ]}
    (allowed_overlap (three_segment_graph 7)) 50 = Some [wrapping_best] /\
  get_single_copy_alignments wrapping_read {[ 1 ]} 8 50
  = Some [wrapping_best; wrapping_second].
Proof.
  repeat split; vm_compute; reflexivity.
Qed.

(** ** Unrolling a simple loop *)

(** Inversion of a chain of [option] binds that is known to succeed. *)
Ltac bind_inversion H :=
  repeat match type of H with
         | (?e ≫= _) = Some _ =>
             let E := fresh "E" in
             destruct e eqn:E; cbn [mbind option_bind] in H; [| discriminate H]
         end.



Lemma loop_count_and_closeness_high (e : Q) :
  (1 <= e)%Q ->
  LoopUnrollingBridge.loop_count_and_closeness e =
  (Py.round e, (1 - 2 * Qmin (Py.mod1 e) (1 - Py.mod1 e))%Q).
Proof.
  intros He. unfold LoopUnrollingBridge.loop_count_and_closeness.
  apply Qlt_bool_false in He. by rewrite He.
Qed.



(** ** De-duplication of the contig bridge paths *)

Lemma reverse_complement_path_involutive (path : list Z) :
  reverse_complement_path (reverse_complement_path path) = path.
Proof.
  unfold reverse_complement_path.
  rewrite <- map_rev, rev_involutive, map_map.
  rewrite <- (map_id path) at 2. apply map_ext. intros x. lia.
Qed.

Lemma first_reverse_complement_path (path : list Z) :
  Py.first (reverse_complement_path path) = Z.opp <$> Py.last path.
Proof.
  unfold Py.first, Py.last, reverse_complement_path.
  induction path as [| x path IH] using rev_ind; [reflexivity |].
  rewrite rev_unit, map_app. cbn [map]. rewrite last_last. reflexivity.
Qed.

Lemma last_reverse_complement_path (path : list Z) :
  Py.last (reverse_complement_path path) = Z.opp <$> Py.first path.
Proof.
  rewrite <- (reverse_complement_path_involutive path) at 2.
  rewrite first_reverse_complement_path.
  destruct (Py.last (reverse_complement_path path)); cbn; [f_equal; lia | reflexivity].
Qed.

Lemma both_negative_reverse_complement (path : list Z) :
  both_negative path -> ~ both_negative (reverse_complement_path path).
Proof.
  intros (a & b & Ha & Hb & Ha0 & Hb0) (a' & b' & Ha' & Hb' & Ha0' & Hb0').
  rewrite first_reverse_complement_path, Hb in Ha'. cbn in Ha'. injection Ha' as <-. lia.
Qed.

Lemma add_contig_bridge_spec (bridge_path_set : gset (list Z)) (contig_bridge : list Z) :
  contig_bridge <> [] ->
  canonical_set bridge_path_set ->
  exists stored,
    add_contig_bridge bridge_path_set contig_bridge = Some (stored ∪ bridge_path_set) /\
    (stored = ∅ \/ stored = {[ contig_bridge ]}
     \/ stored = {[ reverse_complement_path contig_bridge ]}) /\
    (contig_bridge ∈ stored ∪ bridge_path_set
     \/ reverse_complement_path contig_bridge ∈ stored ∪ bridge_path_set) /\
    canonical_set (stored ∪ bridge_path_set).
Proof.
  intros Hne [Hpair Hends]. unfold add_contig_bridge.
  destruct (first_is_Some contig_bridge Hne) as [a Ha].
  destruct (last_is_Some contig_bridge Hne) as [b Hb].
  rewrite Ha, Hb. cbn [mbind option_bind].
  destruct (bool_decide (contig_bridge ∉ bridge_path_set)) eqn:H1; cbn [andb].
  2: { apply bool_decide_eq_false in H1. apply dec_stable in H1.
       exists ∅. rewrite (left_id_L ∅ (∪)).
       repeat split; auto. }
  destruct (bool_decide (reverse_complement_path contig_bridge ∉ bridge_path_set)) eqn:H2.
  2: { apply bool_decide_eq_false in H2. apply dec_stable in H2.
       exists ∅. rewrite (left_id_L ∅ (∪)).
       repeat split; auto. }
  apply bool_decide_eq_true in H1, H2.
  destruct ((a <? 0) && (b <? 0)) eqn:Hneg.
  - apply andb_true_iff in Hneg as [Ha0 Hb0]. apply Z.ltb_lt in Ha0, Hb0.
    exists {[ reverse_complement_path contig_bridge ]}.
    split; [reflexivity |]. split; [auto |]. split; [right; set_solver |].
    split.
    + intros p Hp Hrc.
      apply elem_of_union in Hp as [Hp | Hp], Hrc as [Hrc | Hrc];
        rewrite ?elem_of_singleton in *.
      * subst p. by rewrite reverse_complement_path_involutive in *.
      * subst p. by rewrite reverse_complement_path_involutive in Hrc.
      * apply (f_equal reverse_complement_path) in Hrc.
        rewrite !reverse_complement_path_involutive in Hrc. by subst p.
      * by apply Hpair.
    + intros p Hp. apply elem_of_union in Hp as [Hp | Hp]; [| by apply Hends].
      apply elem_of_singleton in Hp as ->.
      apply both_negative_reverse_complement. by exists a, b.
  - exists {[ contig_bridge ]}.
    split; [reflexivity |]. split; [auto |]. split; [left; set_solver |].
    split.
    + intros p Hp Hrc.
      apply elem_of_union in Hp as [Hp | Hp], Hrc as [Hrc | Hrc];
        rewrite ?elem_of_singleton in *.
      * by subst p.
      * by subst p.
      * apply (f_equal reverse_complement_path) in Hrc.
        rewrite reverse_complement_path_involutive in Hrc. by subst p.
      * by apply Hpair.
    + intros p Hp. apply elem_of_union in Hp as [Hp | Hp]; [| by apply Hends].
      apply elem_of_singleton in Hp as ->.
      intros (a' & b' & Ha' & Hb' & Ha0 & Hb0).
      rewrite Ha in Ha'. rewrite Hb in Hb'. injection Ha' as <-. injection Hb' as <-.
      apply andb_false_iff in Hneg as [Hneg | Hneg]; apply Z.ltb_ge in Hneg; lia.
Qed.

Lemma for_each_add_contig_bridge (candidates : list (list Z)) (bridge_path_set : gset (list Z)) :
  Forall (fun c => c <> []) candidates ->
  canonical_set bridge_path_set ->
  exists final,
    for_each add_contig_bridge candidates bridge_path_set = Some final /\
    canonical_set final /\
    bridge_path_set ⊆ final /\
    (forall c, c ∈ candidates -> c ∈ final \/ reverse_complement_path c ∈ final) /\
    (forall p, p ∈ final ->
               p ∈ bridge_path_set \/ p ∈ candidates \/ reverse_complement_path p ∈ candidates).
Proof.
  intros Hne. revert bridge_path_set.
  induction Hne as [| c candidates Hc Hne IH]; intros bridge_path_set Hcanon.
  - exists bridge_path_set. cbn. repeat split; try apply Hcanon; auto.
    intros c Hc. by apply elem_of_nil in Hc.
  - destruct (add_contig_bridge_spec bridge_path_set c Hc Hcanon)
      as (stored & Hadd & Hstored & Hin & Hcanon1).
    destruct (IH _ Hcanon1) as (final & Hfinal & Hcanon2 & Hsub & Hcover & Horigin).
    exists final. cbn [for_each]. rewrite Hadd. cbn [mbind option_bind].
    split; [assumption |]. split; [assumption |].
    split; [intros p Hp; apply Hsub, elem_of_union; by right |]. split.
    + intros c' Hc'. apply elem_of_cons in Hc' as [-> | Hc']; [| by apply Hcover].
      destruct Hin as [Hin | Hin]; [left | right]; by apply Hsub.
    + intros p Hp. destruct (Horigin p Hp) as [Hp1 | [Hp1 | Hp1]].
      * apply elem_of_union in Hp1 as [Hp1 | Hp1]; [| by left].
        right. destruct Hstored as [-> | [-> | ->]].
        -- by apply elem_of_empty in Hp1.
        -- apply elem_of_singleton in Hp1 as ->. left. by left.
        -- apply elem_of_singleton in Hp1 as ->. right.
           rewrite reverse_complement_path_involutive. by left.
      * right. left. by right.
      * right. right. by right.
Qed.

(** C6.  De-duplication does not depend on the orientation in which a
    bridge path is met: whatever the order of the candidates, each
    candidate ends up stored either as it is or as its reverse complement
    and never as both, and no stored path has a negative first element
    together with a negative last element; [3, -5, 7] and [-7, 5, -3] leave
    the one path [3, -5, 7] in either order. *)
Theorem contig_bridge_dedup_orientation (candidates : list (list Z)) :
  Forall (fun c => c <> []) candidates ->
  exists bridge_path_set,
    for_each add_contig_bridge candidates ∅ = Some bridge_path_set /\
    (forall c, c ∈ candidates ->
       (c ∈ bridge_path_set \/ reverse_complement_path c ∈ bridge_path_set) /\
       (c ∈ bridge_path_set -> reverse_complement_path c ∈ bridge_path_set ->
        c = reverse_complement_path c)) /\
    (forall p, p ∈ bridge_path_set ->
       ~ both_negative p /\ (p ∈ candidates \/ reverse_complement_path p ∈ candidates)) /\
    elements <$> for_each add_contig_bridge [[3; -5; 7]; [-7; 5; -3]] ∅
      = Some [[3; -5; 7]] /\
    elements <$> for_each add_contig_bridge [[-7; 5; -3]; [3; -5; 7]] ∅
      = Some [[3; -5; 7]].
Proof.
  intros Hne.
  destruct (for_each_add_contig_bridge candidates ∅ Hne)
    as (final & Hfinal & [Hpair Hends] & _ & Hcover & Horigin).
  { split; intros p Hp; by apply elem_of_empty in Hp. }
  exists final. split; [assumption |]. split; [| split; [| split]].
  - intros c Hc. split; [by apply Hcover | by apply Hpair].
  - intros p Hp. split; [by apply Hends |].
    destruct (Horigin p Hp) as [H | H]; [by apply elem_of_empty in H | assumption].
  - vm_compute. reflexivity.
  - vm_compute. reflexivity.
Qed.

Lemma contig_bridge_dedup_orientation_witness :
  Forall (fun c : list Z => c <> []) [[-7; 5; -3]; [3; -5; 7]] /\
  exists bridge_path_set,
    for_each add_contig_bridge [[-7; 5; -3]; [3; -5; 7]] ∅ = Some bridge_path_set /\
    forall p, p ∈ bridge_path_set -> ~ both_negative p.
Proof.
  assert (Hne : Forall (fun c : list Z => c <> []) [[-7; 5; -3]; [3; -5; 7]]).
  { repeat constructor; discriminate. }
  split; [exact Hne |].
  destruct (contig_bridge_dedup_orientation _ Hne) as (s & Hs & _ & Hends & _).
  exists s. split; [exact Hs |]. intros p Hp. apply (Hends p Hp).
Defined.

(** ** Bounds on the quality of a bridge *)

Section QualityFacts.
Local Open Scope Q_scope.

Lemma for_each_preserves {A S} (P : S -> Prop) (body : S -> A -> option S) (l : list A) :
  (forall s x s', x ∈ l -> P s -> body s x = Some s' -> P s') ->
  forall s s', P s -> for_each body l s = Some s' -> P s'.
Proof.
  induction l as [| x l IH]; intros Hbody s s' Hs Hrun; cbn [for_each] in Hrun.
  - by injection Hrun as <-.
  - destruct (body s x) as [s1 |] eqn:E; [| discriminate].
    cbn in Hrun. apply (IH (fun s x s' Hx => Hbody s x s' (list_elem_of_further _ _ _ Hx)) s1);
      [| assumption].
    apply (Hbody s x); [by left | assumption | assumption].
Qed.

Lemma scale_by_segment_bounds (graph : Graph.t) (nums : list Z) (depth q q' : Q) (x : Z) :
  0 <= q /\ q <= 20 ->
  SpadesContigBridge.scale_by_segment graph nums depth q x = Some q' ->
  0 <= q' /\ q' <= 20.
Proof.
  intros Hq Hstep. unfold SpadesContigBridge.scale_by_segment in Hstep.
  bind_inversion Hstep. injection Hstep as <-.
  apply get_num_agreement_range in E0. nra.
Qed.

Lemma mod1_bounds (x : Q) : 0 <= Py.mod1 x /\ Py.mod1 x < 1.
Proof.
  unfold Py.mod1. pose proof (Qfloor_le x). pose proof (Qlt_floor x).
  rewrite inject_Z_plus in *. change (inject_Z 1) with 1 in *. lra.
Qed.

Lemma round_ge_1 (x : Q) : 1 <= x -> (1 <= Py.round x)%Z.
Proof.
  intros Hx. unfold Py.round.
  destruct (Py.Qlt_bool x 0) eqn:E; [apply Qlt_bool_iff in E; exfalso; lra |].
  apply (Z.le_trans _ (Qfloor 1)); [reflexivity | apply Qfloor_resp_le; lra].
Qed.

Lemma loop_count_and_closeness_bounds (e : Q) (loop_count : Z) (closeness : Q) :
  LoopUnrollingBridge.loop_count_and_closeness e = (loop_count, closeness) ->
  (1 <= loop_count)%Z /\ closeness <= 1 /\ (0 <= e -> 0 <= closeness).
Proof.
  unfold LoopUnrollingBridge.loop_count_and_closeness.
  destruct (Py.Qlt_bool e 1) eqn:He.
  - apply Qlt_bool_iff in He. intros [= <- <-]. repeat split; [lia | lra | auto].
  - apply Qlt_bool_false in He. intros [= <- <-].
    pose proof (mod1_bounds e) as [Hlo Hhi].
    split; [by apply round_ge_1 |].
    destruct (min_max_cases (Py.mod1 e) (1 - Py.mod1 e)) as [(Hle & -> & _) | (Hle & -> & _)];
      split; intros; lra.
Qed.

End QualityFacts.

Lemma Q2R_nonneg (q : Q) : (0 <= q)%Q -> (0 <= Q2R q)%R.
Proof. intros H. apply Qle_Rle in H. by rewrite RMicromega.Q2R_0 in H. Qed.

Lemma Q2R_le_const (q c : Q) : (q <= c)%Q -> (Q2R q <= Q2R c)%R.
Proof. apply Qle_Rle. Qed.

(** The penalty [(1 / loop_count) ** 0.5] of a positive loop count lies in
    (0, 1]. *)
Lemma loop_count_penalty_bounds (loop_count : Z) :
  1 <= loop_count ->
  (0 < sqrt (Q2R (1 / inject_Z loop_count)) <= 1)%R.
Proof.
  intros Hlc.
  assert (Hq : (0 < 1 / inject_Z loop_count /\ 1 / inject_Z loop_count <= 1)%Q).
  { assert (H1 : (1 <= inject_Z loop_count)%Q).
    { change 1%Q with (inject_Z 1). rewrite <- Zle_Qle. lia. }
    split.
    - apply Qlt_shift_div_l; lra.
    - apply Qle_shift_div_r; lra. }
  destruct Hq as [Hpos Hle].
  apply Qlt_Rlt in Hpos. apply Qle_Rle in Hle.
  rewrite RMicromega.Q2R_0 in Hpos. rewrite RMicromega.Q2R_1 in Hle.
  split.
  - by apply sqrt_lt_R0.
  - rewrite <- sqrt_1. apply sqrt_le_1_alt. exact Hle.
Qed.

Lemma contig_bridge_quality_bounds (graph : Graph.t) (path : list Z)
    (b : SpadesContigBridge.t) :
  SpadesContigBridge.init graph path = Some b ->
  (0 <= SpadesContigBridge.quality b /\ SpadesContigBridge.quality b <= 20)%Q.
Proof.
  intros Hinit. unfold SpadesContigBridge.init in Hinit.
  destruct path as [| start_segment rest]; [discriminate |].
  bind_inversion Hinit. destruct p as [graph_path end_segment].
  bind_inversion Hinit. injection Hinit as <-. cbn.
  apply get_num_agreement_range in E2.
  assert (Hbase : (0 <= 20 * (q * q) /\ 20 * (q * q) <= 20)%Q) by nra.
  destruct (path_is_self_contained graph_path start_segment end_segment graph).
  - apply (for_each_preserves (fun s => (0 <= s /\ s <= 20)%Q) _ _
             (fun s x s' _ => scale_by_segment_bounds graph _ q0 s s' x) _ _ Hbase E4).
  - by injection E4 as <-.
Qed.

Lemma loop_bridge_quality_bounds (graph : Graph.t) (start end_ middle repeat_ : Z)
    (b : LoopUnrollingBridge.t) :
  LoopUnrollingBridge.init graph start end_ middle repeat_ = Some b ->
  (LoopUnrollingBridge.quality b <= 10)%R /\
  forall middle_seg repeat_seg e,
    Graph.segments graph !! Z.abs middle = Some middle_seg ->
    Graph.segments graph !! Z.abs repeat_ = Some repeat_seg ->
    LoopUnrollingBridge.mean_loop_count graph (LoopUnrollingBridge.depth b)
      middle_seg repeat_seg = Some e ->
    (0 <= e)%Q -> (0 <= LoopUnrollingBridge.quality b)%R.
Proof.
  intros Hinit. unfold LoopUnrollingBridge.init in Hinit.
  bind_inversion Hinit.
  destruct (LoopUnrollingBridge.loop_count_and_closeness q1) as [loop_count closeness] eqn:Hlc.
  bind_inversion Hinit. injection Hinit as <-. cbn.
  apply div_Some in E6 as [_ ->].
  apply get_num_agreement_range in E3.
  apply loop_count_and_closeness_bounds in Hlc as (Hcount & Hclose & Hnonneg).
  pose proof (loop_count_penalty_bounds loop_count Hcount) as [Hpen0 Hpen1].
  set (penalty := sqrt (Q2R (1 / inject_Z loop_count))) in *.
  assert (Hsq : (0 <= 10 * (q * q) /\ 10 * (q * q) <= 10)%Q) by nra.
  split.
  - destruct (Qlt_le_dec closeness 0) as [Hneg | Hpos].
    + assert (Hq : (10 * (q * q) * closeness <= 0)%Q) by nra.
      apply Qle_Rle in Hq. rewrite RMicromega.Q2R_0 in Hq. nra.
    + assert (Hq : (0 <= 10 * (q * q) * closeness /\ 10 * (q * q) * closeness <= 10)%Q) by nra.
      destruct Hq as [Hq0 Hq1]. apply Qle_Rle in Hq0, Hq1.
      rewrite RMicromega.Q2R_0 in Hq0.
      replace (Q2R 10) with 10%R in Hq1 by (unfold Q2R; cbn; lra). nra.
  - intros middle_seg repeat_seg e Hm Hr He He0.
    injection Hm as <-. injection Hr as <-. rewrite E5 in He. injection He as <-.
    assert (Hq : (0 <= 10 * (q * q) * closeness)%Q) by (specialize (Hnonneg He0); nra).
    apply Qle_Rle in Hq. rewrite RMicromega.Q2R_0 in Hq. nra.
Qed.

(** C2.  The quality of a bridge never exceeds the base value of its
    class (20 for a contig bridge, 10 for a loop unrolling bridge, 1 for a
    long read bridge), and the quality of a contig or long read bridge is
    not negative.  The quality of a loop unrolling bridge is not negative
    when the mean loop count is not: below 1 the mean loop count is itself
    the factor the quality is multiplied by. *)
Theorem bridge_quality_bounds (graph : Graph.t) :
  (forall path b,
      SpadesContigBridge.init graph path = Some b ->
      (0 <= SpadesContigBridge.quality b /\ SpadesContigBridge.quality b <= 20)%Q) /\
  (forall spades_contig_path graph',
      (LongReadBridge.quality (LongReadBridge.init spades_contig_path graph') == 1)%Q) /\
  (forall start end_ middle repeat_ b,
      LoopUnrollingBridge.init graph start end_ middle repeat_ = Some b ->
      (LoopUnrollingBridge.quality b <= 10)%R /\
      forall middle_seg repeat_seg e,
        Graph.segments graph !! Z.abs middle = Some middle_seg ->
        Graph.segments graph !! Z.abs repeat_ = Some repeat_seg ->
        LoopUnrollingBridge.mean_loop_count graph (LoopUnrollingBridge.depth b)
          middle_seg repeat_seg = Some e ->
        (0 <= e)%Q -> (0 <= LoopUnrollingBridge.quality b)%R).
Proof.
  split; [| split].
  - apply contig_bridge_quality_bounds.
  - reflexivity.
  - apply loop_bridge_quality_bounds.
Qed.

Lemma bridge_quality_bounds_witness :
  (exists b,
      SpadesContigBridge.init twice_graph [1; 4; 4; 2] = Some b /\
      (0 <= SpadesContigBridge.quality b /\ SpadesContigBridge.quality b <= 20)%Q) /\
  (exists b,
      LoopUnrollingBridge.init (loop_graph 25 35) 1 2 4 5 = Some b /\
      (LoopUnrollingBridge.quality b <= 10)%R).
Proof.
  split.
  - eexists. split; [vm_compute; reflexivity |].
    apply (proj1 (bridge_quality_bounds twice_graph) [1; 4; 4; 2]).
    vm_compute. reflexivity.
  - eexists. split; [reflexivity |].
    apply (proj2 (proj2 (bridge_quality_bounds (loop_graph 25 35))) 1 2 4 5).
    reflexivity.
Defined.

(** The claim as the specification has it fails for a loop whose middle
    and repeat segments are shallower than the segments it joins: the
    mean loop count is -0.4 and so is the closeness, which makes the
    quality negative. *)
Lemma loop_bridge_quality_negative :
  exists start_seg end_seg b,
    Graph.segments (loop_graph 1 1) !! 1 = Some start_seg /\
    Graph.segments (loop_graph 1 1) !! 2 = Some end_seg /\
    (0 < Segment.depth start_seg)%Q /\ (0 < Segment.depth end_seg)%Q /\
    0 < Segment.get_length_no_overlap start_seg (Graph.overlap (loop_graph 1 1)) /\
    0 < Segment.get_length_no_overlap end_seg (Graph.overlap (loop_graph 1 1)) /\
    LoopUnrollingBridge.init (loop_graph 1 1) 1 2 4 5 = Some b /\
    (LoopUnrollingBridge.quality b < 0)%R.
Proof.
  eexists _, _, _.
  split; [reflexivity |]. split; [reflexivity |].
  split; [reflexivity |]. split; [reflexivity |].
  split; [reflexivity |]. split; [reflexivity |].
  split; [reflexivity |].
  cbn [LoopUnrollingBridge.quality].
  match goal with |- (Q2R ?q * sqrt (Q2R ?r) < 0)%R =>
    assert (Hq : (q == (-4) # 1)%Q) by reflexivity;
    assert (Hr : (r == 1)%Q) by reflexivity
  end.
  apply Qeq_eqR in Hq, Hr. rewrite Hq, Hr.
  rewrite RMicromega.Q2R_1, sqrt_1. unfold Q2R. cbn [Qnum Qden]. lra.
Qed.

(** ** Conflicts between contig bridge paths *)

Lemma group_of_ensure_key {V} (k0 k : Z) (d : gmap Z (list V)) :
  group_of (ensure_key k0 d) k = group_of d k.
Proof.
  unfold group_of, ensure_key. destruct (d !! k0) eqn:E; [reflexivity |].
  destruct (decide (k0 = k)) as [-> | Hne].
  - by rewrite lookup_insert_eq, E.
  - by rewrite lookup_insert_ne.
Qed.

Lemma ensure_key_is_Some {V} (k0 k : Z) (d : gmap Z (list V)) :
  k = k0 \/ is_Some (d !! k) -> is_Some (ensure_key k0 d !! k).
Proof.
  unfold ensure_key. destruct (d !! k0) eqn:E.
  - intros [-> | H]; [by rewrite E | assumption].
  - intros [-> | H]; [by rewrite lookup_insert_eq |].
    destruct (decide (k0 = k)) as [-> | Hne]; [by rewrite lookup_insert_eq |].
    by rewrite lookup_insert_ne.
Qed.

Lemma append_at_spec {V} (k0 : Z) (path : V) (d : gmap Z (list V)) :
  is_Some (d !! k0) ->
  exists d',
    append_at k0 path d = Some d' /\
    (forall k, group_of d' k = group_of d k ++ (if decide (k0 = k) then [path] else [])) /\
    (forall k, is_Some (d !! k) -> is_Some (d' !! k)).
Proof.
  intros [l Hl]. unfold append_at. rewrite Hl. cbn.
  eexists. split; [reflexivity |]. split.
  - intros k. unfold group_of. destruct (decide (k0 = k)) as [-> | Hne].
    + by rewrite lookup_insert_eq, Hl.
    + rewrite lookup_insert_ne by assumption. by rewrite app_nil_r.
  - intros k Hk. destruct (decide (k0 = k)) as [-> | Hne].
    + by rewrite lookup_insert_eq.
    + by rewrite lookup_insert_ne.
Qed.

(** Filing one path adds it to the groups of its keys, in both
    dictionaries, and cannot raise. *)
Lemma index_bridge_path_spec (by_start by_end : gmap Z (list (list Z))) (path : list Z) :
  path <> [] ->
  exists by_start' by_end',
    index_bridge_path (by_start, by_end) path = Some (by_start', by_end') /\
    (forall k, group_of by_start' k = group_of by_start k ++ entries_at start_keys k path) /\
    (forall k, group_of by_end' k = group_of by_end k ++ entries_at end_keys k path).
Proof.
  intros Hne. unfold index_bridge_path, entries_at, start_keys, end_keys.
  destruct (first_is_Some path Hne) as [a Ha].
  destruct (last_is_Some path Hne) as [b Hb].
  rewrite Ha, Hb. cbn [mbind option_bind].
  destruct (append_at_spec a path (ensure_key (- b) (ensure_key a by_start)))
    as (s1 & -> & Hs1 & Hs1'); [apply ensure_key_is_Some; right; apply ensure_key_is_Some; by left |].
  cbn [mbind option_bind].
  destruct (append_at_spec b path (ensure_key (- a) (ensure_key b by_end)))
    as (e1 & -> & He1 & He1'); [apply ensure_key_is_Some; right; apply ensure_key_is_Some; by left |].
  cbn [mbind option_bind].
  destruct (append_at_spec (- b) path s1) as (s2 & -> & Hs2 & _);
    [apply Hs1', ensure_key_is_Some; by left |].
  cbn [mbind option_bind].
  destruct (append_at_spec (- a) path e1) as (e2 & -> & He2 & _);
    [apply He1', ensure_key_is_Some; by left |].
  cbn [mbind option_bind].
  exists s2, e2. split; [reflexivity |]. split; intros k.
  - rewrite Hs2, Hs1, !group_of_ensure_key. cbn [flat_map].
    by rewrite app_nil_r, app_assoc.
  - rewrite He2, He1, !group_of_ensure_key. cbn [flat_map].
    by rewrite app_nil_r, app_assoc.
Qed.

Lemma for_each_index_bridge_path (bridge_path_list : list (list Z))
    (by_start by_end : gmap Z (list (list Z))) :
  Forall (fun p => p <> []) bridge_path_list ->
  exists by_start' by_end',
    for_each index_bridge_path bridge_path_list (by_start, by_end)
    = Some (by_start', by_end') /\
    (forall k, group_of by_start' k
               = group_of by_start k ++ flat_map (entries_at start_keys k) bridge_path_list) /\
    (forall k, group_of by_end' k
               = group_of by_end k ++ flat_map (entries_at end_keys k) bridge_path_list).
Proof.
  intros Hne. revert by_start by_end.
  induction Hne as [| p l Hp Hne IH]; intros by_start by_end.
  - exists by_start, by_end. cbn. split; [reflexivity |].
    split; intros k; by rewrite app_nil_r.
  - destruct (index_bridge_path_spec by_start by_end p Hp) as (s1 & e1 & Hstep & Hs1 & He1).
    destruct (IH s1 e1) as (s2 & e2 & Hrun & Hs2 & He2).
    exists s2, e2. cbn [for_each]. rewrite Hstep. cbn [mbind option_bind].
    split; [assumption |]. split; intros k.
    + rewrite Hs2, Hs1. cbn [flat_map]. by rewrite app_assoc.
    + rewrite He2, He1. cbn [flat_map]. by rewrite app_assoc.
Qed.

(** The conflicting paths of a dictionary are the members of its groups
    of more than one path. *)
Lemma elem_of_conflicts_of (d : gmap Z (list (list Z))) (q : list Z) :
  q ∈ conflicts_of d <-> exists k, (1 < length (group_of d k))%nat /\ q ∈ group_of d k.
Proof.
  unfold conflicts_of. rewrite list_elem_of_In, in_concat. split.
  - intros (l & Hl & Hq). apply filter_In in Hl as [Hl Hlen].
    apply list_elem_of_In in Hl. unfold itervalues in Hl.
    apply list_elem_of_fmap in Hl as ([k l'] & -> & Hkl).
    apply elem_of_map_to_list in Hkl. cbn in *.
    exists k. unfold group_of. rewrite Hkl. cbn.
    split; [by apply Nat.ltb_lt | by apply list_elem_of_In].
  - intros (k & Hlen & Hq). unfold group_of in *.
    destruct (d !! k) as [l |] eqn:Hk; cbn in Hlen, Hq; [| lia].
    exists l. split; [| by apply list_elem_of_In].
    apply filter_In. split; [| by apply Nat.ltb_lt].
    apply list_elem_of_In. unfold itervalues.
    apply list_elem_of_fmap. exists (k, l). split; [reflexivity |].
    by apply elem_of_map_to_list.
Qed.

Lemma elem_of_no_dups_aux (l acc : list (list Z)) (q : list Z) :
  q ∈ fold_left (fun acc path => if bool_decide (path ∈ acc) then acc else acc ++ [path]) l acc
  <-> q ∈ acc \/ q ∈ l.
Proof.
  revert acc. induction l as [| p l IH]; intros acc; cbn [fold_left].
  - split; [tauto | intros [H | H]; [assumption | by apply elem_of_nil in H]].
  - rewrite IH, elem_of_cons. destruct (bool_decide (p ∈ acc)) eqn:Hp.
    + apply bool_decide_eq_true in Hp. split; [tauto |].
      intros [H | [-> | H]]; tauto.
    + rewrite elem_of_app, list_elem_of_singleton. tauto.
Qed.

Lemma elem_of_no_dups (l : list (list Z)) (q : list Z) : q ∈ no_dups l <-> q ∈ l.
Proof.
  unfold no_dups. rewrite elem_of_no_dups_aux. split; [| tauto].
  intros [H | H]; [by apply elem_of_nil in H | assumption].
Qed.

Lemma elem_of_entries_at (keys : list Z -> list Z) (k : Z) (p q : list Z) :
  q ∈ entries_at keys k p <-> q = p /\ k ∈ keys p.
Proof.
  unfold entries_at. rewrite list_elem_of_In, in_flat_map. split.
  - intros (k' & Hk' & Hq). apply list_elem_of_In in Hk'.
    destruct (decide (k' = k)) as [-> | Hne]; [| by destruct Hq].
    destruct Hq as [<- | []]. by split.
  - intros [-> Hk]. exists k. split; [by apply list_elem_of_In |].
    rewrite decide_True by reflexivity. by left.
Qed.

Lemma entries_at_nonempty (keys : list Z -> list Z) (k : Z) (p : list Z) :
  entries_at keys k p <> [] <-> k ∈ keys p.
Proof.
  split.
  - intros Hne. destruct (entries_at keys k p) as [| q l] eqn:E; [congruence |].
    assert (Hq : q ∈ entries_at keys k p) by (rewrite E; left).
    by apply elem_of_entries_at in Hq as [_ Hk].
  - intros Hk E.
    assert (Hp : p ∈ entries_at keys k p) by by apply elem_of_entries_at.
    rewrite E in Hp. by apply elem_of_nil in Hp.
Qed.

Lemma elem_of_flat_map_entries_at (keys : list Z -> list Z) (k : Z)
    (l : list (list Z)) (q : list Z) :
  q ∈ flat_map (entries_at keys k) l <-> q ∈ l /\ k ∈ keys q.
Proof.
  rewrite list_elem_of_In, in_flat_map. split.
  - intros (p & Hp & Hq). apply list_elem_of_In in Hp, Hq.
    apply elem_of_entries_at in Hq as [-> Hk]. by split.
  - intros [Hq Hk]. exists q. split; apply list_elem_of_In; [assumption |].
    by apply elem_of_entries_at.
Qed.

Lemma flat_map_nonempty {A B} (f : A -> list B) (l : list A) :
  flat_map f l <> [] -> exists q, q ∈ l /\ f q <> [].
Proof.
  induction l as [| x l IH]; cbn; [congruence |].
  destruct (f x) as [| y ys] eqn:E; cbn.
  - intros H. destruct (IH H) as (q & Hq & Hf). exists q. split; [by right | assumption].
  - intros _. exists x. split; [by left | by rewrite E].
Qed.

Lemma length_pos_nonempty {A} (l : list A) : l <> [] <-> (0 < length l)%nat.
Proof. destruct l; cbn; split; (congruence || lia). Qed.

(** A group holds more than one entry when one of its paths is entered
    twice or when two of its paths are distinct. *)
Lemma length_flat_map_gt_1 {A B} (f : A -> list B) (l : list A) (p : A) :
  NoDup l -> p ∈ l -> f p <> [] ->
  (1 < length (flat_map f l))%nat <->
  (1 < length (f p))%nat \/ exists q, q ∈ l /\ q <> p /\ f q <> [].
Proof.
  intros Hnodup Hp Hfp.
  apply list_elem_of_split in Hp as (l1 & l2 & ->).
  apply NoDup_app in Hnodup as (_ & Hl1 & Hl2). apply NoDup_cons in Hl2 as [Hl2 _].
  rewrite flat_map_app, length_app. cbn [flat_map]. rewrite length_app.
  apply length_pos_nonempty in Hfp. split.
  - intros Hlen.
    destruct (decide (1 < length (f p))%nat) as [H | H]; [by left | right].
    assert (Hrest : flat_map f l1 <> [] \/ flat_map f l2 <> []).
    { destruct (flat_map f l1), (flat_map f l2); cbn in *; auto; lia. }
    destruct Hrest as [Hrest | Hrest];
      apply flat_map_nonempty in Hrest as (q & Hq & Hfq); exists q.
    + split; [apply elem_of_app; by left |]. split; [| assumption].
      intros ->. by apply (Hl1 p); [| left].
    + split; [apply elem_of_app; right; by right |]. split; [| assumption].
      by intros ->.
  - intros [H | (q & Hq & Hne & Hfq)]; [lia |].
    apply length_pos_nonempty in Hfq.
    apply elem_of_app in Hq as [Hq | Hq].
    + apply list_elem_of_split in Hq as (l3 & l4 & ->).
      rewrite flat_map_app, length_app. cbn [flat_map]. rewrite length_app. lia.
    + apply elem_of_cons in Hq as [-> | Hq]; [congruence |].
      apply list_elem_of_split in Hq as (l3 & l4 & ->).
      rewrite flat_map_app, length_app. cbn [flat_map]. rewrite length_app. lia.
Qed.

Lemma keys_of_path (p : list Z) :
  p <> [] ->
  exists a b, Py.first p = Some a /\ Py.last p = Some b /\
              start_keys p = [a; - b] /\ end_keys p = [b; - a].
Proof.
  intros Hne. destruct (first_is_Some p Hne) as [a Ha], (last_is_Some p Hne) as [b Hb].
  exists a, b. unfold start_keys, end_keys. by rewrite Ha, Hb.
Qed.

Lemma entries_at_twice (p : list Z) (k : Z) :
  p <> [] ->
  ((1 < length (entries_at start_keys k p))%nat \/ (1 < length (entries_at end_keys k p))%nat)
  -> ends_on_own_start p.
Proof.
  intros Hne Hlen. destruct (keys_of_path p Hne) as (a & b & Ha & Hb & Hs & He).
  exists a, b. split; [assumption |]. split; [assumption |].
  unfold entries_at in Hlen. rewrite Hs, He in Hlen. cbn [flat_map] in Hlen.
  destruct Hlen as [Hlen | Hlen];
    repeat match type of Hlen with
           | context [decide (?x = ?y)] => destruct (decide (x = y))
           end; cbn in Hlen; lia.
Qed.

Lemma ends_on_own_start_twice (p : list Z) :
  ends_on_own_start p ->
  exists k, k ∈ start_keys p /\ (1 < length (entries_at start_keys k p))%nat.
Proof.
  intros (a & b & Ha & Hb & Hab). exists a.
  unfold entries_at, start_keys. rewrite Ha, Hb. split; [by left |].
  cbn [flat_map]. rewrite decide_True by reflexivity. rewrite decide_True by lia.
  cbn. lia.
Qed.

(** The paths thrown out are those counted twice in a group of their own
    and those that share a group with another path. *)
Lemma conflicting_paths_spec (bridge_path_list : list (list Z)) :
  NoDup bridge_path_list ->
  Forall (fun p => p <> []) bridge_path_list ->
  exists conflicting,
    conflicting_paths bridge_path_list = Some conflicting /\
    forall p, p ∈ conflicting <->
              p ∈ bridge_path_list /\
              (ends_on_own_start p \/ conflicts_with_another bridge_path_list p).
Proof.
  intros Hnodup Hne. unfold conflicting_paths.
  destruct (for_each_index_bridge_path bridge_path_list ∅ ∅ Hne)
    as (by_start & by_end & -> & Hs & He).
  cbn [mbind option_bind]. eexists. split; [reflexivity |].
  intros p. rewrite elem_of_no_dups, elem_of_app, !elem_of_conflicts_of.
  assert (Hgroup : forall keys d,
             (forall k, group_of d k = group_of ∅ k ++ flat_map (entries_at keys k) bridge_path_list) ->
             forall k, group_of d k = flat_map (entries_at keys k) bridge_path_list).
  { intros keys d Hd k. rewrite Hd. unfold group_of. by rewrite lookup_empty. }
  specialize (Hgroup _ _ Hs) as Hs'. specialize (Hgroup _ _ He) as He'. clear Hgroup.
  split.
  - intros [(k & Hlen & Hp) | (k & Hlen & Hp)].
    + rewrite Hs' in Hlen, Hp. apply elem_of_flat_map_entries_at in Hp as [Hp Hk].
      split; [assumption |].
      pose proof (proj1 (Forall_forall _ _) Hne p Hp) as Hpne.
      apply (length_flat_map_gt_1 _ _ p Hnodup Hp) in Hlen;
        [| by apply entries_at_nonempty].
      destruct Hlen as [Htwice | (q & Hq & Hqp & Hfq)].
      * left. apply (entries_at_twice p k); auto.
      * right. exists q. split; [assumption |]. split; [assumption |].
        left. exists k. split; [assumption |]. by apply entries_at_nonempty in Hfq.
    + rewrite He' in Hlen, Hp. apply elem_of_flat_map_entries_at in Hp as [Hp Hk].
      split; [assumption |].
      pose proof (proj1 (Forall_forall _ _) Hne p Hp) as Hpne.
      apply (length_flat_map_gt_1 _ _ p Hnodup Hp) in Hlen;
        [| by apply entries_at_nonempty].
      destruct Hlen as [Htwice | (q & Hq & Hqp & Hfq)].
      * left. apply (entries_at_twice p k); auto.
      * right. exists q. split; [assumption |]. split; [assumption |].
        right. exists k. split; [assumption |]. by apply entries_at_nonempty in Hfq.
  - intros [Hp [Hown | (q & Hq & Hqp & [(k & Hkp & Hkq) | (k & Hkp & Hkq)])]].
    + left. destruct (ends_on_own_start_twice p Hown) as (k & Hk & Hlen).
      exists k. rewrite Hs'. split; [| by apply elem_of_flat_map_entries_at].
      apply (length_flat_map_gt_1 _ _ p Hnodup Hp); [by apply entries_at_nonempty | by left].
    + left. exists k. rewrite Hs'. split; [| by apply elem_of_flat_map_entries_at].
      apply (length_flat_map_gt_1 _ _ p Hnodup Hp); [by apply entries_at_nonempty |].
      right. exists q. split; [assumption |]. split; [assumption |].
      by apply entries_at_nonempty.
    + right. exists k. rewrite He'. split; [| by apply elem_of_flat_map_entries_at].
      apply (length_flat_map_gt_1 _ _ p Hnodup Hp); [by apply entries_at_nonempty |].
      right. exists q. split; [assumption |]. split; [assumption |].
      by apply entries_at_nonempty.
Qed.

(** The final bridge paths are the paths of the list that are not
    conflicting. *)
Lemma final_bridge_paths_spec (bridge_path_list : list (list Z)) :
  NoDup bridge_path_list ->
  Forall (fun p => p <> []) bridge_path_list ->
  exists final,
    final_bridge_paths bridge_path_list = Some final /\
    forall p, p ∈ final <->
              p ∈ bridge_path_list /\
              ~ (ends_on_own_start p \/ conflicts_with_another bridge_path_list p).
Proof.
  intros Hnodup Hne. unfold final_bridge_paths.
  destruct (conflicting_paths_spec bridge_path_list Hnodup Hne) as (conflicting & -> & Hspec).
  cbn [mbind option_bind]. eexists. split; [reflexivity |].
  intros p. rewrite list_elem_of_In, filter_In, <- list_elem_of_In.
  rewrite bool_decide_eq_true, Hspec. tauto.
Qed.

(** C5.  A bridge path of the de-duplicated list is thrown out exactly
    when it shares a key of [bridge_paths_by_start] (its start, minus its
    end) or of [bridge_paths_by_end] (its end, minus its start) with
    another path of the list, or when its start is minus its end, in which
    case it is filed twice under one key; every other path is kept.  So
    [1, 2, 5] and [1, 3, 5] are both dropped, [1, 2, 5] alone is kept, and
    the path 1, 4, 2 between two single-copy segments becomes a bridge. *)
Theorem contig_bridge_conflicts (bridge_path_list : list (list Z)) :
  NoDup bridge_path_list ->
  Forall (fun p => p <> []) bridge_path_list ->
  exists final,
    final_bridge_paths bridge_path_list = Some final /\
    (forall p, p ∈ final <->
               p ∈ bridge_path_list /\
               ~ (ends_on_own_start p \/ conflicts_with_another bridge_path_list p)) /\
    final_bridge_paths [[1; 2; 5]; [1; 3; 5]] = Some [] /\
    final_bridge_paths [[1; 2; 5]] = Some [[1; 2; 5]] /\
    map (fun b => (SpadesContigBridge.start_segment b, SpadesContigBridge.graph_path b,
                   SpadesContigBridge.end_segment b))
      <$> create_spades_contig_bridges simple_graph
            [example_segment 1 10 100; example_segment 2 10 100] 0
    = Some [(1, [4], 2)].
Proof.
  intros Hnodup Hne.
  destruct (final_bridge_paths_spec bridge_path_list Hnodup Hne) as (final & Hfinal & Hspec).
  exists final. split; [assumption |]. split; [assumption |].
  repeat split; vm_compute; reflexivity.
Qed.

Lemma contig_bridge_conflicts_witness :
  NoDup [[1; 2; 5]; [1; 3; 5]] /\
  Forall (fun p : list Z => p <> []) [[1; 2; 5]; [1; 3; 5]] /\
  exists final,
    final_bridge_paths [[1; 2; 5]; [1; 3; 5]] = Some final /\
    ([1; 2; 5] ∈ final <->
     [1; 2; 5] ∈ [[1; 2; 5]; [1; 3; 5]] /\
     ~ (ends_on_own_start [1; 2; 5]
        \/ conflicts_with_another [[1; 2; 5]; [1; 3; 5]] [1; 2; 5])).
Proof.
  assert (Hnodup : NoDup [[1; 2; 5]; [1; 3; 5]]).
  { apply NoDup_cons. split; [| apply NoDup_singleton].
    intros H. apply list_elem_of_singleton in H. discriminate. }
  assert (Hne : Forall (fun p : list Z => p <> []) [[1; 2; 5]; [1; 3; 5]]).
  { repeat constructor; discriminate. }
  split; [exact Hnodup |]. split; [exact Hne |].
  destruct (contig_bridge_conflicts _ Hnodup Hne) as (final & Hfinal & Hspec & _).
  exists final. split; [exact Hfinal | apply Hspec].
Defined.

(** The claim as the specification has it, that a path is thrown out
    only when it shares a key with a distinct path, fails on a path that
    comes back to the reverse complement of its start: [3, 5, -3] is a
    candidate of its contig path, it is alone, and it is thrown out. *)
Lemma lone_bridge_path_dropped :
  find_contig_bridges 3 [3; 5; -3] [3] = [[3; 5; -3]] /\
  ~ conflicts_with_another [[3; 5; -3]] [3; 5; -3] /\
  final_bridge_paths [[3; 5; -3]] = Some [] /\
  create_spades_contig_bridges hairpin_graph [example_segment 3 10 100] 0 = Some [].
Proof.
  split; [reflexivity |]. split; [| split; vm_compute; reflexivity].
  intros (q & Hq & Hqp & _). apply list_elem_of_singleton in Hq. contradiction.
Qed.

(** ** The contig bridge builder as a whole *)

Lemma find_contig_bridges_nonempty (segment_num : Z) (path single_copy_numbers : list Z)
    (c : list Z) :
  c ∈ find_contig_bridges segment_num path single_copy_numbers -> (2 <= length c)%nat.
Proof.
  induction path as [| x path IH]; cbn [find_contig_bridges].
  - intros H. by apply elem_of_nil in H.
  - rewrite elem_of_app. intros [H | H]; [| by apply IH].
    destruct (Z.abs x =? segment_num); [| by apply elem_of_nil in H].
    destruct (scan_to_single_copy single_copy_numbers path) as [bridge_tail |] eqn:E;
      [| by apply elem_of_nil in H].
    apply list_elem_of_singleton in H as ->.
    destruct path as [| y path]; [discriminate |].
    cbn in E. destruct (_ || _) in E.
    + injection E as <-. cbn. lia.
    + destruct (scan_to_single_copy single_copy_numbers path); [| discriminate].
      injection E as <-. cbn. lia.
Qed.

Lemma reverse_complement_path_nil (p : list Z) : reverse_complement_path p = [] -> p = [].
Proof.
  intros H. apply (f_equal reverse_complement_path) in H.
  by rewrite reverse_complement_path_involutive in H.
Qed.

(** The set of bridge paths is always built, holds no path together with
    its reverse complement, and holds no empty path. *)
Lemma collect_bridge_paths_spec (graph : Graph.t) (single_copy_segments : list Segment.t) :
  exists bridge_path_set,
    collect_bridge_paths graph single_copy_segments = Some bridge_path_set /\
    canonical_set bridge_path_set /\
    forall p, p ∈ bridge_path_set -> p <> [].
Proof.
  unfold collect_bridge_paths.
  set (P := fun s : gset (list Z) => canonical_set s /\ forall p, p ∈ s -> p <> []).
  apply (for_each_invariant P).
  2: { split; [split |]; intros p Hp; by apply elem_of_empty in Hp. }
  intros s segment Hs _. apply (for_each_invariant P); [| assumption].
  clear s Hs. intros s path [Hcanon Hne] _.
  match goal with |- context [for_each add_contig_bridge ?cs s] => set (candidates := cs) end.
  assert (Hcands : Forall (fun c => c <> []) candidates).
  { apply Forall_forall. intros c Hc. subst candidates.
    apply elem_of_app in Hc as [Hc | Hc];
      apply find_contig_bridges_nonempty in Hc; destruct c; cbn in Hc; (congruence || lia). }
  destruct (for_each_add_contig_bridge candidates s Hcands Hcanon)
    as (final & -> & Hcanon' & _ & _ & Horigin).
  exists final. split; [reflexivity |]. split; [assumption |].
  intros p Hp. destruct (Horigin p Hp) as [H | [H | H]].
  - by apply Hne.
  - by apply (proj1 (Forall_forall _ _) Hcands).
  - intros ->. by apply (proj1 (Forall_forall _ _) Hcands _ H).
Qed.

(** The contig bridge builder raises only if a constructor does: it
    builds one bridge for each path of its sorted list that neither
    conflicts with another path nor ends on its own start. *)
Lemma create_spades_contig_bridges_spec (graph : Graph.t)
    (single_copy_segments : list Segment.t) (verbosity : Z) :
  exists bridge_path_set final,
    collect_bridge_paths graph single_copy_segments = Some bridge_path_set /\
    final_bridge_paths (sorted_paths (elements bridge_path_set)) = Some final /\
    (forall p, p ∈ final <->
               p ∈ bridge_path_set /\
               ~ (ends_on_own_start p
                  \/ conflicts_with_another (sorted_paths (elements bridge_path_set)) p)) /\
    create_spades_contig_bridges graph single_copy_segments verbosity
    = mapM (SpadesContigBridge.init graph) final.
Proof.
  destruct (collect_bridge_paths_spec graph single_copy_segments)
    as (bridge_path_set & Hset & _ & Hne).
  pose proof (merge_sort_Permutation (fun a b => list_le a b = true)
                (elements bridge_path_set)) as Hperm.
  fold (sorted_paths (elements bridge_path_set)) in Hperm.
  destruct (final_bridge_paths_spec (sorted_paths (elements bridge_path_set)))
    as (final & Hfinal & Hspec).
  - rewrite Hperm. apply NoDup_elements.
  - rewrite Hperm. apply Forall_forall. intros p Hp. apply Hne. by apply elem_of_elements.
  - exists bridge_path_set, final. split; [assumption |]. split; [assumption |]. split.
    + intros p.
      assert (Hin : p ∈ sorted_paths (elements bridge_path_set) <-> p ∈ bridge_path_set).
      { rewrite Hperm. apply elem_of_elements. }
      specialize (Hspec p). tauto.
    + unfold create_spades_contig_bridges. rewrite Hset. cbn [mbind option_bind].
      rewrite Hfinal. reflexivity.
Qed.

(** ** The order in which a set is visited

    Python visits the elements of [set(...)] in an order of its own.  The
    loop of the contig bridge constructor multiplies the quality by one
    factor for each element, so its outcome is the same for every order:
    it raises for all of them or for none, and the products are equal. *)

Lemma same_outcome_trans (a b c : option Q) :
  same_outcome a b -> same_outcome b c -> same_outcome a c.
Proof.
  destruct a, b, c; cbn; try tauto. intros H1 H2. by rewrite H1.
Qed.

Lemma scale_by_segment_factor (graph : Graph.t) (nums : list Z) (depth q : Q) (x : Z) :
  SpadesContigBridge.scale_by_segment graph nums depth q x =
  (fun agreement => (q * agreement)%Q) <$> segment_agreement graph nums depth x.
Proof.
  unfold SpadesContigBridge.scale_by_segment, segment_agreement.
  destruct (Graph.segments graph !! x) as [seg |]; cbn; [| reflexivity].
  by destruct (get_num_agreement _ _).
Qed.

Lemma for_each_scale_proper (graph : Graph.t) (nums l : list Z) (depth q q' : Q) :
  (q == q')%Q ->
  same_outcome (for_each (SpadesContigBridge.scale_by_segment graph nums depth) l q)
               (for_each (SpadesContigBridge.scale_by_segment graph nums depth) l q').
Proof.
  revert q q'. induction l as [| x l IH]; intros q q' Hq; cbn [for_each]; [exact Hq |].
  rewrite !scale_by_segment_factor.
  destruct (segment_agreement graph nums depth x) as [f |]; cbn; [| exact I].
  apply IH. by rewrite Hq.
Qed.

Lemma for_each_scale_permutation (graph : Graph.t) (nums nums' l l' : list Z)
    (depth q : Q) :
  nums ≡ₚ nums' -> l ≡ₚ l' ->
  same_outcome (for_each (SpadesContigBridge.scale_by_segment graph nums depth) l q)
               (for_each (SpadesContigBridge.scale_by_segment graph nums' depth) l' q).
Proof.
  intros Hnums Hl.
  assert (Hbody : forall q x,
             SpadesContigBridge.scale_by_segment graph nums' depth q x
             = SpadesContigBridge.scale_by_segment graph nums depth q x).
  { intros q0 x. unfold SpadesContigBridge.scale_by_segment.
    by rewrite (proj1 (Permutation_count_occ Z.eq_dec nums nums') Hnums x). }
  assert (Hsame : forall l q,
             for_each (SpadesContigBridge.scale_by_segment graph nums' depth) l q
             = for_each (SpadesContigBridge.scale_by_segment graph nums depth) l q).
  { intros l0. induction l0 as [| x l0 IH]; intros q0; cbn [for_each]; [reflexivity |].
    rewrite Hbody. destruct (SpadesContigBridge.scale_by_segment graph nums depth q0 x);
      cbn; [apply IH | reflexivity]. }
  rewrite Hsame. clear Hbody Hsame Hnums nums'.
  revert q. induction Hl as [| x l l' Hl IH | x y l | l l' l'' H1 IH1 H2 IH2]; intros q.
  - cbn. reflexivity.
  - cbn [for_each]. destruct (SpadesContigBridge.scale_by_segment graph nums depth q x);
      cbn; [apply IH | exact I].
  - cbn [for_each]. rewrite !scale_by_segment_factor.
    destruct (segment_agreement graph nums depth y) as [fy |] eqn:Ey,
             (segment_agreement graph nums depth x) as [fx |] eqn:Ex; cbn;
      rewrite ?scale_by_segment_factor, ?Ex, ?Ey; cbn; try exact I.
    apply for_each_scale_proper. ring.
  - eapply same_outcome_trans; [apply IH1 | apply IH2].
Qed.

(** ** The alignments kept for a read, reference by reference *)

Lemma select_alignments_selection (allowed : Q) (final group : list Alignment.t) :
  group <> [] ->
  select_alignments allowed final group = Some (final ++ selection allowed group).
Proof.
  intros Hne. unfold select_alignments, selection, keeps_second.
  pose proof (length_sorted_desc Alignment.scaled_score group) as Hlen.
  destruct (Py.sorted_desc Alignment.scaled_score group) as [| best [| second rest]];
    cbn in *.
  - destruct group; [congruence | discriminate].
  - reflexivity.
  - destruct (Qle_bool _ _); cbn; [| reflexivity].
    destruct (_ || _); cbn; [| reflexivity].
    by rewrite <- app_assoc.
Qed.

Lemma for_each_select_alignments (allowed : Q) (groups : list (list Alignment.t))
    (final : list Alignment.t) :
  Forall (fun group => group <> []) groups ->
  for_each (select_alignments allowed) groups final
  = Some (final ++ flat_map (selection allowed) groups).
Proof.
  intros Hne. revert final. induction Hne as [| group groups Hg Hne IH]; intros final; cbn.
  - by rewrite app_nil_r.
  - rewrite select_alignments_selection by assumption. cbn.
    by rewrite IH, <- app_assoc.
Qed.

Lemma group_alignment_spec (single_copy : gset Z) (min_scaled_score : Q)
    (sc_alignments : gmap Z (list Alignment.t)) (alignment : Alignment.t) :
  exists sc',
    group_alignment single_copy min_scaled_score sc_alignments alignment = Some sc' /\
    forall k, group_of sc' k
              = group_of sc_alignments k
                ++ (if qualifies single_copy min_scaled_score k alignment
                    then [alignment] else []).
Proof.
  unfold group_alignment, qualifies.
  destruct (bool_decide (_ ∉ single_copy)) eqn:Hsc.
  - apply bool_decide_eq_true in Hsc. exists sc_alignments. split; [reflexivity |].
    intros k. destruct (bool_decide (_ = k)) eqn:Hk; cbn; [| by rewrite app_nil_r].
    apply bool_decide_eq_true in Hk. subst k.
    rewrite bool_decide_eq_false_2 by assumption. by rewrite app_nil_r.
  - apply bool_decide_eq_false in Hsc. apply dec_stable in Hsc.
    destruct (Py.Qlt_bool _ _) eqn:Hscore.
    + exists sc_alignments. split; [reflexivity |]. intros k.
      rewrite andb_false_r. by rewrite app_nil_r.
    + destruct (append_at_spec (Segment.number (Alignment.ref alignment)) alignment
                  (ensure_key (Segment.number (Alignment.ref alignment)) sc_alignments))
        as (sc' & Hsc' & Hgroup & _); [apply ensure_key_is_Some; by left |].
      exists sc'. split; [assumption |]. intros k.
      rewrite Hgroup, group_of_ensure_key. f_equal.
      destruct (decide (_ = k)) as [<- | Hne].
      * rewrite !bool_decide_eq_true_2 by done. reflexivity.
      * rewrite (bool_decide_eq_false_2 (_ = k)) by assumption. reflexivity.
Qed.

Lemma for_each_group_alignment (single_copy : gset Z) (min_scaled_score : Q)
    (alignments : list Alignment.t) (sc_alignments : gmap Z (list Alignment.t)) :
  exists sc',
    for_each (group_alignment single_copy min_scaled_score) alignments sc_alignments
    = Some sc' /\
    forall k, group_of sc' k
              = group_of sc_alignments k
                ++ List.filter (qualifies single_copy min_scaled_score k) alignments.
Proof.
  revert sc_alignments. induction alignments as [| a alignments IH]; intros sc_alignments.
  - exists sc_alignments. split; [reflexivity |]. intros k. by rewrite app_nil_r.
  - destruct (group_alignment_spec single_copy min_scaled_score sc_alignments a)
      as (sc1 & Hstep & Hsc1).
    destruct (IH sc1) as (sc2 & Hrun & Hsc2).
    exists sc2. cbn [for_each]. rewrite Hstep. cbn [mbind option_bind].
    split; [assumption |]. intros k. rewrite Hsc2, Hsc1. cbn [List.filter].
    destruct (qualifies single_copy min_scaled_score k a); by rewrite <- app_assoc.
Qed.

Lemma insert_desc_Permutation {A} (key : A -> Q) (x : A) (l : list A) :
  Py.insert_desc key x l ≡ₚ x :: l.
Proof.
  induction l as [| y l IH]; cbn; [reflexivity |].
  destruct (Qle_bool (key y) (key x)); [reflexivity |].
  rewrite IH. apply Permutation_swap.
Qed.

Lemma sorted_desc_Permutation {A} (key : A -> Q) (l : list A) :
  Py.sorted_desc key l ≡ₚ l.
Proof.
  induction l as [| x l IH]; cbn; [reflexivity |].
  fold (Py.sorted_desc key l). by rewrite insert_desc_Permutation, IH.
Qed.

Lemma selection_subset (allowed : Q) (group : list Alignment.t) (a : Alignment.t) :
  a ∈ selection allowed group -> a ∈ group.
Proof.
  unfold selection. intros Ha.
  rewrite <- (sorted_desc_Permutation Alignment.scaled_score group).
  destruct (Py.sorted_desc Alignment.scaled_score group) as [| best [| second rest]].
  - assumption.
  - assumption.
  - destruct (keeps_second allowed best second).
    + apply elem_of_cons in Ha as [-> | Ha]; [by left |].
      apply list_elem_of_singleton in Ha as ->. right. by left.
    + apply list_elem_of_singleton in Ha as ->. by left.
Qed.

Lemma filter_all {A} (P : A -> bool) (l : list A) :
  (forall x, x ∈ l -> P x = true) -> List.filter P l = l.
Proof.
  induction l as [| x l IH]; intros H; cbn; [reflexivity |].
  rewrite (H x) by left. f_equal. apply IH. intros y Hy. apply H. by right.
Qed.

Lemma filter_none {A} (P : A -> bool) (l : list A) :
  (forall x, x ∈ l -> P x = false) -> List.filter P l = [].
Proof.
  induction l as [| x l IH]; intros H; cbn; [reflexivity |].
  rewrite (H x) by left. apply IH. intros y Hy. apply H. by right.
Qed.

(** Out of the alignments kept for all groups, those to reference [k] are
    the ones kept for the group of [k]. *)
Lemma filter_selection_groups (allowed : Q) (k : Z) (groups : list (Z * list Alignment.t)) :
  NoDup groups.*1 ->
  (forall k' group a, (k', group) ∈ groups -> a ∈ group ->
                      Segment.number (Alignment.ref a) = k') ->
  (forall group, (k, group) ∈ groups ->
     List.filter (fun a => bool_decide (Segment.number (Alignment.ref a) = k))
                 (flat_map (selection allowed) groups.*2)
     = selection allowed group) /\
  (k ∉ groups.*1 ->
     List.filter (fun a => bool_decide (Segment.number (Alignment.ref a) = k))
                 (flat_map (selection allowed) groups.*2)
     = []).
Proof.
  induction groups as [| [k' g] groups IH]; intros Hnodup Hrefs.
  - split; [intros group H; by apply elem_of_nil in H | reflexivity].
  - cbn [fmap list_fmap fst snd flat_map] in *.
    apply NoDup_cons in Hnodup as [Hk' Hnodup].
    destruct (IH Hnodup) as [IHin IHout].
    { intros k0 group a Hin. apply Hrefs. by right. }
    assert (Hg : forall a, a ∈ selection allowed g -> Segment.number (Alignment.ref a) = k').
    { intros a Ha. apply (Hrefs k' g a); [by left | by apply selection_subset in Ha]. }
    split.
    + intros group Hin. rewrite List.filter_app.
      apply elem_of_cons in Hin as [[= <- <-] | Hin].
      * rewrite IHout by assumption. rewrite app_nil_r. apply filter_all.
        intros a Ha. apply bool_decide_eq_true. by apply Hg.
      * assert (Hne : k' <> k).
        { intros ->. apply Hk'. apply list_elem_of_fmap. by exists (k, group). }
        rewrite (IHin group Hin), filter_none; [reflexivity |].
        intros a Ha. apply bool_decide_eq_false. rewrite (Hg a Ha). assumption.
    + intros Hk. apply not_elem_of_cons in Hk as [Hne Hk].
      rewrite List.filter_app, (IHout Hk), filter_none; [reflexivity |].
      intros a Ha. apply bool_decide_eq_false. rewrite (Hg a Ha). congruence.
Qed.

(** The alignments a read keeps, reference by reference: they are always
    computed, and those to reference [k] are the best of the alignments to
    [k] that qualify and, under the two conditions, the second best. *)
Lemma get_single_copy_alignments_spec (read : Read.t) (single_copy : gset Z)
    (allowed min_scaled_score : Q) :
  exists final,
    get_single_copy_alignments read single_copy allowed min_scaled_score = Some final /\
    forall k,
      List.filter (fun a => bool_decide (Segment.number (Alignment.ref a) = k)) final
      = selection allowed
          (List.filter (qualifies single_copy min_scaled_score k) (Read.alignments read)).
Proof.
  unfold get_single_copy_alignments.
  destruct (for_each_group_alignment single_copy min_scaled_score (Read.alignments read) ∅)
    as (sc & Hrun & Hgroups).
  assert (Hgroup : forall k, group_of sc k
                     = List.filter (qualifies single_copy min_scaled_score k)
                                   (Read.alignments read)).
  { intros k. rewrite Hgroups. unfold group_of. by rewrite lookup_empty. }
  assert (Hne : map_Forall (fun _ l => l <> []) sc).
  { destruct (for_each_invariant (fun sc => map_Forall (fun _ l => l <> []) sc)
                (group_alignment single_copy min_scaled_score)
                (Read.alignments read)) with (s := (∅ : gmap Z (list Alignment.t)))
      as (sc0 & Hsc0 & Hne0).
    - intros s x Hs _. by apply group_alignment_nonempty.
    - apply map_Forall_empty.
    - rewrite Hrun in Hsc0. by injection Hsc0 as ->. }
  rewrite Hrun. cbn [mbind option_bind].
  rewrite for_each_select_alignments.
  2: { apply Forall_forall. intros group Hin. unfold itervalues in Hin.
       apply list_elem_of_fmap in Hin as ([k g] & -> & Hkg).
       apply elem_of_map_to_list in Hkg. by apply (Hne k). }
  eexists. split; [reflexivity |]. intros k. cbn [app].
  destruct (filter_selection_groups allowed k (map_to_list sc)) as [Hin Hout].
  { apply NoDup_fst_map_to_list. }
  { intros k' group a Hkg Ha. apply elem_of_map_to_list in Hkg.
    pose proof (Hgroup k') as Hk'. unfold group_of in Hk'. rewrite Hkg in Hk'. cbn in Hk'.
    subst group. apply list_elem_of_In, filter_In in Ha as [_ Hq].
    unfold qualifies in Hq. apply andb_true_iff in Hq as [Hq _].
    apply andb_true_iff in Hq as [Hq _]. by apply bool_decide_eq_true in Hq. }
  unfold itervalues. rewrite <- Hgroup. unfold group_of.
  destruct (sc !! k) as [group |] eqn:Hk; cbn.
  - apply Hin. by apply elem_of_map_to_list.
  - apply Hout. intros Hmem. apply list_elem_of_fmap in Hmem as ([k' g] & -> & Hkg).
    apply elem_of_map_to_list in Hkg. cbn in Hk. congruence.
Qed.

(** No more than two alignments are kept for a reference, the first of
    them is the best one, and a second one is kept exactly under the two
    conditions. *)
Lemma selection_cases (allowed : Q) (group : list Alignment.t) :
  match Py.sorted_desc Alignment.scaled_score group with
  | [] => selection allowed group = []
  | best :: rest =>
      exists kept, selection allowed group = best :: kept /\
        (kept = [] \/ exists second rest', rest = second :: rest' /\ kept = [second]
                                          /\ keeps_second allowed best second = true) /\
        (forall second rest', rest = second :: rest' ->
                              keeps_second allowed best second = true -> kept = [second])
  end.
Proof.
  unfold selection.
  destruct (Py.sorted_desc Alignment.scaled_score group) as [| best [| second rest]].
  - reflexivity.
  - exists []. split; [reflexivity |]. split; [by left | discriminate].
  - destruct (keeps_second allowed best second) eqn:Hkeep.
    + exists [second]. split; [reflexivity |]. split.
      * right. by exists second, rest.
      * by intros ? ? [= <- <-] _.
    + exists []. split; [reflexivity |]. split; [by left |].
      intros ? ? [= <- <-]. congruence.
Qed.

Lemma insert_desc_sorted {A} (key : A -> Q) (x : A) (l : list A) :
  StronglySorted (fun a b => (key b <= key a)%Q) l ->
  StronglySorted (fun a b => (key b <= key a)%Q) (Py.insert_desc key x l).
Proof.
  induction l as [| y l IH]; intros Hsorted; cbn.
  - repeat constructor.
  - apply StronglySorted_inv in Hsorted as [Hl Hy].
    destruct (Qle_bool (key y) (key x)) eqn:E.
    + apply Qle_bool_iff in E. constructor; [by constructor |].
      constructor; [assumption |].
      eapply Forall_impl; [exact Hy |]. cbn. intros z Hz. lra.
    + assert (Hlt : (key x < key y)%Q).
      { apply Qnot_le_lt. intros H. apply Qle_bool_iff in H. congruence. }
      constructor; [by apply IH |].
      rewrite insert_desc_Permutation. constructor; [lra | assumption].
Qed.

Lemma sorted_desc_sorted {A} (key : A -> Q) (l : list A) :
  StronglySorted (fun a b => (key b <= key a)%Q) (Py.sorted_desc key l).
Proof.
  induction l as [| x l IH]; cbn; [constructor |].
  by apply insert_desc_sorted.
Qed.

(** The first element of [sorted(l, key=..., reverse=True)] has the
    highest key of [l]. *)
Lemma sorted_desc_head_max {A} (key : A -> Q) (l : list A) (best : A) (rest : list A) :
  Py.sorted_desc key l = best :: rest ->
  forall a, a ∈ l -> (key a <= key best)%Q.
Proof.
  intros Hsorted a Ha.
  pose proof (sorted_desc_sorted key l) as Hs. rewrite Hsorted in Hs.
  apply StronglySorted_inv in Hs as [_ Hbest].
  rewrite <- (sorted_desc_Permutation key l), Hsorted in Ha.
  apply elem_of_cons in Ha as [-> | Ha]; [lra |].
  by apply (proj1 (Forall_forall _ _) Hbest).
Qed.

(** ** The loop unrolling builder as a whole *)

Lemma corroborate_spec (start end_ middle : Z) (paths : list (list Z)) (joined : option bool) :
  paths <> [] ->
  exists b, corroborate start end_ middle paths joined = Some b /\
            (b = true <-> exists path, path ∈ paths /\ joins start end_ middle path).
Proof.
  revert joined. induction paths as [| path paths IH]; intros joined Hne; [congruence |].
  cbn [corroborate].
  destruct (_ || _) eqn:Hjoin.
  - exists true. split; [reflexivity |]. split; [intros _ | reflexivity].
    exists path. split; [by left |]. unfold joins.
    repeat (apply orb_true_iff in Hjoin as [Hjoin | Hjoin]);
      apply andb_true_iff in Hjoin as [H1 H2];
      apply bool_decide_eq_true in H1, H2; tauto.
  - assert (Hnot : ~ joins start end_ middle path).
    { unfold joins. intros H.
      repeat (apply orb_false_iff in Hjoin as [Hjoin ?]).
      repeat match goal with
             | H : _ && _ = false |- _ =>
                 apply andb_false_iff in H as [H | H]; apply bool_decide_eq_false in H
             end; tauto. }
    destruct paths as [| path' paths].
    + exists false. split; [reflexivity |]. split; [discriminate |].
      intros (p & Hp & Hj). apply list_elem_of_singleton in Hp as ->. contradiction.
    + destruct (IH (Some false)) as (b & Hb & Hspec); [discriminate |].
      exists b. split; [assumption |]. rewrite Hspec. split.
      * intros (p & Hp & Hj). exists p. split; [by right | assumption].
      * intros (p & Hp & Hj). apply elem_of_cons in Hp as [-> | Hp]; [contradiction |].
        by exists p.
Qed.

(** Every bridge the builder returns was made by the constructor for a
    simple loop of the graph that a contig path supports. *)
Lemma create_loop_unrolling_bridges_spec (graph : Graph.t)
    (single_copy_segments : list Segment.t) (verbosity : Z)
    (bridges : list LoopUnrollingBridge.t) :
  create_loop_unrolling_bridges graph single_copy_segments verbosity = Some bridges ->
  forall b, b ∈ bridges ->
    exists start end_ middle repeat_,
      (start, end_, middle, repeat_) ∈ Graph.find_all_simple_loops graph /\
      corroborated graph start end_ middle /\
      LoopUnrollingBridge.init graph start end_ middle repeat_ = Some b.
Proof.
  unfold create_loop_unrolling_bridges. intros Hrun.
  destruct (for_each _ _ _) as [[joined bridges'] |] eqn:Hloop; [| discriminate].
  injection Hrun as <-. cbn [snd].
  set (P := fun st : option bool * list LoopUnrollingBridge.t =>
              (itervalues (Graph.paths graph) = [] -> st.1 = None) /\
              forall b, b ∈ st.2 ->
                exists start end_ middle repeat_,
                  (start, end_, middle, repeat_) ∈ Graph.find_all_simple_loops graph /\
                  corroborated graph start end_ middle /\
                  LoopUnrollingBridge.init graph start end_ middle repeat_ = Some b).
  refine (proj2 (for_each_preserves P _ _ _ (None, []) (joined, bridges') _ Hloop));
    [| split; [reflexivity | intros b Hb; by apply elem_of_nil in Hb]].
  clear. intros [joined bridges] [[[start end_] middle] repeat_] [joined' bridges'] Hin
           [Hstale HP] Hstep.
  cbn in Hstep, Hstale, HP.
  destruct (corroborate _ _ _ _ _) as [j |] eqn:Hj; [| discriminate]. cbn in Hstep.
  destruct (itervalues (Graph.paths graph)) as [| path paths] eqn:Hpaths.
  { (* without any contig path [joined] is read before it is assigned *)
    cbn in Hj. rewrite Hstale in Hj by reflexivity. discriminate. }
  destruct (corroborate_spec start end_ middle (path :: paths) joined) as (j' & Hj' & Hspec);
    [discriminate |].
  rewrite Hj in Hj'. injection Hj' as <-.
  destruct j; cbn in Hstep.
  - destruct (LoopUnrollingBridge.init graph start end_ middle repeat_) as [bridge |] eqn:Hinit;
      [| discriminate].
    cbn in Hstep. injection Hstep as <- <-. split; [discriminate |].
    intros b Hb. cbn in Hb. apply elem_of_app in Hb as [Hb | Hb]; [by apply HP |].
    apply list_elem_of_singleton in Hb as ->.
    exists start, end_, middle, repeat_. split; [assumption |]. split; [| assumption].
    unfold corroborated. rewrite Hpaths. by apply Hspec.
  - injection Hstep as <- <-. split; [discriminate | exact HP].
Qed.

(** ** The keys of the overlap sequences, for any read *)

Section OverlapKeys.
Variable reverse_complement : string -> string.

(** Whatever the read, the overlap before its first alignment and the
    overlap after its last alignment are both filed under the signed
    reference of the alignment of lowest raw score, the last element of
    [sorted_alignments]. *)
Lemma process_read_overlap_keys (read_dict : gmap string Read.t) (single_copy : gset Z)
    (allowed min_scaled_score : Q) (spanning : spanning_t)
    (overlapping : gmap Z (list string)) (read_name : string) (read : Read.t)
    (alignments : list Alignment.t) :
  read_dict !! read_name = Some read ->
  get_single_copy_alignments read single_copy allowed min_scaled_score = Some alignments ->
  alignments <> [] ->
  let sorted_alignments := Py.sorted_desc Alignment.raw_score alignments in
  let available_alignments := available_after [] sorted_alignments in
  exists spanning' first_alignment last_alignment weakest,
    Py.first available_alignments = Some first_alignment /\
    Py.last available_alignments = Some last_alignment /\
    Py.last sorted_alignments = Some weakest /\
    let start_overlap := Alignment.get_start_overlapping_read_seq first_alignment in
    let end_overlap := Alignment.get_end_overlapping_read_seq last_alignment in
    let overlapping' :=
      if bool_decide (start_overlap ≠ EmptyString) then
        <[- Alignment.get_signed_ref_num weakest :=
            group_of overlapping (- Alignment.get_signed_ref_num weakest)
            ++ [reverse_complement start_overlap]]> overlapping
      else overlapping in
    let overlapping'' :=
      if bool_decide (end_overlap ≠ EmptyString) then
        <[Alignment.get_signed_ref_num weakest :=
            group_of overlapping' (Alignment.get_signed_ref_num weakest)
            ++ [end_overlap]]> overlapping'
      else overlapping' in
    process_read reverse_complement read_dict single_copy allowed min_scaled_score
      (spanning, overlapping) read_name
    = Some (spanning', overlapping'').
Proof.
  intros Hread Halign Hne sorted_alignments available_alignments.
  unfold process_read. rewrite Hread. cbn [mbind option_bind]. rewrite Halign.
  cbn [mbind option_bind]. rewrite bool_decide_eq_false_2 by assumption.
  fold sorted_alignments.
  assert (Hsorted : sorted_alignments <> []).
  { intros E. apply (f_equal length) in E. subst sorted_alignments.
    rewrite length_sorted_desc in E. destruct alignments; [congruence | discriminate]. }
  destruct (for_each_add_alignment reverse_complement read sorted_alignments spanning ∅ []
              (Py.last alignments)) as (sp' & added' & ->).
  cbn [mbind option_bind]. rewrite bool_decide_eq_false_2 by assumption.
  fold available_alignments.
  assert (Havail : available_alignments <> []).
  { intros E. apply (f_equal length) in E. subst available_alignments.
    rewrite length_available_after in E.
    destruct sorted_alignments; [congruence | discriminate]. }
  destruct (first_is_Some _ Havail) as [first_alignment Hfirst].
  destruct (last_is_Some _ Havail) as [last_alignment Hlast].
  destruct (last_is_Some _ Hsorted) as [weakest Hweakest].
  exists sp', first_alignment, last_alignment, weakest.
  rewrite Hfirst, Hlast, Hweakest. repeat (split; [reflexivity |]).
  cbn [mbind option_bind]. cbv zeta.
  destruct (bool_decide (Alignment.get_start_overlapping_read_seq first_alignment ≠ _));
    cbn [mbind option_bind]; rewrite ?append_at_ensure_key; cbn [mbind option_bind];
    (destruct (bool_decide (Alignment.get_end_overlapping_read_seq last_alignment ≠ _));
     cbn [mbind option_bind]; rewrite ?append_at_ensure_key; reflexivity).
Qed.

End OverlapKeys.

(** ** When the constructors succeed *)

Section Construction.
Local Open Scope Q_scope.

Lemma weighted_average_pos (num_1 num_2 weight_1 weight_2 : Q) :
  0 < num_1 -> 0 < num_2 -> 0 < weight_1 -> 0 < weight_2 ->
  exists v, weighted_average num_1 num_2 weight_1 weight_2 = Some v /\ 0 < v.
Proof.
  intros H1 H2 Hw1 Hw2. unfold weighted_average.
  rewrite !div_is_Some by lra. cbn. eexists. split; [reflexivity |].
  assert (0 < weight_1 / (weight_1 + weight_2)) by (apply Qlt_shift_div_l; lra).
  assert (0 < weight_2 / (weight_1 + weight_2)) by (apply Qlt_shift_div_l; lra).
  nra.
Qed.

Lemma pop_snoc {A} (l : list A) (x : A) : pop (l ++ [x]) = Some (l, x).
Proof.
  unfold pop. rewrite last_snoc. cbn. by rewrite removelast_last.
Qed.

(** With end segments of positive depth and positive length without
    overlap, and with all the segments of the path in the graph, a contig
    bridge is built. *)
Lemma contig_bridge_is_built (graph : Graph.t) (start_segment end_segment : Z)
    (graph_path : list Z) (start_seg end_seg : Segment.t) :
  Graph.segments graph !! Z.abs start_segment = Some start_seg ->
  Graph.segments graph !! Z.abs end_segment = Some end_seg ->
  0 < Segment.depth start_seg -> 0 < Segment.depth end_seg ->
  (0 < Segment.get_length_no_overlap start_seg (Graph.overlap graph))%Z ->
  (0 < Segment.get_length_no_overlap end_seg (Graph.overlap graph))%Z ->
  (forall x, x ∈ graph_path -> is_Some (Graph.segments graph !! Z.abs x)) ->
  is_Some (SpadesContigBridge.init graph (start_segment :: graph_path ++ [end_segment])).
Proof.
  intros Hs He Hds Hde Hls Hle Hpath. unfold SpadesContigBridge.init.
  rewrite pop_snoc. cbn [mbind option_bind]. rewrite Hs, He. cbn [mbind option_bind].
  destruct (get_num_agreement_pos (Segment.depth start_seg) (Segment.depth end_seg))
    as [agreement ->]; [lra | assumption |].
  cbn [mbind option_bind].
  destruct (weighted_average_pos (Segment.depth start_seg) (Segment.depth end_seg)
              (inject_Z (Segment.get_length_no_overlap start_seg (Graph.overlap graph)))
              (inject_Z (Segment.get_length_no_overlap end_seg (Graph.overlap graph))))
    as (depth & Hdepth & Hpos); try assumption.
  { change 0 with (inject_Z 0). by rewrite <- Zlt_Qlt. }
  { change 0 with (inject_Z 0). by rewrite <- Zlt_Qlt. }
  unfold get_mean_depth. rewrite Hdepth. cbn [mbind option_bind].
  destruct (path_is_self_contained _ _ _ _); [| by eexists].
  match goal with |- context [for_each ?body ?l ?q0] =>
    destruct (fun Hbody => for_each_invariant (fun _ => True) body l Hbody q0 I)
      as (q & -> & _)
  end; [| by eexists].
  intros q x _ Hx.
  rewrite scale_by_segment_once by assumption.
  apply elem_of_elements, elem_of_list_to_set, list_elem_of_fmap in Hx as (y & -> & Hy).
  destruct (Hpath y Hy) as [seg ->]. cbn [mbind option_bind].
  destruct (get_num_agreement (Segment.depth seg) (1 * depth)) as [a |] eqn:Ha.
  - cbn. eauto.
  - apply get_num_agreement_None in Ha. lra.
Qed.

(** With, in addition, middle and repeat segments of positive length
    without overlap, a loop unrolling bridge is built. *)
Lemma loop_bridge_is_built (graph : Graph.t) (start end_ middle repeat_ : Z)
    (start_seg end_seg middle_seg repeat_seg : Segment.t) :
  Graph.segments graph !! Z.abs start = Some start_seg ->
  Graph.segments graph !! Z.abs end_ = Some end_seg ->
  Graph.segments graph !! Z.abs middle = Some middle_seg ->
  Graph.segments graph !! Z.abs repeat_ = Some repeat_seg ->
  0 < Segment.depth start_seg -> 0 < Segment.depth end_seg ->
  (0 < Segment.get_length_no_overlap start_seg (Graph.overlap graph))%Z ->
  (0 < Segment.get_length_no_overlap end_seg (Graph.overlap graph))%Z ->
  (0 < Segment.get_length_no_overlap middle_seg (Graph.overlap graph))%Z ->
  (0 < Segment.get_length_no_overlap repeat_seg (Graph.overlap graph))%Z ->
  is_Some (LoopUnrollingBridge.init graph start end_ middle repeat_).
Proof.
  intros Hs He Hm Hr Hds Hde Hls Hle Hlm Hlr. unfold LoopUnrollingBridge.init.
  rewrite Hs, He, Hm, Hr. cbn [mbind option_bind].
  destruct (get_num_agreement_pos (Segment.depth start_seg) (Segment.depth end_seg))
    as [agreement ->]; [lra | assumption |].
  cbn [mbind option_bind].
  assert (Hinj : forall z, (0 < z)%Z -> 0 < inject_Z z).
  { intros z Hz. change 0 with (inject_Z 0). by rewrite <- Zlt_Qlt. }
  destruct (weighted_average_pos (Segment.depth start_seg) (Segment.depth end_seg)
              (inject_Z (Segment.get_length_no_overlap start_seg (Graph.overlap graph)))
              (inject_Z (Segment.get_length_no_overlap end_seg (Graph.overlap graph))))
    as (depth & Hdepth & Hpos); auto.
  unfold get_mean_depth. rewrite Hdepth. cbn [mbind option_bind].
  unfold LoopUnrollingBridge.mean_loop_count, weighted_average.
  pose proof (Hinj _ Hlm). pose proof (Hinj _ Hlr).
  rewrite !div_is_Some by lra. cbn [mbind option_bind].
  destruct (LoopUnrollingBridge.loop_count_and_closeness _) as [loop_count closeness] eqn:Hlc.
  apply loop_count_and_closeness_bounds in Hlc as [Hcount _].
  rewrite div_is_Some; [by eexists |].
  assert (1 <= inject_Z loop_count) by (change 1 with (inject_Z 1); by rewrite <- Zle_Qle).
  lra.
Qed.

End Construction.

(** * Further properties of the module *)

(** ** The scoring helpers *)

Section ScoringProperties.
Local Open Scope Q_scope.

Lemma same_outcome_refl (a : option Q) : same_outcome a a.
Proof. destruct a; cbn; [reflexivity | exact I]. Qed.

Lemma Qeq_bool_proper (a b : Q) : a == b -> Qeq_bool a 0 = Qeq_bool b 0.
Proof.
  intros Hab. destruct (Qeq_bool a 0) eqn:Ea, (Qeq_bool b 0) eqn:Eb; try reflexivity.
  - apply Qeq_bool_iff in Ea. rewrite Hab in Ea. apply Qeq_bool_iff in Ea. congruence.
  - apply Qeq_bool_iff in Eb. rewrite <- Hab in Eb. apply Qeq_bool_iff in Eb. congruence.
Qed.

Lemma Qlt_bool_proper (a b c d : Q) :
  a == b -> c == d -> Py.Qlt_bool a c = Py.Qlt_bool b d.
Proof.
  intros Hab Hcd.
  destruct (Py.Qlt_bool a c) eqn:E1, (Py.Qlt_bool b d) eqn:E2; try reflexivity.
  - apply Qlt_bool_iff in E1. apply Qlt_bool_false in E2. lra.
  - apply Qlt_bool_false in E1. apply Qlt_bool_iff in E2. lra.
Qed.

Lemma div_proper (a b c d : Q) :
  a == b -> c == d -> same_outcome (Py.div a c) (Py.div b d).
Proof.
  intros Hab Hcd. unfold Py.div. rewrite (Qeq_bool_proper c d Hcd).
  destruct (Qeq_bool d 0); cbn; [exact I |]. by rewrite Hab, Hcd.
Qed.

(** Equal arguments give equal outcomes. *)
Lemma get_num_agreement_proper (a b c d : Q) :
  a == b -> c == d -> same_outcome (get_num_agreement a c) (get_num_agreement b d).
Proof.
  intros Hab Hcd. unfold get_num_agreement.
  rewrite (Qeq_bool_proper a b Hab), (Qeq_bool_proper c d Hcd).
  destruct (Qeq_bool b 0 && Qeq_bool d 0); [cbn; reflexivity |].
  rewrite (Qlt_bool_proper a b 0 0 Hab (Qeq_refl 0)),
          (Qlt_bool_proper c d 0 0 Hcd (Qeq_refl 0)).
  destruct (Py.Qlt_bool b 0 && Py.Qlt_bool d 0).
  - rewrite (Qlt_bool_proper (- a * - c) (- b * - d) 0 0) by (rewrite ?Hab, ?Hcd; reflexivity).
    destruct (Py.Qlt_bool (- b * - d) 0); [cbn; reflexivity |].
    apply div_proper; by rewrite Hab, Hcd.
  - rewrite (Qlt_bool_proper (a * c) (b * d) 0 0) by (rewrite ?Hab, ?Hcd; reflexivity).
    destruct (Py.Qlt_bool (b * d) 0); [cbn; reflexivity |].
    apply div_proper; by rewrite Hab, Hcd.
Qed.

(** X1.  [get_num_agreement] does not depend on the order of its
    arguments: it raises for both orders or for none, and the two values
    are equal. *)
Theorem get_num_agreement_symmetric (num_1 num_2 : Q) :
  same_outcome (get_num_agreement num_1 num_2) (get_num_agreement num_2 num_1).
Proof.
  unfold get_num_agreement. rewrite (andb_comm (Qeq_bool num_2 0)).
  destruct (Qeq_bool num_1 0 && Qeq_bool num_2 0); [cbn; reflexivity |].
  rewrite (andb_comm (Py.Qlt_bool num_2 0)).
  destruct (Py.Qlt_bool num_1 0 && Py.Qlt_bool num_2 0).
  - rewrite (Qlt_bool_proper (- num_2 * - num_1) (- num_1 * - num_2) 0 0) by ring.
    destruct (Py.Qlt_bool (- num_1 * - num_2) 0); [cbn; reflexivity |].
    apply div_proper; [apply Q.min_comm | apply Q.max_comm].
  - rewrite (Qlt_bool_proper (num_2 * num_1) (num_1 * num_2) 0 0) by ring.
    destruct (Py.Qlt_bool (num_1 * num_2) 0); [cbn; reflexivity |].
    apply div_proper; [apply Q.min_comm | apply Q.max_comm].
Qed.

(** X2.  [get_num_agreement] raises (division by zero) exactly when one
    argument is zero and the other is negative.  For two numbers of the
    same sign, both at least zero or both negative, it returns a value
    between 0 and 1. *)
Theorem get_num_agreement_value_or_raise (num_1 num_2 : Q) :
  (get_num_agreement num_1 num_2 = None <->
   (num_1 == 0 /\ num_2 < 0) \/ (num_1 < 0 /\ num_2 == 0)) /\
  ((0 <= num_1 /\ 0 <= num_2) \/ (num_1 < 0 /\ num_2 < 0) ->
   exists v, get_num_agreement num_1 num_2 = Some v /\ 0 <= v /\ v <= 1).
Proof.
  split; [apply get_num_agreement_None |].
  intros Hsign. destruct (get_num_agreement num_1 num_2) as [v |] eqn:E.
  - exists v. split; [reflexivity |]. by apply (get_num_agreement_range num_1 num_2).
  - apply get_num_agreement_None in E. lra.
Qed.

Lemma get_num_agreement_same (a : Q) :
  exists v, get_num_agreement a a = Some v /\ v == 1.
Proof.
  destruct (get_num_agreement a a) as [v |] eqn:E.
  2: { apply get_num_agreement_None in E. lra. }
  exists v. split; [reflexivity |].
  unfold get_num_agreement in E.
  destruct (Qeq_bool a 0 && Qeq_bool a 0) eqn:Hz; [by injection E as <- |].
  assert (Hnz : ~ a == 0).
  { intros H. apply Qeq_bool_iff in H. rewrite H in Hz. discriminate. }
  destruct (Py.Qlt_bool a 0 && Py.Qlt_bool a 0).
  - destruct (Py.Qlt_bool (- a * - a) 0) eqn:Hp; [apply Qlt_bool_iff in Hp; nra |].
    apply div_Some in E as [Hmax ->].
    rewrite Q.min_id, Q.max_id in *. field. lra.
  - destruct (Py.Qlt_bool (a * a) 0) eqn:Hp; [apply Qlt_bool_iff in Hp; nra |].
    apply div_Some in E as [Hmax ->].
    rewrite Q.min_id, Q.max_id in *. field. lra.
Qed.

(** X3.  The agreement is perfect exactly for equal arguments:
    [get_num_agreement] returns 1 if and only if its arguments are equal. *)
Theorem get_num_agreement_perfect (num_1 num_2 : Q) :
  (exists v, get_num_agreement num_1 num_2 = Some v /\ v == 1) <-> num_1 == num_2.
Proof.
  split.
  - intros (v & E & Hv). unfold get_num_agreement in E.
    destruct (Qeq_bool num_1 0 && Qeq_bool num_2 0) eqn:Hz.
    { apply andb_true_iff in Hz as [H1 H2]. apply Qeq_bool_iff in H1, H2. lra. }
    assert (Hratio : forall a b, ~ Qmax a b == 0 -> Qmin a b / Qmax a b == 1 -> a == b).
    { intros a b Hmax Hr.
      assert (Hmin : Qmin a b == Qmax a b).
      { rewrite <- (Qmult_1_l (Qmax a b)), <- Hr. field. assumption. }
      destruct (min_max_cases a b) as [(? & Ha & Hb) | (? & Ha & Hb)];
        rewrite Ha, Hb in Hmin; lra. }
    destruct (Py.Qlt_bool num_1 0 && Py.Qlt_bool num_2 0).
    + destruct (Py.Qlt_bool (- num_1 * - num_2) 0); [injection E as <-; lra |].
      apply div_Some in E as [Hmax ->].
      pose proof (Hratio _ _ Hmax Hv). lra.
    + destruct (Py.Qlt_bool (num_1 * num_2) 0); [injection E as <-; lra |].
      apply div_Some in E as [Hmax ->]. by apply Hratio.
  - intros Heq. destruct (get_num_agreement_same num_2) as (v & Hv & Hv1).
    pose proof (get_num_agreement_proper num_1 num_2 num_2 num_2 Heq (Qeq_refl _)) as Hsame.
    rewrite Hv in Hsame. destruct (get_num_agreement num_1 num_2) as [w |]; [| destruct Hsame].
    exists w. split; [reflexivity |]. cbn in Hsame. by rewrite Hsame.
Qed.

End ScoringProperties.

Section AverageProperties.
Local Open Scope Q_scope.

Lemma weighted_average_value (num_1 num_2 weight_1 weight_2 v : Q) :
  weighted_average num_1 num_2 weight_1 weight_2 = Some v ->
  ~ weight_1 + weight_2 == 0 /\
  v == (num_1 * weight_1 + num_2 * weight_2) / (weight_1 + weight_2).
Proof.
  unfold weighted_average. intros H. bind_inversion H. injection H as <-.
  apply div_Some in E as [Hsum ->]. apply div_Some in E0 as [_ ->].
  split; [assumption | field; assumption].
Qed.

Lemma weighted_average_None (num_1 num_2 weight_1 weight_2 : Q) :
  weighted_average num_1 num_2 weight_1 weight_2 = None <-> weight_1 + weight_2 == 0.
Proof.
  unfold weighted_average. split.
  - intros H. destruct (Py.div weight_1 (weight_1 + weight_2)) eqn:E1.
    + cbn in H. destruct (Py.div weight_2 (weight_1 + weight_2)) eqn:E2; [discriminate |].
      by apply div_None in E2.
    + by apply div_None in E1.
  - intros H. by rewrite (proj2 (div_None weight_1 _) H).
Qed.

Lemma weighted_average_swap (num_1 num_2 weight_1 weight_2 : Q) :
  same_outcome (weighted_average num_1 num_2 weight_1 weight_2)
               (weighted_average num_2 num_1 weight_2 weight_1).
Proof.
  destruct (weighted_average num_1 num_2 weight_1 weight_2) as [v |] eqn:E1,
           (weighted_average num_2 num_1 weight_2 weight_1) as [w |] eqn:E2; cbn.
  - apply weighted_average_value in E1 as [H1 ->].
    apply weighted_average_value in E2 as [H2 ->]. field. lra.
  - apply weighted_average_value in E1 as [H1 _].
    apply weighted_average_None in E2. lra.
  - apply weighted_average_value in E2 as [H2 _].
    apply weighted_average_None in E1. lra.
  - exact I.
Qed.

Lemma weighted_average_zero_weight (num_1 num_2 weight_1 weight_2 : Q) :
  weight_2 == 0 -> ~ weight_1 == 0 ->
  exists v, weighted_average num_1 num_2 weight_1 weight_2 = Some v /\ v == num_1.
Proof.
  intros H2 H1.
  destruct (weighted_average num_1 num_2 weight_1 weight_2) as [v |] eqn:E.
  - exists v. split; [reflexivity |].
    apply weighted_average_value in E as [Hsum ->]. rewrite H2. field. exact H1.
  - apply weighted_average_None in E. lra.
Qed.

(** X5.  [weighted_average] raises exactly when the two weights add up to
    zero.  It does not depend on which of the two weighted numbers comes
    first.  A number whose weight is zero is left out: the average is the
    other number. *)
Theorem weighted_average_properties (num_1 num_2 weight_1 weight_2 : Q) :
  (weighted_average num_1 num_2 weight_1 weight_2 = None <-> weight_1 + weight_2 == 0) /\
  same_outcome (weighted_average num_1 num_2 weight_1 weight_2)
               (weighted_average num_2 num_1 weight_2 weight_1) /\
  (weight_2 == 0 -> ~ weight_1 == 0 ->
   exists v, weighted_average num_1 num_2 weight_1 weight_2 = Some v /\ v == num_1).
Proof.
  split; [apply weighted_average_None |].
  split; [apply weighted_average_swap | apply weighted_average_zero_weight].
Qed.

(** X6.  The mean depth of two segments does not depend on their order;
    it raises exactly when their lengths without overlap add up to zero;
    and a segment whose length without overlap is zero is left out: the
    mean depth is the depth of the other segment. *)
Theorem get_mean_depth_properties (seg_1 seg_2 : Segment.t) (graph : Graph.t) :
  same_outcome (get_mean_depth seg_1 seg_2 graph) (get_mean_depth seg_2 seg_1 graph) /\
  (get_mean_depth seg_1 seg_2 graph = None <->
   (Segment.get_length_no_overlap seg_1 (Graph.overlap graph)
    + Segment.get_length_no_overlap seg_2 (Graph.overlap graph) = 0)%Z) /\
  ((Segment.get_length_no_overlap seg_2 (Graph.overlap graph) = 0)%Z ->
   (Segment.get_length_no_overlap seg_1 (Graph.overlap graph) <> 0)%Z ->
   exists depth,
     get_mean_depth seg_1 seg_2 graph = Some depth /\ depth == Segment.depth seg_1).
Proof.
  unfold get_mean_depth.
  set (l1 := Segment.get_length_no_overlap seg_1 (Graph.overlap graph)).
  set (l2 := Segment.get_length_no_overlap seg_2 (Graph.overlap graph)).
  split; [apply weighted_average_swap |]. split.
  - rewrite weighted_average_None, <- inject_Z_plus.
    change 0 with (inject_Z 0). by rewrite inject_Z_injective.
  - intros H2 H1. apply weighted_average_zero_weight.
    + rewrite H2. reflexivity.
    + change 0 with (inject_Z 0). by rewrite inject_Z_injective.
Qed.

End AverageProperties.

(** ** Self-contained paths *)

(** X7.  [path_is_self_contained] answers [True] exactly when every segment
    connected to a segment of the path is the start, the end or a segment
    of the path, all taken without their sign; in particular the empty
    path is self-contained in every graph, and the signs of the start and
    of the end do not matter. *)
Theorem path_is_self_contained_spec (path : list Z) (start end_ : Z) (graph : Graph.t) :
  (path_is_self_contained path start end_ graph = true <->
   forall segment connected_segment,
     segment ∈ path ->
     connected_segment ∈ Graph.get_connected_segments graph segment ->
     connected_segment = Z.abs start \/ connected_segment = Z.abs end_
     \/ exists x, x ∈ path /\ connected_segment = Z.abs x) /\
  path_is_self_contained [] start end_ graph = true /\
  path_is_self_contained path (- start) (- end_) graph
  = path_is_self_contained path start end_ graph.
Proof.
  split; [| split; [reflexivity |]].
  - unfold path_is_self_contained. rewrite forallb_forall. split.
    + intros H segment connected Hs Hc.
      apply list_elem_of_In in Hs. specialize (H segment Hs).
      rewrite forallb_forall in H. apply list_elem_of_In in Hc.
      specialize (H connected Hc). apply bool_decide_eq_true in H.
      rewrite !elem_of_union, !elem_of_singleton, elem_of_list_to_set in H.
      destruct H as [[H | H] | H]; [by left | right; by left | right; right].
      apply list_elem_of_fmap in H as (x & -> & Hx). by exists x.
    + intros H segment Hs. rewrite forallb_forall. intros connected Hc.
      apply list_elem_of_In in Hs, Hc. apply bool_decide_eq_true.
      rewrite !elem_of_union, !elem_of_singleton, elem_of_list_to_set.
      destruct (H segment connected Hs Hc) as [-> | [-> | (x & Hx & ->)]];
        [left; by left | left; by right | right].
      apply list_elem_of_fmap. by exists x.
  - unfold path_is_self_contained. by rewrite !Z.abs_opp.
Qed.

(** ** Candidate bridge paths of a contig path *)

Lemma anchor_test (single_copy_numbers : list Z) (x : Z) :
  bool_decide (x ∈ single_copy_numbers) || bool_decide (- x ∈ single_copy_numbers) = true
  <-> is_anchor single_copy_numbers x.
Proof.
  unfold is_anchor. by rewrite orb_true_iff, !bool_decide_eq_true.
Qed.

Lemma scan_to_single_copy_spec (single_copy_numbers rest bridge_tail : list Z) :
  scan_to_single_copy single_copy_numbers rest = Some bridge_tail <->
  exists middle y after,
    rest = middle ++ y :: after /\ bridge_tail = middle ++ [y] /\
    is_anchor single_copy_numbers y /\
    Forall (fun m => ~ is_anchor single_copy_numbers m) middle.
Proof.
  revert bridge_tail. induction rest as [| x rest IH]; intros bridge_tail; cbn.
  - split; [discriminate |]. intros (middle & y & after & H & _). by destruct middle.
  - destruct (_ || _) eqn:Hx.
    + apply anchor_test in Hx. split.
      * intros [= <-]. exists [], x, rest. repeat split; auto.
      * intros (middle & y & after & Hrest & -> & Hy & Hmid).
        destruct middle as [| m middle]; cbn in Hrest; injection Hrest as -> ->.
        -- reflexivity.
        -- apply Forall_cons in Hmid as [Hm _]. contradiction.
    + assert (Hnx : ~ is_anchor single_copy_numbers x).
      { intros H. apply anchor_test in H. congruence. }
      destruct (scan_to_single_copy single_copy_numbers rest) as [t |] eqn:E; cbn.
      * destruct (proj1 (IH t) eq_refl) as (middle & y & after & -> & -> & Hy & Hmid).
        split.
        -- intros [= <-]. exists (x :: middle), y, after.
           repeat split; auto.
        -- intros (middle' & y' & after' & Hrest & -> & Hy' & Hmid').
           destruct middle' as [| m middle']; cbn in Hrest; injection Hrest as -> Hrest.
           { contradiction. }
           apply Forall_cons in Hmid' as [_ Hmid'].
           assert (Hsome : Some (middle ++ [y]) = Some (middle' ++ [y'])).
           { apply IH. exists middle', y', after'. auto. }
           injection Hsome as ->. reflexivity.
      * split; [discriminate |].
        intros (middle' & y' & after' & Hrest & -> & Hy' & Hmid').
        destruct middle' as [| m middle']; cbn in Hrest; injection Hrest as -> Hrest.
        { contradiction. }
        apply Forall_cons in Hmid' as [_ Hmid'].
        assert (Hnone : None = Some (middle' ++ [y'])).
        { apply IH. exists middle', y', after'. auto. }
        discriminate.
Qed.

(** X8.  The candidates [find_contig_bridges] returns are exactly the
    pieces of the path that start on the given segment, in either
    orientation, and run up to the next single-copy segment, with no
    single-copy segment in between; a start that is not followed by a
    single-copy segment gives no candidate. *)
Theorem find_contig_bridges_spec (segment_num : Z) (path single_copy_numbers c : list Z) :
  c ∈ find_contig_bridges segment_num path single_copy_numbers <->
  exists before x middle y after,
    path = before ++ x :: middle ++ y :: after /\
    c = x :: middle ++ [y] /\
    Z.abs x = segment_num /\
    is_anchor single_copy_numbers y /\
    Forall (fun m => ~ is_anchor single_copy_numbers m) middle.
Proof.
  induction path as [| x path IH]; cbn [find_contig_bridges].
  - split; [intros H; by apply elem_of_nil in H |].
    intros (before & ? & ? & ? & ? & H & _). by destruct before.
  - rewrite elem_of_app, IH. split.
    + intros [Hc | (before & x' & middle & y & after & -> & -> & Hx & Hy & Hmid)].
      * destruct (Z.abs x =? segment_num) eqn:Hx; [| by apply elem_of_nil in Hc].
        apply Z.eqb_eq in Hx.
        destruct (scan_to_single_copy single_copy_numbers path) as [t |] eqn:E;
          [| by apply elem_of_nil in Hc].
        apply list_elem_of_singleton in Hc as ->.
        apply scan_to_single_copy_spec in E as (middle & y & after & -> & -> & Hy & Hmid).
        exists [], x, middle, y, after. repeat split; auto.
      * exists (x :: before), x', middle, y, after. repeat split; auto.
    + intros (before & x' & middle & y & after & Hpath & -> & Hx & Hy & Hmid).
      destruct before as [| b before]; cbn in Hpath; injection Hpath as -> ->.
      * left. apply Z.eqb_eq in Hx. rewrite Hx.
        assert (E : scan_to_single_copy single_copy_numbers (middle ++ y :: after)
                    = Some (middle ++ [y])).
        { apply scan_to_single_copy_spec. exists middle, y, after. auto. }
        rewrite E. by left.
      * right. exists before, x', middle, y, after. repeat split; auto.
Qed.

(** ** The set of bridge paths *)

Lemma for_each_flat_map {A B S} (body : S -> B -> option S) (f : A -> list B)
    (l : list A) (s : S) :
  for_each (fun s x => for_each body (f x) s) l s = for_each body (flat_map f l) s.
Proof.
  revert s. induction l as [| x l IH]; intros s; cbn [for_each flat_map]; [reflexivity |].
  rewrite for_each_app. destruct (for_each body (f x) s); cbn; [apply IH | reflexivity].
Qed.

Lemma for_each_ext {A S} (body body' : S -> A -> option S) (l : list A) (s : S) :
  (forall s x, body s x = body' s x) -> for_each body l s = for_each body' l s.
Proof.
  intros Hbody. revert s. induction l as [| x l IH]; intros s; cbn [for_each]; [reflexivity |].
  rewrite Hbody. destruct (body' s x); cbn; [apply IH | reflexivity].
Qed.

Lemma collect_bridge_paths_candidates (graph : Graph.t) (single_copy_segments : list Segment.t) :
  collect_bridge_paths graph single_copy_segments
  = for_each add_contig_bridge (contig_bridge_candidates graph single_copy_segments) ∅.
Proof.
  unfold collect_bridge_paths, contig_bridge_candidates.
  rewrite <- for_each_flat_map. apply for_each_ext.
  intros s segment. apply for_each_flat_map.
Qed.

(** X9.  The set of bridge paths is always built (no candidate is empty,
    so no index is out of range).  It holds every candidate of the contig
    paths in one orientation: as it is or reverse complemented, and only
    when the two are the same path as both.  Every path it holds comes from
    a candidate, has at least two elements and has a first or a last
    element that is not negative. *)
Theorem collect_bridge_paths_properties (graph : Graph.t)
    (single_copy_segments : list Segment.t) :
  exists bridge_path_set,
    collect_bridge_paths graph single_copy_segments = Some bridge_path_set /\
    (forall c, c ∈ contig_bridge_candidates graph single_copy_segments ->
       (c ∈ bridge_path_set \/ reverse_complement_path c ∈ bridge_path_set) /\
       (c ∈ bridge_path_set -> reverse_complement_path c ∈ bridge_path_set ->
        c = reverse_complement_path c)) /\
    (forall p, p ∈ bridge_path_set ->
       (p ∈ contig_bridge_candidates graph single_copy_segments
        \/ reverse_complement_path p ∈ contig_bridge_candidates graph single_copy_segments) /\
       (2 <= length p)%nat /\
       ~ both_negative p).
Proof.
  rewrite collect_bridge_paths_candidates.
  assert (Hlen : forall c, c ∈ contig_bridge_candidates graph single_copy_segments ->
                           (2 <= length c)%nat).
  { intros c Hc. unfold contig_bridge_candidates in Hc.
    apply list_elem_of_In, in_flat_map in Hc as (segment & _ & Hc).
    apply in_flat_map in Hc as (path & _ & Hc).
    apply list_elem_of_In, elem_of_app in Hc as [Hc | Hc];
      by apply find_contig_bridges_nonempty in Hc. }
  destruct (for_each_add_contig_bridge
              (contig_bridge_candidates graph single_copy_segments) ∅)
    as (final & Hfinal & [Hpair Hends] & _ & Hcover & Horigin).
  { apply Forall_forall. intros c Hc. apply Hlen in Hc. destruct c; cbn in Hc; [lia | done]. }
  { split; intros p Hp; by apply elem_of_empty in Hp. }
  exists final. split; [assumption |]. split.
  - intros c Hc. split; [by apply Hcover | by apply Hpair].
  - intros p Hp.
    assert (Hfrom : p ∈ contig_bridge_candidates graph single_copy_segments
                    \/ reverse_complement_path p
                         ∈ contig_bridge_candidates graph single_copy_segments).
    { destruct (Horigin p Hp) as [H | H]; [by apply elem_of_empty in H | assumption]. }
    split; [assumption |]. split; [| by apply Hends].
    destruct Hfrom as [H | H]; apply Hlen in H; [assumption |].
    unfold reverse_complement_path in H. by rewrite length_map, length_rev in H.
Qed.

(** ** The contig bridge constructor *)

Lemma pop_Some {A} (l l' : list A) (x : A) : pop l = Some (l', x) -> l = l' ++ [x].
Proof.
  unfold pop. intros H. bind_inversion H. injection H as <- <-.
  destruct l as [| y l] using rev_ind; [discriminate |].
  rewrite last_snoc in E. injection E as ->. by rewrite removelast_last.
Qed.

Lemma contig_bridge_init_parts (graph : Graph.t) (path : list Z) (b : SpadesContigBridge.t) :
  SpadesContigBridge.init graph path = Some b ->
  path = SpadesContigBridge.start_segment b
         :: SpadesContigBridge.graph_path b ++ [SpadesContigBridge.end_segment b] /\
  exists start_seg end_seg depth_agreement,
    Graph.segments graph !! Z.abs (SpadesContigBridge.start_segment b) = Some start_seg /\
    Graph.segments graph !! Z.abs (SpadesContigBridge.end_segment b) = Some end_seg /\
    get_num_agreement (Segment.depth start_seg) (Segment.depth end_seg)
    = Some depth_agreement /\
    get_mean_depth start_seg end_seg graph = Some (SpadesContigBridge.depth b) /\
    SpadesContigBridge.bridge_sequence b
    = Graph.get_path_sequence graph (SpadesContigBridge.graph_path b) /\
    (path_is_self_contained (SpadesContigBridge.graph_path b)
       (SpadesContigBridge.start_segment b) (SpadesContigBridge.end_segment b) graph = false ->
     SpadesContigBridge.quality b = (20 * (depth_agreement * depth_agreement))%Q) /\
    (SpadesContigBridge.graph_path b = [] ->
     SpadesContigBridge.quality b = (20 * (depth_agreement * depth_agreement))%Q).
Proof.
  intros Hinit. unfold SpadesContigBridge.init in Hinit.
  destruct path as [| start_segment rest]; [discriminate |].
  bind_inversion Hinit. destruct p as [graph_path end_segment].
  bind_inversion Hinit. injection Hinit as <-.
  cbn [SpadesContigBridge.start_segment SpadesContigBridge.end_segment
       SpadesContigBridge.graph_path SpadesContigBridge.depth
       SpadesContigBridge.quality SpadesContigBridge.bridge_sequence].
  apply pop_Some in E as ->. split; [reflexivity |].
  exists t, t0, q. repeat split; try assumption.
  - intros Hsc. rewrite Hsc in E4. by injection E4.
  - intros ->. cbn in E4. rewrite elements_empty in E4. cbn in E4. by injection E4.
Qed.

(** X10.  The contig bridge constructor raises on a path of fewer than two
    segments and when an end segment is not in the graph.  When it
    returns, the start, the path and the end it stores put together give
    back the path it was given; the depth is the mean depth of the two end
    segments; and when the path between the ends is empty or is not
    self-contained the quality is 20 times the square of the agreement of
    the end depths. *)
Theorem contig_bridge_init_properties (graph : Graph.t) (path : list Z) :
  ((length path < 2)%nat -> SpadesContigBridge.init graph path = None) /\
  (forall start_segment end_segment,
      Py.first path = Some start_segment -> Py.last path = Some end_segment ->
      Graph.segments graph !! Z.abs start_segment = None
      \/ Graph.segments graph !! Z.abs end_segment = None ->
      SpadesContigBridge.init graph path = None) /\
  (forall b,
      SpadesContigBridge.init graph path = Some b ->
      path = SpadesContigBridge.start_segment b
             :: SpadesContigBridge.graph_path b ++ [SpadesContigBridge.end_segment b] /\
      exists start_seg end_seg depth_agreement,
        Graph.segments graph !! Z.abs (SpadesContigBridge.start_segment b) = Some start_seg /\
        Graph.segments graph !! Z.abs (SpadesContigBridge.end_segment b) = Some end_seg /\
        get_num_agreement (Segment.depth start_seg) (Segment.depth end_seg)
        = Some depth_agreement /\
        get_mean_depth start_seg end_seg graph = Some (SpadesContigBridge.depth b) /\
        SpadesContigBridge.bridge_sequence b
        = Graph.get_path_sequence graph (SpadesContigBridge.graph_path b) /\
        (path_is_self_contained (SpadesContigBridge.graph_path b)
           (SpadesContigBridge.start_segment b) (SpadesContigBridge.end_segment b) graph
         = false ->
         SpadesContigBridge.quality b = (20 * (depth_agreement * depth_agreement))%Q) /\
        (SpadesContigBridge.graph_path b = [] ->
         SpadesContigBridge.quality b = (20 * (depth_agreement * depth_agreement))%Q)).
Proof.
  split; [| split].
  - intros Hlen. destruct path as [| x [| y path]]; cbn in Hlen; try lia; reflexivity.
  - intros start_segment end_segment Hfirst Hlast Hmissing.
    destruct (SpadesContigBridge.init graph path) as [b |] eqn:Hinit; [| reflexivity].
    apply contig_bridge_init_parts in Hinit
      as (Hpath & start_seg & end_seg & a & Hs & He & _).
    rewrite Hpath in Hfirst, Hlast. cbn in Hfirst. injection Hfirst as <-.
    rewrite app_comm_cons, last_snoc in Hlast. injection Hlast as <-.
    destruct Hmissing; congruence.
  - apply contig_bridge_init_parts.
Qed.

(** ** The bridges of the contig bridge builder *)

Lemma final_bridge_paths_NoDup (bridge_path_list final : list (list Z)) :
  NoDup bridge_path_list ->
  final_bridge_paths bridge_path_list = Some final ->
  NoDup final.
Proof.
  intros Hnodup Hfinal. unfold final_bridge_paths in Hfinal.
  bind_inversion Hfinal. injection Hfinal as <-.
  apply NoDup_ListNoDup, List.NoDup_filter. by apply NoDup_ListNoDup.
Qed.

Lemma share_key_ends (p q : list Z) (ps pe qs qe : Z) :
  Py.first p = Some ps -> Py.last p = Some pe ->
  Py.first q = Some qs -> Py.last q = Some qe ->
  ps = qs \/ pe = qe \/ ps = - qe \/ pe = - qs ->
  share_key p q.
Proof.
  intros Hps Hpe Hqs Hqe H. unfold share_key, start_keys, end_keys.
  rewrite Hps, Hpe, Hqs, Hqe.
  destruct H as [-> | [-> | [-> | ->]]].
  - left. exists qs. split; by left.
  - right. exists qe. split; by left.
  - left. exists (- qe). split; [by left | right; by left].
  - left. exists qs. rewrite Z.opp_involutive. split; [right; by left | by left].
Qed.

(** X11.  The bridges the contig bridge builder returns never compete for
    a segment: two of them never leave from the same signed segment, never
    arrive on the same signed segment, and neither leaves from the reverse
    complement of the segment the other arrives on.  Each of them spells a
    path of the set of bridge paths. *)
Theorem create_spades_contig_bridges_no_conflict (graph : Graph.t)
    (single_copy_segments : list Segment.t) (verbosity : Z)
    (bridges : list SpadesContigBridge.t) :
  create_spades_contig_bridges graph single_copy_segments verbosity = Some bridges ->
  (forall i j b1 b2,
      i <> j -> bridges !! i = Some b1 -> bridges !! j = Some b2 ->
      SpadesContigBridge.start_segment b1 <> SpadesContigBridge.start_segment b2 /\
      SpadesContigBridge.end_segment b1 <> SpadesContigBridge.end_segment b2 /\
      SpadesContigBridge.start_segment b1 <> - SpadesContigBridge.end_segment b2) /\
  (forall b, b ∈ bridges ->
      exists bridge_path_set,
        collect_bridge_paths graph single_copy_segments = Some bridge_path_set /\
        SpadesContigBridge.start_segment b
        :: SpadesContigBridge.graph_path b ++ [SpadesContigBridge.end_segment b]
        ∈ bridge_path_set).
Proof.
  intros Hrun.
  destruct (create_spades_contig_bridges_spec graph single_copy_segments verbosity)
    as (bridge_path_set & final & Hset & Hfinal & Hspec & Hcreate).
  rewrite Hcreate in Hrun. apply mapM_Some in Hrun.
  assert (Hnodup : NoDup final).
  { apply (final_bridge_paths_NoDup (sorted_paths (elements bridge_path_set)));
      [| assumption].
    unfold sorted_paths. rewrite merge_sort_Permutation. apply NoDup_elements. }
  assert (Hends : forall p b, SpadesContigBridge.init graph p = Some b ->
            p = SpadesContigBridge.start_segment b
                :: SpadesContigBridge.graph_path b ++ [SpadesContigBridge.end_segment b] /\
            Py.first p = Some (SpadesContigBridge.start_segment b) /\
            Py.last p = Some (SpadesContigBridge.end_segment b)).
  { intros p b Hinit. apply contig_bridge_init_parts in Hinit as [Hp _].
    split; [assumption |]. rewrite Hp. split; [reflexivity |].
    by rewrite app_comm_cons, last_snoc. }
  split.
  - intros i j b1 b2 Hij H1 H2.
    destruct (Forall2_lookup_r _ _ _ _ _ Hrun H1) as (p1 & Hp1 & Hinit1).
    destruct (Forall2_lookup_r _ _ _ _ _ Hrun H2) as (p2 & Hp2 & Hinit2).
    assert (Hne : p2 <> p1).
    { intros ->. apply Hij. by apply (NoDup_lookup final i j p1). }
    apply Hends in Hinit1 as (_ & Hs1 & He1). apply Hends in Hinit2 as (_ & Hs2 & He2).
    apply list_elem_of_lookup_2 in Hp1, Hp2.
    apply Hspec in Hp1 as [Hin1 Hfree1]. apply Hspec in Hp2 as [Hin2 Hfree2].
    assert (Hshare : ~ share_key p1 p2).
    { intros Hshare. apply Hfree1. right. exists p2.
      split; [| split; [assumption | assumption]].
      unfold sorted_paths. rewrite merge_sort_Permutation. by apply elem_of_elements. }
    repeat split; intros Heq; apply Hshare;
      apply (share_key_ends p1 p2 _ _ _ _ Hs1 He1 Hs2 He2); auto.
  - intros b Hb. exists bridge_path_set. split; [assumption |].
    apply list_elem_of_lookup in Hb as [i Hi].
    destruct (Forall2_lookup_r _ _ _ _ _ Hrun Hi) as (p & Hp & Hinit).
    apply Hends in Hinit as (<- & _). apply list_elem_of_lookup_2 in Hp.
    by apply Hspec in Hp as [Hin _].
Qed.

Lemma create_spades_contig_bridges_no_conflict_witness :
  exists b1 b2,
    create_spades_contig_bridges two_bridge_graph two_bridge_segments 0 = Some [b1; b2] /\
    SpadesContigBridge.start_segment b1 = 1 /\ SpadesContigBridge.end_segment b1 = 2 /\
    SpadesContigBridge.start_segment b2 = 3 /\ SpadesContigBridge.end_segment b2 = 4 /\
    SpadesContigBridge.start_segment b1 <> SpadesContigBridge.start_segment b2 /\
    SpadesContigBridge.end_segment b1 <> SpadesContigBridge.end_segment b2 /\
    SpadesContigBridge.start_segment b1 <> - SpadesContigBridge.end_segment b2.
Proof.
  assert (Hrun : exists b1 b2,
             create_spades_contig_bridges two_bridge_graph two_bridge_segments 0
             = Some [b1; b2] /\
             SpadesContigBridge.start_segment b1 = 1 /\
             SpadesContigBridge.end_segment b1 = 2 /\
             SpadesContigBridge.start_segment b2 = 3 /\
             SpadesContigBridge.end_segment b2 = 4).
  { eexists _, _. split; [vm_compute; reflexivity |]. repeat split; reflexivity. }
  destruct Hrun as (b1 & b2 & Hrun & Hs1 & He1 & Hs2 & He2).
  exists b1, b2. split; [exact Hrun |].
  split; [exact Hs1 |]. split; [exact He1 |]. split; [exact Hs2 |]. split; [exact He2 |].
  apply (proj1 (create_spades_contig_bridges_no_conflict two_bridge_graph
                  two_bridge_segments 0 [b1; b2] Hrun) 0%nat 1%nat b1 b2);
    [lia | reflexivity | reflexivity].
Defined.

(** X12.  Whether the depth scaling loop of the contig bridge constructor
    raises does not depend on the order in which the set of path segments
    is visited: a segment that is missing from the graph, or whose depth
    cannot be compared with the expected depth, stops the loop in every
    order. *)
Theorem contig_quality_order_independent (graph : Graph.t)
    (graph_path_pos_nums reordered : list Z) (depth quality : Q) :
  graph_path_pos_nums ≡ₚ reordered ->
  for_each (SpadesContigBridge.scale_by_segment graph graph_path_pos_nums depth)
           graph_path_pos_nums quality = None
  <-> for_each (SpadesContigBridge.scale_by_segment graph reordered depth)
               reordered quality = None.
Proof.
  intros Hperm.
  pose proof (for_each_scale_permutation graph graph_path_pos_nums reordered
                graph_path_pos_nums reordered depth quality Hperm Hperm) as Hsame.
  destruct (for_each _ graph_path_pos_nums quality), (for_each _ reordered quality);
    cbn in Hsame; split; intros H; try discriminate H; try reflexivity; contradiction.
Qed.

Lemma contig_quality_order_independent_witness :
  [4; 7] ≡ₚ [7; 4] /\
  for_each (SpadesContigBridge.scale_by_segment twice_graph [4; 7] 15) [4; 7] 20%Q = None /\
  for_each (SpadesContigBridge.scale_by_segment twice_graph [7; 4] 15) [7; 4] 20%Q = None.
Proof.
  assert (H : [4; 7] ≡ₚ [7; 4]) by apply Permutation_swap.
  assert (Hraise : for_each (SpadesContigBridge.scale_by_segment twice_graph [4; 7] 15)
                            [4; 7] 20%Q = None) by reflexivity.
  split; [exact H |]. split; [exact Hraise |].
  apply (contig_quality_order_independent twice_graph [4; 7] [7; 4] 15 20 H). exact Hraise.
Defined.

(** ** The loop unrolling constructor *)

Section LoopProperties.
Local Open Scope Q_scope.

Lemma Qfloor_unique (x : Q) (n : Z) :
  inject_Z n <= x -> x < inject_Z n + 1 -> Qfloor x = n.
Proof.
  intros Hlo Hhi. apply Z.le_antisymm.
  - apply Z.lt_succ_r. rewrite Zlt_Qlt. unfold Z.succ. rewrite inject_Z_plus.
    pose proof (Qfloor_le x). change (inject_Z 1) with 1. lra.
  - rewrite <- (Qfloor_Z n). by apply Qfloor_resp_le.
Qed.

Lemma round_nearest (e : Q) :
  0 <= e ->
  Qabs (e - inject_Z (Py.round e)) <= 1 # 2 /\
  Qmin (Py.mod1 e) (1 - Py.mod1 e) == Qabs (e - inject_Z (Py.round e)).
Proof.
  intros He. unfold Py.round, Py.mod1.
  destruct (Py.Qlt_bool e 0) eqn:Hneg; [apply Qlt_bool_iff in Hneg; lra |].
  pose proof (Qfloor_le e) as Hlo. pose proof (Qlt_floor e) as Hhi.
  rewrite inject_Z_plus in Hhi. change (inject_Z 1) with 1 in Hhi.
  set (n := Qfloor e) in *.
  destruct (Qlt_le_dec (e - inject_Z n) (1 # 2)) as [Hfrac | Hfrac].
  - assert (Hr : Qfloor (e + (1 # 2)) = n) by (apply Qfloor_unique; lra).
    rewrite Hr. rewrite (Qabs_pos (e - inject_Z n)) by lra.
    split; [lra |]. apply Q.min_l. lra.
  - assert (Hr : Qfloor (e + (1 # 2)) = (n + 1)%Z).
    { apply Qfloor_unique; rewrite inject_Z_plus; change (inject_Z 1) with 1; lra. }
    rewrite Hr, inject_Z_plus. change (inject_Z 1) with 1.
    rewrite (Qabs_neg (e - (inject_Z n + 1))) by lra.
    split; [lra |]. rewrite Q.min_r by lra. ring.
Qed.

(** X13.  The loop count is never less than one.  When the mean loop count
    is at least one, the loop count is an integer nearest to it, the
    closeness is one minus twice the distance between the two, and so lies
    between 0 and 1. *)
Theorem loop_count_nearest (mean_loop_count : Q) :
  (1 <= fst (LoopUnrollingBridge.loop_count_and_closeness mean_loop_count))%Z /\
  snd (LoopUnrollingBridge.loop_count_and_closeness mean_loop_count) <= 1 /\
  (1 <= mean_loop_count ->
   let loop_count := fst (LoopUnrollingBridge.loop_count_and_closeness mean_loop_count) in
   let closeness := snd (LoopUnrollingBridge.loop_count_and_closeness mean_loop_count) in
   Qabs (mean_loop_count - inject_Z loop_count) <= 1 # 2 /\
   closeness == 1 - 2 * Qabs (mean_loop_count - inject_Z loop_count) /\
   0 <= closeness).
Proof.
  destruct (LoopUnrollingBridge.loop_count_and_closeness mean_loop_count)
    as [loop_count closeness] eqn:Hlc.
  pose proof (loop_count_and_closeness_bounds _ _ _ Hlc) as (H1 & H2 & H3).
  cbn [fst snd]. split; [assumption |]. split; [assumption |].
  intros He. rewrite loop_count_and_closeness_high in Hlc by assumption.
  injection Hlc as <- <-.
  destruct (round_nearest mean_loop_count) as [Hdist Hmin]; [lra |].
  split; [assumption |]. split; [by rewrite Hmin |]. rewrite Hmin. lra.
Qed.

End LoopProperties.

(** X14.  With end segments of positive depth and of positive length
    without overlap, and with every segment of the path in the graph, the
    contig bridge constructor does not raise. *)
Theorem contig_bridge_constructor_succeeds (graph : Graph.t) (start_segment end_segment : Z)
    (graph_path : list Z) (start_seg end_seg : Segment.t) :
  Graph.segments graph !! Z.abs start_segment = Some start_seg ->
  Graph.segments graph !! Z.abs end_segment = Some end_seg ->
  (0 < Segment.depth start_seg)%Q -> (0 < Segment.depth end_seg)%Q ->
  0 < Segment.get_length_no_overlap start_seg (Graph.overlap graph) ->
  0 < Segment.get_length_no_overlap end_seg (Graph.overlap graph) ->
  (forall x, x ∈ graph_path -> is_Some (Graph.segments graph !! Z.abs x)) ->
  is_Some (SpadesContigBridge.init graph (start_segment :: graph_path ++ [end_segment])).
Proof. apply contig_bridge_is_built. Qed.

Lemma contig_bridge_constructor_succeeds_witness :
  is_Some (SpadesContigBridge.init twice_graph (1 :: [4; 4] ++ [2])).
Proof.
  apply (contig_bridge_constructor_succeeds twice_graph 1 2 [4; 4]
           (example_segment 1 10 100) (example_segment 2 10 100));
    try reflexivity.
  intros x Hx. apply elem_of_cons in Hx as [-> | Hx];
    [| apply elem_of_cons in Hx as [-> | Hx]; [| by apply elem_of_nil in Hx]];
    by exists (example_segment 4 20 50).
Defined.

(** X16.  When both end segments have depth zero the loop unrolling
    constructor raises: the end depths agree, but the loop counts are
    quotients by the mean depth, which is zero. *)
Theorem loop_bridge_zero_depth_raises (graph : Graph.t) (start end_ middle repeat_ : Z)
    (start_seg end_seg : Segment.t) :
  Graph.segments graph !! Z.abs start = Some start_seg ->
  Graph.segments graph !! Z.abs end_ = Some end_seg ->
  (Segment.depth start_seg == 0)%Q -> (Segment.depth end_seg == 0)%Q ->
  LoopUnrollingBridge.init graph start end_ middle repeat_ = None.
Proof.
  intros Hs He Hds Hde.
  destruct (LoopUnrollingBridge.init graph start end_ middle repeat_) as [b |] eqn:Hinit;
    [| reflexivity].
  exfalso. unfold LoopUnrollingBridge.init in Hinit.
  rewrite Hs, He in Hinit. cbn [mbind option_bind] in Hinit. bind_inversion Hinit.
  match goal with
  | Hdepth : get_mean_depth _ _ _ = Some _,
    Hmean : LoopUnrollingBridge.mean_loop_count _ _ _ _ = Some _ |- _ =>
      unfold get_mean_depth in Hdepth;
      apply weighted_average_value in Hdepth as [Hsum Hdepth];
      unfold LoopUnrollingBridge.mean_loop_count in Hmean; bind_inversion Hmean;
      match goal with
      | Hdiv : Py.div (Segment.depth _) _ = Some _ |- _ =>
          apply div_Some in Hdiv as [Hnz _]; apply Hnz;
          rewrite Hdepth, Hds, Hde; field; assumption
      end
  end.
Qed.

Lemma loop_bridge_zero_depth_raises_witness :
  LoopUnrollingBridge.init (loop_graph 0 0) 4 5 1 2 = None.
Proof.
  apply (loop_bridge_zero_depth_raises (loop_graph 0 0) 4 5 1 2
           (example_segment 4 0 100) (example_segment 5 0 100)); reflexivity.
Defined.

(** ** The loop unrolling builder *)

Lemma corroborate_decide (graph : Graph.t) (start end_ middle : Z) (joined : option bool) :
  itervalues (Graph.paths graph) <> [] ->
  corroborate start end_ middle (itervalues (Graph.paths graph)) joined
  = Some (bool_decide (corroborated graph start end_ middle)).
Proof.
  intros Hpaths.
  destruct (corroborate_spec start end_ middle _ joined Hpaths) as (b & -> & Hb).
  f_equal. destruct b.
  - symmetry. apply bool_decide_eq_true. by apply Hb.
  - symmetry. apply bool_decide_eq_false. intros H. apply Hb in H. discriminate.
Qed.

Lemma loop_unrolling_loop (graph : Graph.t) (loops : list (Z * Z * Z * Z))
    (joined : option bool) (bridges : list LoopUnrollingBridge.t) :
  itervalues (Graph.paths graph) <> [] ->
  snd <$>
    for_each (fun '(joined, bridges) '(start, end_, middle, repeat_) =>
      joined ← corroborate start end_ middle (itervalues (Graph.paths graph)) joined;
      if negb joined then Some (Some joined, bridges)
      else
        bridge ← LoopUnrollingBridge.init graph start end_ middle repeat_;
        Some (Some joined, bridges ++ [bridge]))
      loops (joined, bridges)
  = (fun built => bridges ++ built) <$>
      mapM (fun loop => LoopUnrollingBridge.init graph loop.1.1.1 loop.1.1.2 loop.1.2 loop.2)
           (filter (fun loop => corroborated graph loop.1.1.1 loop.1.1.2 loop.1.2) loops).
Proof.
  intros Hpaths. revert joined bridges.
  induction loops as [| [[[start end_] middle] repeat_] loops IH]; intros joined bridges.
  - cbn. by rewrite app_nil_r.
  - cbn [for_each]. rewrite corroborate_decide by assumption. cbn [mbind option_bind].
    rewrite filter_cons. cbn [fst snd].
    destruct (decide (corroborated graph start end_ middle)) as [Hyes | Hno].
    + rewrite bool_decide_eq_true_2 by assumption. cbn [negb].
      cbn [mapM fst snd].
      destruct (LoopUnrollingBridge.init graph start end_ middle repeat_) as [bridge |];
        cbn [mbind option_bind]; [| reflexivity].
      rewrite IH.
      destruct (mapM _ _) as [built |]; cbn; [| reflexivity].
      by rewrite <- app_assoc.
    + rewrite bool_decide_eq_false_2 by assumption. cbn [negb]. apply IH.
Qed.

(** X17.  When the graph has at least one contig path, the loop unrolling
    builder calls the constructor on exactly the simple loops that a contig
    path supports, in the order of the graph, and returns the bridges in
    this order; it raises exactly when one of these constructions does. *)
Theorem create_loop_unrolling_bridges_supported (graph : Graph.t)
    (single_copy_segments : list Segment.t) (verbosity : Z) :
  itervalues (Graph.paths graph) <> [] ->
  create_loop_unrolling_bridges graph single_copy_segments verbosity
  = mapM (fun loop => LoopUnrollingBridge.init graph loop.1.1.1 loop.1.1.2 loop.1.2 loop.2)
         (supported_loops graph).
Proof.
  intros Hpaths. unfold create_loop_unrolling_bridges, supported_loops.
  rewrite loop_unrolling_loop by assumption.
  destruct (mapM _ _); reflexivity.
Qed.

Lemma create_loop_unrolling_bridges_supported_witness :
  itervalues (Graph.paths (loop_graph 25 35)) <> [] /\
  supported_loops (loop_graph 25 35) = [(1, 2, 4, 5)] /\
  create_loop_unrolling_bridges (loop_graph 25 35) [] 0
  = mapM (fun loop => LoopUnrollingBridge.init (loop_graph 25 35)
                        loop.1.1.1 loop.1.1.2 loop.1.2 loop.2)
         (supported_loops (loop_graph 25 35)).
Proof.
  assert (H : itervalues (Graph.paths (loop_graph 25 35)) <> []) by (vm_compute; discriminate).
  split; [exact H |]. split; [vm_compute; reflexivity |].
  apply (create_loop_unrolling_bridges_supported (loop_graph 25 35) [] 0 H).
Defined.

(** X18.  When the graph has no contig path at all but has a simple loop,
    the loop unrolling builder raises: [joined] is only assigned inside
    the loop over the contig paths and is read after it. *)
Theorem create_loop_unrolling_bridges_no_paths (graph : Graph.t)
    (single_copy_segments : list Segment.t) (verbosity : Z) :
  itervalues (Graph.paths graph) = [] ->
  Graph.find_all_simple_loops graph <> [] ->
  create_loop_unrolling_bridges graph single_copy_segments verbosity = None.
Proof.
  intros Hpaths Hloops. unfold create_loop_unrolling_bridges. rewrite Hpaths.
  destruct (Graph.find_all_simple_loops graph) as [| [[[start end_] middle] repeat_] loops];
    [congruence |].
  reflexivity.
Qed.

Lemma create_loop_unrolling_bridges_no_paths_witness :
  create_loop_unrolling_bridges pathless_loop_graph [] 0 = None.
Proof.
  apply (create_loop_unrolling_bridges_no_paths pathless_loop_graph [] 0).
  - reflexivity.
  - discriminate.
Defined.

(** ** Reads and their alignments *)

Lemma flip_segment_order_stable (c d : Z) :
  (0 < c /\ 0 < d) \/ (c < 0 /\ 0 < d /\ Z.abs c <= Z.abs d)
  \/ (0 < c /\ d < 0 /\ Z.abs d <= Z.abs c) ->
  flip_segment_order c d = ((c, d), false).
Proof.
  intros H. unfold flip_segment_order. rewrite !Z.gtb_ltb.
  repeat match goal with
         | |- context [?x <? ?y] => destruct (Z.ltb_spec x y)
         end; cbn; try reflexivity; lia.
Qed.

(** X19.  The pair returned by [flip_segment_order] on non-zero segment
    numbers is in standard order: it is the given pair when the flag is
    off and the reverse complement pair when it is on, its two numbers are
    never both negative, and standardising it again changes nothing. *)
Theorem flip_segment_order_fixed_point (seg_num_1 seg_num_2 : Z) :
  seg_num_1 <> 0 -> seg_num_2 <> 0 ->
  let seg_nums := fst (flip_segment_order seg_num_1 seg_num_2) in
  let flipped := snd (flip_segment_order seg_num_1 seg_num_2) in
  seg_nums = (if flipped then (- seg_num_2, - seg_num_1) else (seg_num_1, seg_num_2)) /\
  ~ (seg_nums.1 < 0 /\ seg_nums.2 < 0) /\
  flip_segment_order seg_nums.1 seg_nums.2 = (seg_nums, false).
Proof.
  intros H1 H2. cbv zeta.
  assert (Hcases :
    (flip_segment_order seg_num_1 seg_num_2 = ((seg_num_1, seg_num_2), false) /\
     ((0 < seg_num_1 /\ 0 < seg_num_2)
      \/ (seg_num_1 < 0 /\ 0 < seg_num_2 /\ Z.abs seg_num_1 <= Z.abs seg_num_2)
      \/ (0 < seg_num_1 /\ seg_num_2 < 0 /\ Z.abs seg_num_2 <= Z.abs seg_num_1)))
    \/ (flip_segment_order seg_num_1 seg_num_2 = ((- seg_num_2, - seg_num_1), true) /\
        ((0 < - seg_num_2 /\ 0 < - seg_num_1)
         \/ (- seg_num_2 < 0 /\ 0 < - seg_num_1 /\ Z.abs (- seg_num_2) <= Z.abs (- seg_num_1))
         \/ (0 < - seg_num_2 /\ - seg_num_1 < 0
             /\ Z.abs (- seg_num_1) <= Z.abs (- seg_num_2))))).
  { unfold flip_segment_order. rewrite !Z.gtb_ltb.
    repeat match goal with
           | |- context [?x <? ?y] => destruct (Z.ltb_spec x y)
           end; cbn; (left; split; [reflexivity | lia]) || (right; split; [reflexivity | lia]). }
  destruct Hcases as [[-> Hstd] | [-> Hstd]]; cbn [fst snd].
  - split; [reflexivity |]. split; [lia |]. by apply flip_segment_order_stable.
  - split; [reflexivity |]. split; [lia |]. by apply flip_segment_order_stable.
Qed.

Lemma flip_segment_order_fixed_point_witness :
  fst (flip_segment_order 5 (-6)) = (6, -5) /\
  flip_segment_order 6 (-5) = ((6, -5), false).
Proof.
  destruct (flip_segment_order_fixed_point 5 (-6)) as (H & _ & Hfix); [lia | lia |].
  split; [exact H | exact Hfix].
Defined.

Lemma selection_length (allowed : Q) (group : list Alignment.t) :
  (length (selection allowed group) <= 2)%nat.
Proof.
  unfold selection.
  destruct (Py.sorted_desc Alignment.scaled_score group) as [| best [| second rest]];
    cbn; [lia | lia |].
  destruct (keeps_second allowed best second); cbn; lia.
Qed.

Lemma elem_of_qualifying (single_copy : gset Z) (min_scaled_score : Q) (k : Z)
    (l : list Alignment.t) (a : Alignment.t) :
  a ∈ List.filter (qualifies single_copy min_scaled_score k) l <->
  a ∈ l /\ Segment.number (Alignment.ref a) = k /\ k ∈ single_copy
  /\ (min_scaled_score <= Alignment.scaled_score a)%Q.
Proof.
  rewrite list_elem_of_In, filter_In, <- list_elem_of_In. unfold qualifies.
  rewrite !andb_true_iff, !bool_decide_eq_true, negb_true_iff, Qlt_bool_false. tauto.
Qed.

(** X20.  [get_single_copy_alignments] never raises.  Every alignment it
    returns is an alignment of the read to a single-copy segment whose
    scaled score reaches the threshold; at most two alignments are
    returned for one segment; and whenever an alignment of the read
    passes the two tests, an alignment to the same segment that scores at
    least as well is returned. *)
Theorem get_single_copy_alignments_keeps_best (read : Read.t) (single_copy_num_set : gset Z)
    (allowed_overlap min_scaled_score : Q) :
  exists final_alignments,
    get_single_copy_alignments read single_copy_num_set allowed_overlap min_scaled_score
    = Some final_alignments /\
    (forall a, a ∈ final_alignments ->
       a ∈ Read.alignments read
       /\ Segment.number (Alignment.ref a) ∈ single_copy_num_set
       /\ (min_scaled_score <= Alignment.scaled_score a)%Q) /\
    (forall k,
       (length (List.filter (fun a => bool_decide (Segment.number (Alignment.ref a) = k))
                            final_alignments) <= 2)%nat) /\
    (forall a, a ∈ Read.alignments read ->
       Segment.number (Alignment.ref a) ∈ single_copy_num_set ->
       (min_scaled_score <= Alignment.scaled_score a)%Q ->
       exists best, best ∈ final_alignments
         /\ Segment.number (Alignment.ref best) = Segment.number (Alignment.ref a)
         /\ (Alignment.scaled_score a <= Alignment.scaled_score best)%Q).
Proof.
  destruct (get_single_copy_alignments_spec read single_copy_num_set allowed_overlap
              min_scaled_score) as (final & Hrun & Hgroups).
  exists final. split; [exact Hrun |].
  assert (Hfilter : forall a k, a ∈ final -> Segment.number (Alignment.ref a) = k ->
            a ∈ selection allowed_overlap
                  (List.filter (qualifies single_copy_num_set min_scaled_score k)
                               (Read.alignments read))).
  { intros a k Ha Hk. rewrite <- Hgroups.
    rewrite list_elem_of_In, filter_In, <- list_elem_of_In.
    split; [exact Ha | by apply bool_decide_eq_true]. }
  split; [| split].
  - intros a Ha.
    pose proof (Hfilter a _ Ha eq_refl) as Hsel.
    apply selection_subset, elem_of_qualifying in Hsel. tauto.
  - intros k. rewrite Hgroups. apply selection_length.
  - intros a Ha Hsc Hscore.
    set (k := Segment.number (Alignment.ref a)) in *.
    set (group := List.filter (qualifies single_copy_num_set min_scaled_score k)
                              (Read.alignments read)).
    assert (Hgroup : a ∈ group) by (apply elem_of_qualifying; tauto).
    pose proof (selection_cases allowed_overlap group) as Hcases.
    pose proof (sorted_desc_head_max Alignment.scaled_score group) as Hmax.
    destruct (Py.sorted_desc Alignment.scaled_score group) as [| best rest] eqn:Hsorted.
    + apply (f_equal length) in Hsorted. rewrite length_sorted_desc in Hsorted.
      destruct group; [by apply elem_of_nil in Hgroup | discriminate].
    + destruct Hcases as (kept & Hsel & _).
      assert (Hbest : best ∈ selection allowed_overlap group)
        by (rewrite Hsel; apply elem_of_cons; by left).
      exists best. split; [| split].
      * pose proof (Hgroups k) as Hk. fold group in Hk. rewrite <- Hk in Hbest.
        rewrite list_elem_of_In, filter_In, <- list_elem_of_In in Hbest. tauto.
      * apply selection_subset, elem_of_qualifying in Hbest. tauto.
      * by apply (Hmax best rest).
Qed.

Section ReadStore.
Variable reverse_complement : string -> string.

Lemma for_each_raises {A S} (body : S -> A -> option S) (l : list A) (x : A) :
  x ∈ l -> (forall s, body s x = None) -> forall s, for_each body l s = None.
Proof.
  intros Hx Hraise. induction l as [| y l IH]; intros s; [by apply elem_of_nil in Hx |].
  cbn [for_each]. destruct (body s y) as [s' |] eqn:Hy; cbn; [| reflexivity].
  apply elem_of_cons in Hx as [-> | Hx]; [by rewrite Hraise in Hy | by apply IH].
Qed.

(** X21.  [create_long_read_bridges] raises exactly when one of the read
    names is not a key of the read dictionary; the alignments of the
    reads, the graph and the score threshold have no part in it. *)
Theorem create_long_read_bridges_raises_iff (graph : Graph.t)
    (read_dict : gmap string Read.t) (read_names : list string)
    (single_copy_segments : list Segment.t) (verbosity : Z)
    (existing_bridges : list Bridge) (min_scaled_score : Q) :
  create_long_read_bridges reverse_complement graph read_dict read_names
    single_copy_segments verbosity existing_bridges min_scaled_score = None
  <-> exists read_name, read_name ∈ read_names /\ read_dict !! read_name = None.
Proof.
  unfold create_long_read_bridges, collect_read_seqs. split.
  - intros Hrun.
    destruct (decide (Exists (fun read_name => read_dict !! read_name = None) read_names))
      as [Hex | Hall].
    + apply Exists_exists in Hex. exact Hex.
    + exfalso. apply not_Exists_Forall in Hall; [| intros n; apply _].
      rewrite Forall_forall in Hall.
      match type of Hrun with
      | (for_each ?body ?l ?s0 ≫= _) = None =>
          destruct (fun Hbody => for_each_invariant (fun _ => True) body l Hbody s0 I)
            as (s' & Hs' & _); [| rewrite Hs' in Hrun; discriminate Hrun]
      end.
      intros st read_name _ Hin.
      destruct (process_read_is_Some reverse_complement read_dict
                  (fold_left (fun s seg => {[ Segment.number seg ]} ∪ s)
                             single_copy_segments ∅)
                  (allowed_overlap graph) min_scaled_score st read_name) as [st' Hst'].
      { specialize (Hall read_name Hin). cbn in Hall.
        destruct (read_dict !! read_name); [by eexists | congruence]. }
      exists st'. split; [exact Hst' | exact I].
  - intros (read_name & Hin & Hmissing).
    rewrite (for_each_raises _ _ read_name Hin); [reflexivity |].
    intros [spanning overlapping]. unfold process_read. by rewrite Hmissing.
Qed.

End ReadStore.

(** ** The alignments of one read *)

Lemma insert_asc_Permutation {A} (key : A -> Z) (x : A) (l : list A) :
  Py.insert_asc key x l ≡ₚ x :: l.
Proof.
  induction l as [| y l IH]; cbn; [reflexivity |].
  destruct (key x <=? key y); [reflexivity |].
  rewrite IH. apply Permutation_swap.
Qed.

Lemma sorted_asc_Permutation {A} (key : A -> Z) (l : list A) :
  Py.sorted_asc key l ≡ₚ l.
Proof.
  induction l as [| x l IH]; cbn; [reflexivity |].
  fold (Py.sorted_asc key l). by rewrite insert_asc_Permutation, IH.
Qed.

Lemma insert_asc_sorted {A} (key : A -> Z) (x : A) (l : list A) :
  StronglySorted (fun a b => key a <= key b) l ->
  StronglySorted (fun a b => key a <= key b) (Py.insert_asc key x l).
Proof.
  induction 1 as [| y l Hsorted IH Hall]; cbn.
  - constructor; [constructor | constructor].
  - destruct (Z.leb_spec (key x) (key y)) as [Hle | Hgt].
    + constructor; [by constructor |].
      constructor; [exact Hle |].
      eapply Forall_impl; [exact Hall |]. cbn. intros z Hz. lia.
    + constructor; [exact IH |].
      rewrite insert_asc_Permutation. constructor; [lia | exact Hall].
Qed.

Lemma sorted_asc_sorted {A} (key : A -> Z) (l : list A) :
  StronglySorted (fun a b => key a <= key b) (Py.sorted_asc key l).
Proof.
  induction l as [| x l IH]; cbn; [constructor |].
  by apply insert_asc_sorted.
Qed.

Lemma available_after_Permutation (available l : list Alignment.t) :
  available_after available l ≡ₚ available ++ l.
Proof.
  revert available. induction l as [| x l IH]; intros available; cbn.
  - by rewrite app_nil_r.
  - unfold available_after in IH. rewrite IH, sorted_asc_Permutation.
    by rewrite <- app_assoc.
Qed.

Lemma available_after_sorted (available l : list Alignment.t) :
  StronglySorted (fun a b => Alignment.read_start_positive_strand a
                             <= Alignment.read_start_positive_strand b) available ->
  StronglySorted (fun a b => Alignment.read_start_positive_strand a
                             <= Alignment.read_start_positive_strand b)
                 (available_after available l).
Proof.
  revert available. induction l as [| x l IH]; intros available Hsorted; cbn.
  - exact Hsorted.
  - apply IH, sorted_asc_sorted.
Qed.

Lemma elem_of_adjacent_pairs {A} (l : list A) (x y : A) :
  (x, y) ∈ adjacent_pairs l -> x ∈ l /\ y ∈ l.
Proof.
  unfold adjacent_pairs. intros H. split.
  - by apply elem_of_zip_l in H.
  - apply elem_of_zip_r in H. destruct l; [by apply elem_of_nil in H |].
    apply elem_of_cons. by right.
Qed.

Section ReadAlignments.
Variable reverse_complement : string -> string.

(** X22.  The loop over the alignments of a read, taken in any order,
    never raises, and leaves in [available_alignments] the same
    alignments in the order of their start position on the read. *)
Theorem available_alignments_sorted (read : Read.t) (sorted_alignments : list Alignment.t)
    (spanning_read_seqs : spanning_t) (already_added : gset (Z * Z))
    (alignment : option Alignment.t) :
  exists spanning_read_seqs' already_added' available_alignments alignment',
    for_each (add_alignment reverse_complement read) sorted_alignments
             (spanning_read_seqs, already_added, [], alignment)
    = Some (spanning_read_seqs', already_added', available_alignments, alignment') /\
    available_alignments ≡ₚ sorted_alignments /\
    StronglySorted (fun a b => Alignment.read_start_positive_strand a
                               <= Alignment.read_start_positive_strand b)
                   available_alignments.
Proof.
  destruct (for_each_add_alignment reverse_complement read sorted_alignments
              spanning_read_seqs already_added [] alignment) as (sp' & added' & Hrun).
  eexists _, _, _, _. split; [exact Hrun |]. split.
  - apply available_after_Permutation.
  - apply available_after_sorted. constructor.
Qed.

Lemma add_pair_entries (read : Read.t) (l : list Alignment.t) (sp0 sp : spanning_t)
    (added : gset (Z * Z)) (a1 a2 : Alignment.t) :
  a1 ∈ l -> a2 ∈ l -> one_entry_per_pair reverse_complement read l sp0 sp added ->
  exists sp' added',
    add_pair reverse_complement read (sp, added) (a1, a2) = Some (sp', added') /\
    one_entry_per_pair reverse_complement read l sp0 sp' added' /\
    added ⊆ added' /\ pair_key a1 a2 ∈ added'.
Proof.
  intros H1 H2 Hinv. unfold add_pair.
  assert (Hkey : pair_key a1 a2
                 = fst (flip_segment_order (Alignment.get_signed_ref_num a1)
                                           (Alignment.get_signed_ref_num a2))) by reflexivity.
  assert (Hflag : forall seq, fits_gap reverse_complement read a1 a2 seq <->
             match seq with
             | inl bases =>
                 Alignment.read_end_positive_strand a1
                 < Alignment.read_start_positive_strand a2 /\
                 bases = (if snd (flip_segment_order (Alignment.get_signed_ref_num a1)
                                                     (Alignment.get_signed_ref_num a2))
                          then reverse_complement
                                 (Py.slice (Read.sequence read)
                                    (Alignment.read_end_positive_strand a1)
                                    (Alignment.read_start_positive_strand a2))
                          else Py.slice (Read.sequence read)
                                 (Alignment.read_end_positive_strand a1)
                                 (Alignment.read_start_positive_strand a2))
             | inr distance =>
                 distance = Alignment.read_start_positive_strand a2
                            - Alignment.read_end_positive_strand a1 /\ distance <= 0
             end) by (intros [bases | distance]; reflexivity).
  destruct (flip_segment_order _ _) as [seg_nums flipped]. cbn [fst snd] in Hkey, Hflag.
  rewrite Hkey.
  destruct (decide (seg_nums ∈ added)) as [Hin | Hnotin].
  - rewrite bool_decide_eq_false_2 by (intros H; by apply H).
    exists sp, added. split; [reflexivity |]. split; [exact Hinv |]. split; [done | exact Hin].
  - rewrite bool_decide_eq_true_2 by assumption.
    rewrite append_at_ensure_key. cbn [mbind option_bind].
    eexists _, _. split; [reflexivity |]. split; [| split].
    + intros k. destruct (Hinv k) as (new & Hnew & Hout & Hadded).
      destruct (decide (k = seg_nums)) as [-> | Hne].
      * eexists [_]. unfold spanning_entries in *.
        rewrite lookup_insert_eq. cbn [default].
        rewrite (Hout Hnotin), app_nil_r in Hnew. rewrite Hnew.
        split; [reflexivity |]. split.
        { intros Hno. exfalso. apply Hno, elem_of_union. left. by apply elem_of_singleton. }
        intros _. eexists _, a1, a2. split; [reflexivity |].
        split; [exact H1 |]. split; [exact H2 |]. split; [by symmetry |].
        apply Hflag.
        destruct (Z.gtb_spec (Alignment.read_start_positive_strand a2)
                             (Alignment.read_end_positive_strand a1));
          (split; [lia || reflexivity | lia || reflexivity]).
      * exists new. unfold spanning_entries in *.
        rewrite lookup_insert_ne by congruence.
        split; [exact Hnew |]. split.
        { intros Hno. apply Hout. intros Hk. apply Hno, elem_of_union. by right. }
        intros Hk. apply Hadded.
        apply elem_of_union in Hk as [Hk | Hk]; [| exact Hk].
        apply elem_of_singleton in Hk. congruence.
    + intros k Hk. apply elem_of_union. by right.
    + apply elem_of_union. left. by apply elem_of_singleton.
Qed.

Lemma for_each_add_pair_entries (read : Read.t) (l : list Alignment.t) (sp0 : spanning_t)
    (pairs : list (Alignment.t * Alignment.t)) :
  (forall a1 a2, (a1, a2) ∈ pairs -> a1 ∈ l /\ a2 ∈ l) ->
  forall sp added, one_entry_per_pair reverse_complement read l sp0 sp added ->
  exists sp' added',
    for_each (add_pair reverse_complement read) pairs (sp, added) = Some (sp', added') /\
    one_entry_per_pair reverse_complement read l sp0 sp' added' /\
    added ⊆ added' /\
    forall a1 a2, (a1, a2) ∈ pairs -> pair_key a1 a2 ∈ added'.
Proof.
  induction pairs as [| [a1 a2] pairs IH]; intros Hpairs sp added Hinv; cbn [for_each].
  - exists sp, added. split; [reflexivity |]. split; [exact Hinv |]. split; [done |].
    intros a1 a2 H. by apply elem_of_nil in H.
  - destruct (Hpairs a1 a2) as [H1 H2]; [apply elem_of_cons; by left |].
    destruct (add_pair_entries read l sp0 sp added a1 a2 H1 H2 Hinv)
      as (sp1 & added1 & -> & Hinv1 & Hsub1 & Hkey1). cbn [mbind option_bind].
    destruct (IH (fun b1 b2 Hb => Hpairs b1 b2 (proj2 (elem_of_cons _ _ _) (or_intror Hb)))
                 sp1 added1 Hinv1) as (sp' & added' & Hrun & Hinv' & Hsub' & Hkeys').
    exists sp', added'. split; [exact Hrun |]. split; [exact Hinv' |].
    split; [by transitivity added1 |].
    intros b1 b2 Hb. apply elem_of_cons in Hb as [Hb | Hb].
    + injection Hb as -> ->. by apply Hsub'.
    + by apply Hkeys'.
Qed.

Lemma for_each_add_alignment_entries (read : Read.t) (l : list Alignment.t)
    (sp0 : spanning_t) (rest : list Alignment.t) :
  (forall a, a ∈ rest -> a ∈ l) ->
  forall sp added available alignment,
    one_entry_per_pair reverse_complement read l sp0 sp added ->
    (forall a, a ∈ available -> a ∈ l) ->
    (forall a1 a2, (a1, a2) ∈ adjacent_pairs available -> pair_key a1 a2 ∈ added) ->
    exists sp' added' alignment',
      for_each (add_alignment reverse_complement read) rest
               (sp, added, available, alignment)
      = Some (sp', added', available_after available rest, alignment') /\
      one_entry_per_pair reverse_complement read l sp0 sp' added' /\
      forall a1 a2, (a1, a2) ∈ adjacent_pairs (available_after available rest) ->
                    pair_key a1 a2 ∈ added'.
Proof.
  induction rest as [| x rest IH]; intros Hrest sp added available alignment Hinv Havail Hkeys;
    cbn [for_each].
  - exists sp, added, alignment. split; [reflexivity |]. split; [exact Hinv | exact Hkeys].
  - rewrite add_alignment_eq. cbv zeta.
    set (available' := Py.sorted_asc Alignment.read_start_positive_strand (available ++ [x])).
    assert (Havail' : forall a, a ∈ available' -> a ∈ l).
    { intros a Ha. unfold available' in Ha. rewrite sorted_asc_Permutation in Ha.
      apply elem_of_app in Ha as [Ha | Ha]; [by apply Havail |].
      apply list_elem_of_singleton in Ha as ->. apply Hrest, elem_of_cons. by left. }
    destruct (for_each_add_pair_entries read l sp0 (adjacent_pairs available'))
      with (sp := sp) (added := added) as (sp1 & added1 & -> & Hinv1 & _ & Hkeys1);
      [| exact Hinv |].
    { intros a1 a2 Hp. apply elem_of_adjacent_pairs in Hp as [Hp1 Hp2].
      split; by apply Havail'. }
    cbn [mbind option_bind].
    apply (IH (fun a Ha => Hrest a (proj2 (elem_of_cons _ _ _) (or_intror Ha)))
              sp1 added1 available' (Some x) Hinv1 Havail' Hkeys1).
Qed.

(** X23.  Out of one read, every pair of segments gets at most one
    spanning sequence.  When the loop over the alignments of the read is
    over, [spanning_read_seqs] holds one new entry under each key of
    [already_added] and is unchanged elsewhere; the entry is made of two
    alignments of the read and its key is the standard order of their
    segments.  When there is a gap between the two alignments on the read
    the entry holds the bases of the read from the end of the first to the
    start of the second, reverse complemented when the pair was flipped;
    otherwise it holds their distance, zero or negative.  Every two
    neighbours of the final [available_alignments] have their pair among
    the keys. *)
Theorem spanning_one_entry_per_pair (read : Read.t) (sorted_alignments : list Alignment.t)
    (spanning_read_seqs : spanning_t) (alignment : option Alignment.t) :
  exists spanning_read_seqs' already_added available_alignments alignment',
    for_each (add_alignment reverse_complement read) sorted_alignments
             (spanning_read_seqs, ∅, [], alignment)
    = Some (spanning_read_seqs', already_added, available_alignments, alignment') /\
    (forall k, exists new,
       spanning_entries spanning_read_seqs' k = spanning_entries spanning_read_seqs k ++ new /\
       (k ∉ already_added -> new = []) /\
       (k ∈ already_added ->
          exists bridge_seq alignment_1 alignment_2,
            new = [(bridge_seq, alignment_1, alignment_2)] /\
            alignment_1 ∈ sorted_alignments /\ alignment_2 ∈ sorted_alignments /\
            k = pair_key alignment_1 alignment_2 /\
            fits_gap reverse_complement read alignment_1 alignment_2 bridge_seq)) /\
    (forall alignment_1 alignment_2,
       (alignment_1, alignment_2) ∈ adjacent_pairs available_alignments ->
       pair_key alignment_1 alignment_2 ∈ already_added).
Proof.
  destruct (for_each_add_alignment_entries read sorted_alignments spanning_read_seqs
              sorted_alignments (fun a Ha => Ha) spanning_read_seqs ∅ [] alignment)
    as (sp' & added' & alignment' & Hrun & Hinv & Hkeys).
  - intros k. exists []. rewrite app_nil_r. split; [reflexivity |]. split; [done |].
    intros H. by apply elem_of_empty in H.
  - intros a H. by apply elem_of_nil in H.
  - intros a1 a2 H. by apply elem_of_nil in H.
  - exists sp', added', (available_after [] sorted_alignments), alignment'.
    split; [exact Hrun |]. split; [exact Hinv | exact Hkeys].
Qed.

End ReadAlignments.

(** ** The overlap allowance and reads without alignments *)

Section OverlapAllowance.
Local Open Scope Q_scope.

Lemma round_inject_Z (n : Z) : Py.round (inject_Z n) = n.
Proof.
  unfold Py.round. destruct (Py.Qlt_bool (inject_Z n) 0).
  - unfold Qceiling. rewrite (Qfloor_unique _ (- n)%Z); [lia | |];
      rewrite inject_Z_opp; lra.
  - apply Qfloor_unique; lra.
Qed.

Lemma int_eleven_tenths (n : Z) :
  Py.int ((11 # 10) * inject_Z n) = (11 * n ÷ 10)%Z.
Proof.
  unfold Py.int.
  destruct (Py.Qlt_bool ((11 # 10) * inject_Z n) 0) eqn:Hneg.
  - apply Qlt_bool_iff in Hneg.
    assert (Hn : (n < 0)%Z).
    { rewrite Zlt_Qlt. change (inject_Z 0) with 0. lra. }
    replace (11 * n)%Z with (- (11 * - n))%Z by lia.
    rewrite Z.quot_opp_l by lia. rewrite Z.quot_div_nonneg by lia.
    unfold Qceiling. f_equal.
    pose proof (Z.div_mod (11 * - n) 10 ltac:(lia)) as Hdiv.
    pose proof (Z.mod_pos_bound (11 * - n) 10 ltac:(lia)) as Hmod.
    apply Qfloor_unique.
    + assert (H : inject_Z (10 * (11 * - n / 10)) <= inject_Z (11 * - n))
        by (rewrite <- Zle_Qle; lia).
      rewrite !inject_Z_mult, inject_Z_opp in H.
      change (inject_Z 10) with 10 in H. change (inject_Z 11) with 11 in H. lra.
    + assert (H : inject_Z (11 * - n) < inject_Z (10 * (11 * - n / 10) + 10))
        by (rewrite <- Zlt_Qlt; lia).
      rewrite inject_Z_plus, !inject_Z_mult, inject_Z_opp in H.
      change (inject_Z 10) with 10 in H. change (inject_Z 11) with 11 in H. lra.
  - apply Qlt_bool_false in Hneg.
    assert (Hn : (0 <= n)%Z).
    { rewrite Zle_Qle. change (inject_Z 0) with 0. lra. }
    rewrite Z.quot_div_nonneg by lia.
    pose proof (Z.div_mod (11 * n) 10 ltac:(lia)) as Hdiv.
    pose proof (Z.mod_pos_bound (11 * n) 10 ltac:(lia)) as Hmod.
    apply Qfloor_unique.
    + assert (H : inject_Z (10 * (11 * n / 10)) <= inject_Z (11 * n))
        by (rewrite <- Zle_Qle; lia).
      rewrite !inject_Z_mult in H.
      change (inject_Z 10) with 10 in H. change (inject_Z 11) with 11 in H. lra.
    + assert (H : inject_Z (11 * n) < inject_Z (10 * (11 * n / 10) + 10))
        by (rewrite <- Zlt_Qlt; lia).
      rewrite inject_Z_plus, !inject_Z_mult in H.
      change (inject_Z 10) with 10 in H. change (inject_Z 11) with 11 in H. lra.
Qed.

(** X24.  For a graph overlap of up to a million bases, far above the
    overlaps of an assembly graph, the overlap allowance is eleven tenths
    of the overlap with the fraction dropped: [round] is applied to a
    number that [int] has already made whole, and changes nothing.  (The
    bound keeps the product [1.1 * overlap] far enough from the next whole
    number for the floating point product to have the same whole part.) *)
Theorem allowed_overlap_truncates (graph : Graph.t) :
  (0 <= Graph.overlap graph)%Z -> (Graph.overlap graph <= 1000000)%Z ->
  allowed_overlap graph == inject_Z (11 * Graph.overlap graph / 10) /\
  allowed_overlap graph == inject_Z (Py.int ((11 # 10) * inject_Z (Graph.overlap graph))).
Proof.
  intros Hpos _. unfold allowed_overlap. rewrite round_inject_Z, int_eleven_tenths.
  rewrite Z.quot_div_nonneg by lia. split; reflexivity.
Qed.

Lemma allowed_overlap_truncates_witness :
  allowed_overlap (three_segment_graph 55) == 60.
Proof.
  apply (allowed_overlap_truncates (three_segment_graph 55)); cbn; lia.
Defined.

End OverlapAllowance.

Section SkippedReads.
Variable reverse_complement : string -> string.

Lemma filter_qualifies_nil (single_copy : gset Z) (min_scaled_score : Q) (k : Z)
    (l : list Alignment.t) :
  (forall a, a ∈ l ->
     Segment.number (Alignment.ref a) ∉ single_copy
     \/ (Alignment.scaled_score a < min_scaled_score)%Q) ->
  List.filter (qualifies single_copy min_scaled_score k) l = [].
Proof.
  intros Hnone.
  destruct (List.filter _ l) as [| a rest] eqn:Hfilter; [reflexivity |]. exfalso.
  assert (Ha : a ∈ List.filter (qualifies single_copy min_scaled_score k) l)
    by (rewrite Hfilter; apply elem_of_cons; by left).
  apply elem_of_qualifying in Ha as (Hin & Hk & Hsc & Hscore).
  destruct (Hnone a Hin) as [H | H]; [apply H; by rewrite Hk | lra].
Qed.

(** X25.  A read none of whose alignments is to a single-copy segment
    with a scaled score that reaches the threshold is skipped: it leaves
    [spanning_read_seqs] and [overlapping_read_seqs] as they were. *)
Theorem process_read_skips (read_dict : gmap string Read.t)
    (single_copy_seg_num_set : gset Z) (allowed_overlap min_scaled_score : Q)
    (st : spanning_t * gmap Z (list string)) (read_name : string) (read : Read.t) :
  read_dict !! read_name = Some read ->
  (forall a, a ∈ Read.alignments read ->
     Segment.number (Alignment.ref a) ∉ single_copy_seg_num_set
     \/ (Alignment.scaled_score a < min_scaled_score)%Q) ->
  process_read reverse_complement read_dict single_copy_seg_num_set allowed_overlap
               min_scaled_score st read_name = Some st.
Proof.
  intros Hread Hnone. unfold process_read. destruct st as [spanning overlapping].
  rewrite Hread. cbn [mbind option_bind].
  destruct (get_single_copy_alignments_spec read single_copy_seg_num_set allowed_overlap
              min_scaled_score) as (final & -> & Hgroups). cbn [mbind option_bind].
  assert (Hfinal : final = []).
  { destruct final as [| a rest]; [reflexivity |]. exfalso.
    specialize (Hgroups (Segment.number (Alignment.ref a))).
    rewrite filter_qualifies_nil in Hgroups by assumption.
    cbn in Hgroups. rewrite bool_decide_eq_true_2 in Hgroups by reflexivity.
    discriminate Hgroups. }
  by rewrite bool_decide_eq_true_2.
Qed.

End SkippedReads.

Lemma process_read_skips_witness :
  process_read example_reverse_complement spanning_read_dict ∅ 0 50 (∅, ∅) "read_1"
  = Some (∅, ∅).
Proof.
  apply (process_read_skips example_reverse_complement spanning_read_dict ∅ 0 50 (∅, ∅)
           "read_1" spanning_read).
  - reflexivity.
  - intros a _. left. apply not_elem_of_empty.
Defined.

(** ** Bridge paths through strings *)

Lemma string_of_uint_digits (d : Decimal.uint) :
  ~ In ","%char (list_ascii_of_string (NilEmpty.string_of_uint d)).
Proof.
  induction d; cbn; intros H; try (destruct H as [H | H]; [discriminate H | by apply IHd]).
  exact H.
Qed.

Lemma str_no_comma (x : Z) : ~ In ","%char (list_ascii_of_string (Str.str x)).
Proof.
  unfold Str.str, NilZero.string_of_int.
  assert (Hu : forall d, ~ In ","%char (list_ascii_of_string (NilZero.string_of_uint d))).
  { intros d. destruct d; try apply string_of_uint_digits.
    cbn. intros [H | H]; [discriminate H | exact H]. }
  destruct (Z.to_int x) as [d | d]; [apply Hu |].
  cbn. intros [H | H]; [discriminate H | by apply (Hu d)].
Qed.

Lemma int_str (x : Z) : Str.int (Str.str x) = Some x.
Proof.
  unfold Str.int, Str.str. rewrite NilZero.isi.
  - cbn. f_equal. apply DecimalZ.of_to.
  - destruct x; cbn; try discriminate.
    intros [= H]. by apply DecimalPos.Unsigned.to_uint_nonnil in H.
  - destruct x; cbn; try discriminate.
    intros [= H]. by apply DecimalPos.Unsigned.to_uint_nonnil in H.
Qed.

Lemma split_no_sep (sep : ascii) (w : string) :
  ~ In sep (list_ascii_of_string w) -> Str.split sep w = [w].
Proof.
  induction w as [| c w IH]; cbn [Str.split list_ascii_of_string]; intros Hw; [reflexivity |].
  destruct (Ascii.eqb_spec c sep) as [-> | Hne]; [exfalso; apply Hw; by left |].
  rewrite IH; [reflexivity |]. intros H. apply Hw. by right.
Qed.

Lemma split_append (sep : ascii) (w s : string) :
  ~ In sep (list_ascii_of_string w) ->
  Str.split sep (String.append w (String sep s)) = w :: Str.split sep s.
Proof.
  induction w as [| c w IH]; intros Hw.
  - change (String.append EmptyString (String sep s)) with (String sep s).
    cbn [Str.split]. by rewrite Ascii.eqb_refl.
  - change (String.append (String c w) (String sep s))
      with (String c (String.append w (String sep s))).
    cbn [Str.split list_ascii_of_string] in *.
    destruct (Ascii.eqb_spec c sep) as [-> | Hne]; [exfalso; apply Hw; by left |].
    rewrite IH; [reflexivity |]. intros H. apply Hw. by right.
Qed.

Lemma split_join (sep : ascii) (l : list string) :
  l <> [] -> Forall (fun w => ~ In sep (list_ascii_of_string w)) l ->
  Str.split sep (Str.join (String sep EmptyString) l) = l.
Proof.
  induction l as [| w l IH]; [congruence |]. intros _ Hall.
  apply Forall_cons in Hall as [Hw Hall].
  destruct l as [| w' l]; [by apply split_no_sep |].
  cbn [Str.join].
  change (String.append (String sep EmptyString) ?s) with (String sep s).
  rewrite split_append by assumption.
  f_equal. apply IH; [discriminate | exact Hall].
Qed.

Lemma parse_render_nonempty (path : list Z) :
  path <> [] -> parse_path (render_path path) = Some path.
Proof.
  intros Hpath. unfold parse_path, render_path.
  rewrite split_join.
  - clear Hpath. induction path as [| x path IH]; cbn; [reflexivity |].
    rewrite int_str. cbn. unfold fmap in IH. cbn in IH. by rewrite IH.
  - destruct path; [congruence | discriminate].
  - apply Forall_forall. intros w Hw. apply list_elem_of_In, in_map_iff in Hw as (x & <- & _).
    apply str_no_comma.
Qed.

Lemma render_path_inj (p q : list Z) : render_path p = render_path q -> p = q.
Proof.
  intros H.
  assert (Hempty : parse_path (render_path []) = None) by reflexivity.
  destruct (decide (p = [])) as [-> | Hp], (decide (q = [])) as [-> | Hq].
  - reflexivity.
  - rewrite H, parse_render_nonempty in Hempty by assumption. discriminate Hempty.
  - rewrite <- H, parse_render_nonempty in Hempty by assumption. discriminate Hempty.
  - apply (f_equal parse_path) in H.
    rewrite !parse_render_nonempty in H by assumption. by injection H.
Qed.

(** X26.  A bridge path written as a string reads back as itself: the
    path is not empty, every number is written in decimal with its sign,
    and no number holds a comma.  Hence two paths with the same string
    are the same path, so that membership of a string in
    [bridge_path_set] is membership of the path.  The string of the empty
    path is empty and does not parse. *)
Theorem parse_render_path (path : list Z) :
  path <> [] ->
  parse_path (render_path path) = Some path /\
  (forall other, render_path other = render_path path -> other = path) /\
  parse_path (render_path []) = None.
Proof.
  intros Hpath. split; [by apply parse_render_nonempty |]. split; [| reflexivity].
  intros other. apply render_path_inj.
Qed.

Lemma parse_render_path_witness :
  render_path [3; -12; 0; 5] = "3,-12,0,5"%string /\
  parse_path "3,-12,0,5" = Some [3; -12; 0; 5].
Proof.
  split; [reflexivity |].
  change "3,-12,0,5"%string with (render_path [3; -12; 0; 5]).
  apply (parse_render_path [3; -12; 0; 5]). discriminate.
Defined.

(** *** The order of Python on paths *)

Lemma list_le_total (a b : list Z) : list_le a b = true \/ list_le b a = true.
Proof.
  revert b. induction a as [| x a IH]; intros [| y b]; cbn; auto.
  destruct (IH b) as [H | H]; rewrite H;
    destruct (Z.ltb_spec x y), (Z.ltb_spec y x), (Z.eqb_spec x y), (Z.eqb_spec y x);
    cbn; auto; lia.
Qed.

Lemma list_le_trans (a b c : list Z) :
  list_le a b = true -> list_le b c = true -> list_le a c = true.
Proof.
  revert b c. induction a as [| x a IH]; intros [| y b] [| z c]; cbn; auto; try discriminate.
  intros Hab Hbc.
  apply orb_true_iff in Hab as [Hab | Hab]; apply orb_true_iff in Hbc as [Hbc | Hbc];
    rewrite ?andb_true_iff, ?Z.ltb_lt, ?Z.eqb_eq in *; apply orb_true_iff;
    rewrite ?andb_true_iff, ?Z.ltb_lt, ?Z.eqb_eq.
  - left. lia.
  - left. lia.
  - left. lia.
  - right. split; [lia |]. apply (IH b c); tauto.
Qed.

Lemma list_le_antisym (a b : list Z) :
  list_le a b = true -> list_le b a = true -> a = b.
Proof.
  revert b. induction a as [| x a IH]; intros [| y b]; cbn; auto; try discriminate.
  intros Hab Hba.
  apply orb_true_iff in Hab as [Hab | Hab]; apply orb_true_iff in Hba as [Hba | Hba];
    rewrite ?andb_true_iff, ?Z.ltb_lt, ?Z.eqb_eq in *; try lia.
  destruct Hab as [-> Hab], Hba as [_ Hba]. f_equal. by apply IH.
Qed.

Lemma sorted_paths_sorted (l : list (list Z)) :
  StronglySorted (fun a b => list_le a b = true) (sorted_paths l).
Proof.
  unfold sorted_paths. apply Sorted_StronglySorted.
  - intros a b c. apply list_le_trans.
  - apply (@Sorted_merge_sort _ (fun a b => list_le a b = true) _).
    intros a b. apply list_le_total.
Qed.

Lemma sorted_paths_Permutation (l1 l2 : list (list Z)) :
  l1 ≡ₚ l2 -> sorted_paths l1 = sorted_paths l2.
Proof.
  intros Hperm.
  apply (@StronglySorted_unique _ (fun a b => list_le a b = true)).
  - intros a b. apply list_le_antisym.
  - apply sorted_paths_sorted.
  - apply sorted_paths_sorted.
  - unfold sorted_paths. by rewrite !merge_sort_Permutation.
Qed.

(** X27.  The sorted list of bridge paths does not depend on the order
    in which the set of paths is visited: two enumerations of the same
    paths sort to the same list, which is in the order of Python on lists
    and holds each path of the enumeration as often as it does. *)
Theorem bridge_path_list_order_independent (paths paths' : list (list Z)) :
  paths ≡ₚ paths' ->
  sorted_paths paths = sorted_paths paths' /\
  sorted_paths paths ≡ₚ paths /\
  StronglySorted (fun a b => list_le a b = true) (sorted_paths paths).
Proof.
  intros Hperm. split; [by apply sorted_paths_Permutation |]. split.
  - apply merge_sort_Permutation.
  - apply sorted_paths_sorted.
Qed.

Lemma bridge_path_list_order_independent_witness :
  sorted_paths [[3; 5]; [1; -4; 2]; [1; -4]] = sorted_paths [[1; -4]; [3; 5]; [1; -4; 2]] /\
  sorted_paths [[3; 5]; [1; -4; 2]; [1; -4]] = [[1; -4]; [1; -4; 2]; [3; 5]].
Proof.
  split; [| reflexivity].
  apply (bridge_path_list_order_independent
           [[3; 5]; [1; -4; 2]; [1; -4]] [[1; -4]; [3; 5]; [1; -4; 2]]).
  change ([[3; 5]] ++ [[1; -4; 2]; [1; -4]] ≡ₚ [[1; -4]] ++ [[3; 5]; [1; -4; 2]]).
  rewrite (Permutation_app_comm [[3; 5]]). cbn.
  rewrite (Permutation_swap [1; -4] [1; -4; 2]).
  apply perm_skip. apply Permutation_swap.
Defined.

(** *** The set of strings and the set of paths *)

Lemma for_each_fmap {A S T} (f : S -> T) (body : S -> A -> option S)
    (body' : T -> A -> option T) (l : list A) :
  (forall s x, x ∈ l -> body' (f s) x = f <$> body s x) ->
  forall s, for_each body' l (f s) = f <$> for_each body l s.
Proof.
  induction l as [| x l IH]; intros Hbody s; cbn [for_each]; [reflexivity |].
  rewrite Hbody by (apply elem_of_cons; by left).
  destruct (body s x) as [s' |]; cbn; [| reflexivity].
  apply IH. intros s0 y Hy. apply Hbody, elem_of_cons. by right.
Qed.

Lemma elem_of_rendered (bridge_path_set : gset (list Z)) (path : list Z) :
  render_path path ∈ (set_map render_path bridge_path_set : gset string)
  <-> path ∈ bridge_path_set.
Proof.
  rewrite elem_of_map. split.
  - intros (q & Hq & Hin). by rewrite (render_path_inj _ _ Hq).
  - intros Hin. by exists path.
Qed.

Lemma add_contig_bridge_str_rendered (bridge_path_set : gset (list Z))
    (contig_bridge : list Z) :
  add_contig_bridge_str (set_map render_path bridge_path_set) contig_bridge
  = set_map render_path <$> add_contig_bridge bridge_path_set contig_bridge.
Proof.
  unfold add_contig_bridge_str, add_contig_bridge. cbv zeta.
  rewrite !(bool_decide_ext _ _ (not_iff_compat (elem_of_rendered _ _))).
  destruct (bool_decide _ && bool_decide _); [| reflexivity].
  destruct (Py.first contig_bridge) as [first |]; [| reflexivity].
  destruct (Py.last contig_bridge) as [last |]; [| reflexivity].
  cbn [mbind option_bind].
  destruct ((first <? 0) && (last <? 0)); cbn;
    by rewrite set_map_union_L, set_map_singleton_L.
Qed.

Lemma collect_bridge_paths_str_rendered (graph : Graph.t)
    (single_copy_segments : list Segment.t) :
  collect_bridge_paths_str graph single_copy_segments
  = set_map render_path <$> collect_bridge_paths graph single_copy_segments.
Proof.
  unfold collect_bridge_paths_str, collect_bridge_paths. cbv zeta.
  rewrite <- (set_map_empty (C := gset (list Z)) (D := gset string) render_path) at 1.
  apply for_each_fmap. intros s segment _.
  apply for_each_fmap. intros s' path _.
  apply for_each_fmap. intros s'' contig_bridge _.
  apply add_contig_bridge_str_rendered.
Qed.

Lemma mapM_Permutation {A B} (f : A -> option B) (l1 l2 : list A) (k1 : list B) :
  l1 ≡ₚ l2 -> mapM f l1 = Some k1 -> exists k2, mapM f l2 = Some k2 /\ k1 ≡ₚ k2.
Proof.
  intros Hperm. revert k1.
  induction Hperm as [| x l1 l2 Hperm IH | x y l | l1 l2 l3 H12 IH12 H23 IH23]; intros k1 Hk1.
  - exists k1. by split.
  - cbn in *. destruct (f x) as [y |]; [| discriminate]. cbn in *.
    destruct (mapM f l1) as [k |] eqn:Hk; [| discriminate]. cbn in Hk1.
    injection Hk1 as <-. destruct (IH k eq_refl) as (k2 & -> & Hk2). cbn.
    exists (y :: k2). split; [reflexivity | by constructor].
  - cbn in *. destruct (f y) as [y' |]; [| discriminate]. cbn in *.
    destruct (f x) as [x' |]; [| discriminate]. cbn in *.
    destruct (mapM f l) as [k |]; [| discriminate]. cbn in *.
    injection Hk1 as <-. eexists. split; [reflexivity | apply Permutation_swap].
  - destruct (IH12 k1 Hk1) as (k2 & Hk2 & Hp12).
    destruct (IH23 k2 Hk2) as (k3 & Hk3 & Hp23).
    exists k3. split; [exact Hk3 | by transitivity k2].
Qed.

Lemma mapM_parse_render (paths : list (list Z)) :
  Forall (fun p => p <> []) paths -> mapM parse_path (render_path <$> paths) = Some paths.
Proof.
  induction 1 as [| p paths Hp Hall IH]; csimpl; [reflexivity |].
  rewrite parse_render_nonempty by assumption. csimpl.
  exact (f_equal (fun o : option (list (list Z)) => k ← o; Some (p :: k)) IH).
Qed.

Lemma bridge_path_list_str_rendered (bridge_path_set : gset (list Z)) :
  (forall p, p ∈ bridge_path_set -> p <> []) ->
  bridge_path_list_str (set_map render_path bridge_path_set)
  = Some (sorted_paths (elements bridge_path_set)).
Proof.
  intros Hnonempty. unfold bridge_path_list_str.
  assert (Hperm : render_path <$> elements bridge_path_set
                  ≡ₚ elements (set_map render_path bridge_path_set : gset string)).
  { unfold set_map. symmetry. apply elements_list_to_set.
    apply NoDup_fmap_2_strong; [| apply NoDup_elements].
    intros p q _ _. apply render_path_inj. }
  destruct (mapM_Permutation parse_path _ _ (elements bridge_path_set) Hperm)
    as (paths & -> & Hpaths).
  { apply mapM_parse_render, Forall_forall. intros p Hp.
    by apply Hnonempty, elem_of_elements. }
  cbn. f_equal. symmetry. by apply sorted_paths_Permutation.
Qed.

(** X28.  Keeping the bridge paths as a set of paths agrees with the
    source, which keeps their strings: the loops that fill
    [bridge_path_set] with strings build the set of the strings of the
    paths, and sorting what the strings parse to gives the sorted list of
    the paths; no string fails to parse. *)
Theorem bridge_path_list_through_strings (graph : Graph.t)
    (single_copy_segments : list Segment.t) :
  collect_bridge_paths_str graph single_copy_segments
  = set_map render_path <$> collect_bridge_paths graph single_copy_segments /\
  (bridge_path_set ← collect_bridge_paths_str graph single_copy_segments;
   bridge_path_list_str bridge_path_set)
  = (bridge_path_set ← collect_bridge_paths graph single_copy_segments;
     Some (sorted_paths (elements bridge_path_set))).
Proof.
  split; [apply collect_bridge_paths_str_rendered |].
  rewrite collect_bridge_paths_str_rendered.
  destruct (collect_bridge_paths_spec graph single_copy_segments)
    as (bridge_path_set & -> & _ & Hnonempty). cbn.
  by apply bridge_path_list_str_rendered.
Qed.
